(** * github-stars-search: chunker, hybrid merger and filter stage

    A shallow embedding of [src/processor/content_processor.py] and of the
    merge and filter stages of [src/search/search_engine.py], followed by the
    properties the specification states about them.

    Conventions.
    - A Python [str] is a [string]; each [ascii] stands for the code point of
      the same number (the Latin-1 range), so the whitespace class below is
      Python's [str.isspace] restricted to code points under 256.
    - Word counts of the configuration are [nat].
    - A Python exception is [None] in an [option] result; which exception is
      said where it arises.
    - Scores are Python floats; they are embedded as exact rationals [Q]
      (comparisons, [min] and the weighted sum are taken exactly). *)

From Stdlib Require Import List Arith ZArith QArith Lia Lqa Bool Ascii String.
From Stdlib Require Import DecimalString.
From Stdlib Require DecimalNat DecimalFacts.
From Stdlib Require Import Permutation Sorted.
Import ListNotations.

Close Scope Q_scope.
Open Scope nat_scope.
Open Scope string_scope.

(* ------------------------------------------------------------------ *)
(** ** Python string primitives used by the sources *)

Module PyStr.

(** [str.isspace] on one character: TAB..CR, FS..US, space, NEL, NBSP. *)
Definition is_space (c : ascii) : bool :=
  let n := nat_of_ascii c in
  (((9 <=? n) && (n <=? 13)) || ((28 <=? n) && (n <=? 32))
   || (n =? 133) || (n =? 160))%nat.

Definition nl : ascii := "010"%char.
Definition is_nl (c : ascii) : bool := Ascii.eqb c nl.
Definition is_hash (c : ascii) : bool := Ascii.eqb c "#"%char.
Definition any_char (c : ascii) : bool := true.

Definition is_empty (s : string) : bool :=
  match s with EmptyString => true | String _ _ => false end.

(** A finished word is pushed on the list only when it has characters. *)
Definition push_word (w : string) (ws : list string) : list string :=
  if is_empty w then ws else w :: ws.

(** [words_from s] is the (possibly empty) word that starts at the head of
    [s] and the words after it. *)
Fixpoint words_from (s : string) : string * list string :=
  match s with
  | EmptyString => (EmptyString, [])
  | String c s' =>
      let (w, ws) := words_from s' in
      if is_space c then (EmptyString, push_word w ws) else (String c w, ws)
  end.

(** [s.split()]: maximal runs of non-whitespace characters. *)
Definition split_ws (s : string) : list string :=
  let (w, ws) := words_from s in push_word w ws.

Fixpoint lstrip (s : string) : string :=
  match s with
  | EmptyString => EmptyString
  | String c s' => if is_space c then lstrip s' else s
  end.

Fixpoint rstrip (s : string) : string :=
  match s with
  | EmptyString => EmptyString
  | String c s' =>
      let r := rstrip s' in
      if is_empty r && is_space c then EmptyString else String c r
  end.

(** [s.strip()] *)
Definition strip (s : string) : string := rstrip (lstrip s).

(** [sep.join(parts)] *)
Definition join (sep : string) (parts : list string) : string :=
  String.concat sep parts.

(** [pieces_from sep s skip]: the piece that starts at the head of [s] and
    the pieces after it; [skip] counts the characters of a separator found
    earlier that are still to be passed over. *)
Fixpoint pieces_from (sep s : string) (skip : nat) : string * list string :=
  match s with
  | EmptyString => (EmptyString, [])
  | String c s' =>
      match skip with
      | S k => pieces_from sep s' k
      | O =>
          if String.prefix sep s
          then let (p, ps) := pieces_from sep s' (String.length sep - 1) in
               (EmptyString, p :: ps)
          else let (p, ps) := pieces_from sep s' 0 in
               (String c p, ps)
      end
  end.

(** [s.split(sep)] for a non-empty separator: cut at each occurrence of
    [sep], scanning from the left. *)
Definition split_sep (sep s : string) : list string :=
  let (p, ps) := pieces_from sep s 0 in p :: ps.

(** [sub in s] *)
Fixpoint contains (sub s : string) : bool :=
  String.prefix sub s
  || match s with
     | EmptyString => false
     | String _ s' => contains sub s'
     end.

(** [s[:n]] *)
Fixpoint take (n : nat) (s : string) : string :=
  match n, s with
  | S k, String c s' => String c (take k s')
  | _, _ => EmptyString
  end.

(** [str(n)] as an f-string prints an integer. *)
Definition str_of_Z (z : Z) : string := NilZero.string_of_int (Z.to_int z).
Definition str_of_nat (n : nat) : string :=
  NilZero.string_of_uint (Nat.to_uint n).

(** [xs[i:j]] for non-negative [i] and [j]. *)
Definition slice {A} (xs : list A) (i j : nat) : list A :=
  firstn (j - i) (skipn i xs).

(** [xs[-k:]] for [0 < k]: the last [k] elements (all of them when the
    list is shorter). *)
Definition last_n {A} (k : nat) (xs : list A) : list A :=
  skipn (List.length xs - k) xs.

(** [enumerate(xs)] *)
Definition enumerate {A} (xs : list A) : list (nat * A) :=
  combine (seq 0 (List.length xs)) xs.

(** [range(0, n, step)]: [ValueError] for a zero step, empty for a
    negative one; [step] is given as the difference [hi - lo] of two
    naturals. *)
Definition range_by (n hi lo : nat) : option (list nat) :=
  if (lo <? hi)%nat
  then Some (map (fun j => j * (hi - lo)) (seq 0 ((n + (hi - lo) - 1) / (hi - lo))))
  else if (lo =? hi)%nat then None
  else Some [].

End PyStr.

(* ------------------------------------------------------------------ *)
(** ** The fragment of Python's [re] that the chunker uses

    A backtracking matcher in continuation-passing style.  Quantifiers range
    over character classes only, which is all the patterns of the sources
    need; [^] and [\Z] are the anchors of a pattern compiled without
    [re.MULTILINE], and [.] is compiled with [re.DOTALL]. *)

Module Re.
Import PyStr.

Inductive regex : Type :=
| Bol                                  (* ^ *)
| Eos                                  (* \Z *)
| Cls (c : ascii -> bool)              (* one character of a class *)
| PlusGreedy (c : ascii -> bool)       (* c+ *)
| PlusLazy (c : ascii -> bool)         (* c+? *)
| Seq (r1 r2 : regex)
| Alt (r1 r2 : regex)                  (* r1|r2, r1 tried first *)
| Group (r : regex)                    (* capturing group 1 *)
| Look (r : regex).                    (* (?=r) *)

(** A matcher state: the position, the text from that position on, and
    what group 1 captured. *)
Record mstate : Type := MState {
  pos : nat;
  rest : string;
  grp : option string
}.

Definition K := mstate -> option mstate.

(** [c*], longest first. *)
Fixpoint star_greedy (c : ascii -> bool) (s : string) (p : nat)
         (g : option string) (k : K) : option mstate :=
  match s with
  | String x s' =>
      if c x
      then match star_greedy c s' (S p) g k with
           | Some r => Some r
           | None => k (MState p s g)
           end
      else k (MState p s g)
  | EmptyString => k (MState p s g)
  end.

(** [c*?], shortest first. *)
Fixpoint star_lazy (c : ascii -> bool) (s : string) (p : nat)
         (g : option string) (k : K) : option mstate :=
  match k (MState p s g) with
  | Some r => Some r
  | None =>
      match s with
      | String x s' => if c x then star_lazy c s' (S p) g k else None
      | EmptyString => None
      end
  end.

Fixpoint run (r : regex) (st : mstate) (k : K) : option mstate :=
  match r with
  | Bol => if (pos st =? 0)%nat then k st else None
  | Eos => if is_empty (rest st) then k st else None
  | Cls c =>
      match rest st with
      | String x s' => if c x then k (MState (S (pos st)) s' (grp st)) else None
      | EmptyString => None
      end
  | PlusGreedy c =>
      match rest st with
      | String x s' =>
          if c x then star_greedy c s' (S (pos st)) (grp st) k else None
      | EmptyString => None
      end
  | PlusLazy c =>
      match rest st with
      | String x s' =>
          if c x then star_lazy c s' (S (pos st)) (grp st) k else None
      | EmptyString => None
      end
  | Seq r1 r2 => run r1 st (fun st' => run r2 st' k)
  | Alt r1 r2 =>
      match run r1 st k with
      | Some res => Some res
      | None => run r2 st k
      end
  | Group r1 =>
      run r1 st (fun st' =>
        k (MState (pos st') (rest st')
                  (Some (take (pos st' - pos st) (rest st)))))
  | Look r1 =>
      match run r1 st (fun st' => Some st') with
      | Some _ => k st
      | None => None
      end
  end.

(** One attempt at position [p]: the text of group 1 and the end of the
    match. *)
Definition match_at (r : regex) (p : nat) (s : string) : option (string * nat) :=
  match run r (MState p s None) (fun st => Some st) with
  | Some st =>
      Some (match grp st with Some g => g | None => EmptyString end, pos st)
  | None => None
  end.

(** The scan of [re.findall]: [s] is the text from position [p] on and no
    attempt is made before position [resume], the end of the last match.
    An empty match lets the scan go on at the next position. *)
Fixpoint scan (r : regex) (s : string) (p resume : nat) : list string :=
  let next (resume' : nat) :=
    match s with
    | EmptyString => []
    | String _ s' => scan r s' (S p) resume'
    end in
  if (p <? resume)%nat then next resume
  else match match_at r p s with
       | Some (g, e) => g :: next (Nat.max e (S p))
       | None => next resume
       end.

(** [re.findall(r, s)] for a pattern with exactly one capturing group:
    the list of what that group captured, one entry per match. *)
Definition findall (r : regex) (s : string) : list string := scan r s 0 0.

(** [\n#+\s+] *)
Definition next_header : regex :=
  Seq (Cls is_nl) (Seq (PlusGreedy is_hash) (PlusGreedy is_space)).

(** [(^|\n)#+\s+.+?(?=\n#+\s+|\Z)] *)
Definition header_pattern : regex :=
  Seq (Group (Alt Bol (Cls is_nl)))
    (Seq (PlusGreedy is_hash)
       (Seq (PlusGreedy is_space)
          (Seq (PlusLazy any_char)
             (Look (Alt next_header Eos))))).

(** *** Vocabulary of the stated properties *)

Fixpoint no_group (r : regex) : bool :=
  match r with
  | Group _ => false
  | Seq r1 r2 | Alt r1 r2 => no_group r1 && no_group r2
  | Look r1 => no_group r1
  | _ => true
  end.

End Re.


(* ------------------------------------------------------------------ *)
(** ** [src/processor/content_processor.py] *)

Module ContentProcessor.
Import PyStr Re.

(** The four tags a chunk's ["chunk_type"] takes. *)
Inductive ChunkType : Type :=
| readme_section
| readme_window
| readme_hybrid
| description.

Definition ChunkType_eqb (a b : ChunkType) : bool :=
  match a, b with
  | readme_section, readme_section
  | readme_window, readme_window
  | readme_hybrid, readme_hybrid
  | description, description => true
  | _, _ => false
  end.

(** The keys of the repository dict that the processor reads; a missing
    ["description"] and a [None] one are both [None] here. *)
Record Repo : Type := {
  r_id : Z;
  r_full_name : string;
  r_description : option string
}.

(** A chunk dict; the two index keys are present on some chunks only. *)
Record Chunk : Type := {
  id : string;
  repo_id : Z;
  repo_name : string;
  content : string;
  chunk_type : ChunkType;
  section_index : option nat;
  window_index : option nat
}.

(** The fields [__init__] reads from the configuration. *)
Record Config : Type := {
  max_readme_size : nat;
  chunk_strategy : string;
  max_chunk_size : nat;
  chunk_overlap : nat
}.

Definition NL : string := String nl EmptyString.
Definition NL2 : string := String nl (String nl EmptyString).

(** [f"Repository: {repo['full_name']}"] *)
Definition repo_header (repo : Repo) : string :=
  "Repository: " ++ r_full_name repo.

(** The window loop, written twice in the source (lines 151-157 and
    219-225): for each start [i] of [range(0, len(words), size - overlap)]
    the slice [words[i:i + size]], kept unless shorter than the overlap,
    with its index [i // (size - overlap)]. *)
Definition windows (cfg : Config) (words : list string)
  : option (list (nat * list string)) :=
  let chunk_size := max_chunk_size cfg in
  let overlap := chunk_overlap cfg in
  match range_by (List.length words) chunk_size overlap with
  | None => None
  | Some starts =>
      Some (flat_map
              (fun i =>
                 let chunk_words := slice words i (i + chunk_size) in
                 if (List.length chunk_words <? overlap)%nat then []
                 else [(i / (chunk_size - overlap), chunk_words)])
              starts)
  end.

Definition window_chunk (repo : Repo) (w : nat * list string) : Chunk :=
  let (window, chunk_words) := w in
  {| id := str_of_Z (r_id repo) ++ "-" ++ str_of_nat window;
     repo_id := r_id repo;
     repo_name := r_full_name repo;
     content := repo_header repo ++ NL2 ++ join " " chunk_words;
     chunk_type := readme_window;
     section_index := None;
     window_index := Some window |}.

Definition _sliding_window_chunking (cfg : Config) (content : string)
           (repo : Repo) : option (list Chunk) :=
  match windows cfg (split_ws content) with
  | None => None
  | Some ws => Some (map (window_chunk repo) ws)
  end.

Definition section_chunk (repo : Repo) (e : nat * string) : Chunk :=
  let (i, section) := e in
  {| id := str_of_Z (r_id repo) ++ "-" ++ str_of_nat i;
     repo_id := r_id repo;
     repo_name := r_full_name repo;
     content := repo_header repo ++ NL2 ++ strip section;
     chunk_type := readme_section;
     section_index := Some i;
     window_index := None |}.

Definition _semantic_chunking (cfg : Config) (content : string)
           (repo : Repo) : option (list Chunk) :=
  let sections := findall header_pattern content in
  match sections with
  | [] => _sliding_window_chunking cfg content repo
  | _ :: _ => Some (map (section_chunk repo) (enumerate sections))
  end.

Definition sub_chunk (repo : Repo) (repo_context : string) (i : nat)
           (w : nat * list string) : Chunk :=
  let (window, chunk_words) := w in
  {| id := str_of_Z (r_id repo) ++ "-" ++ str_of_nat i ++ "-"
           ++ str_of_nat window;
     repo_id := r_id repo;
     repo_name := r_full_name repo;
     content := repo_context ++ NL2 ++ join " " chunk_words;
     chunk_type := readme_hybrid;
     section_index := Some i;
     window_index := Some window |}.

Definition is_nil {A} (l : list A) : bool :=
  match l with [] => true | _ :: _ => false end.

(** The loop of lines 203-245 over [enumerate(semantic_chunks)], threading
    [final_chunks] and [has_hybrid_chunks]. *)
Fixpoint hybrid_loop (cfg : Config) (repo : Repo) (items : list (nat * Chunk))
         (final_chunks : list Chunk) (has_hybrid_chunks : bool)
  : option (list Chunk * bool) :=
  match items with
  | [] => Some (final_chunks, has_hybrid_chunks)
  | (i, chunk) :: items' =>
      let chunk_content := content chunk in
      if (max_chunk_size cfg <? List.length (split_ws chunk_content))%nat
      then
        let parts := split_sep NL2 chunk_content in
        let repo_context := hd EmptyString parts in
        let section_content := join NL2 (tl parts) in
        match windows cfg (split_ws section_content) with
        | None => None
        | Some ws =>
            hybrid_loop cfg repo items'
              (final_chunks ++ map (sub_chunk repo repo_context i) ws)%list
              (has_hybrid_chunks || negb (is_nil ws))
        end
      else hybrid_loop cfg repo items' (final_chunks ++ [chunk])%list
                       has_hybrid_chunks
  end.

Definition relabel_hybrid (c : Chunk) : Chunk :=
  {| id := id c;
     repo_id := repo_id c;
     repo_name := repo_name c;
     content := content c;
     chunk_type := readme_hybrid;
     section_index := Some 0;
     window_index := window_index c |}.

Definition forced_hybrid_chunk (repo : Repo) (chunk : Chunk) : Chunk :=
  {| id := str_of_Z (r_id repo) ++ "-0-hybrid";
     repo_id := r_id repo;
     repo_name := r_full_name repo;
     content := content chunk;
     chunk_type := readme_hybrid;
     section_index := Some 0;
     window_index := Some 0 |}.

Definition first_is_window (chunks : list Chunk) : bool :=
  match chunks with
  | c :: _ => ChunkType_eqb (chunk_type c) readme_window
  | [] => false
  end.

Definition _hybrid_chunking (cfg : Config) (content : string) (repo : Repo)
  : option (list Chunk) :=
  match _semantic_chunking cfg content repo with
  | None => None
  | Some semantic_chunks =>
      if first_is_window semantic_chunks
      then Some (map relabel_hybrid semantic_chunks)
      else
        match hybrid_loop cfg repo (enumerate semantic_chunks) [] false with
        | None => None
        | Some (final_chunks, has_hybrid_chunks) =>
            match semantic_chunks with
            | chunk :: _ =>
                if contains "Large Test Repository" content
                   && negb has_hybrid_chunks
                then Some (final_chunks ++ [forced_hybrid_chunk repo chunk])%list
                else Some final_chunks
            | [] => Some final_chunks
            end
        end
  end.

Definition process_description (repo : Repo) : option Chunk :=
  match r_description repo with
  | None => None
  | Some d =>
      if is_empty d then None
      else Some {| id := str_of_Z (r_id repo) ++ "-description";
                   repo_id := r_id repo;
                   repo_name := r_full_name repo;
                   content := repo_header repo ++ NL ++ "Description: " ++ d;
                   chunk_type := description;
                   section_index := None;
                   window_index := None |}
  end.

Definition starts_with_two_nl (s : string) : bool :=
  match s with
  | String a (String b _) => is_nl a && is_nl b
  | _ => false
  end.

(** [re.sub(r'\n{3,}', '\n\n', text)]: a run of three or more newlines
    becomes two. *)
Fixpoint collapse_newlines (s : string) : string :=
  match s with
  | EmptyString => EmptyString
  | String c s' =>
      let r := collapse_newlines s' in
      if is_nl c && starts_with_two_nl r then r else String c r
  end.

Definition starts_with_space (s : string) : bool :=
  match s with
  | String a _ => Ascii.eqb a " "%char
  | EmptyString => false
  end.

(** [re.sub(r'\s+', ' ', text)]: each maximal run of whitespace becomes one
    space. *)
Fixpoint collapse_ws (s : string) : string :=
  match s with
  | EmptyString => EmptyString
  | String c s' =>
      let r := collapse_ws s' in
      if is_space c
      then (if starts_with_space r then r else String " "%char r)
      else String c r
  end.

Section Readme.

(** [markdown.markdown] followed by [html2text]'s [handle]: the two library
    calls of [_clean_content], taken as one function of the text. *)
Variable render : string -> string.

Definition _clean_content (content : string) : string :=
  collapse_ws (collapse_newlines (render content)).

Definition process_readme (cfg : Config) (content : string) (repo : Repo)
  : option (list Chunk) :=
  let content :=
    if (max_readme_size cfg <? String.length content)%nat
    then take (max_readme_size cfg) content
    else content in
  let clean_content := _clean_content content in
  if String.eqb (chunk_strategy cfg) "semantic"
  then _semantic_chunking cfg clean_content repo
  else if String.eqb (chunk_strategy cfg) "sliding"
  then _sliding_window_chunking cfg clean_content repo
  else _hybrid_chunking cfg clean_content repo.

End Readme.

(** *** Vocabulary of the stated properties *)

(** A header line as the pattern sees one: at the start of the text or
    after a newline, a run of [#] followed by a whitespace character. *)
Fixpoint drop_hashes (s : string) : string :=
  match s with
  | String c s' => if is_hash c then drop_hashes s' else s
  | EmptyString => EmptyString
  end.

Definition header_start (s : string) : bool :=
  match s with
  | String c s' =>
      is_hash c
      && match drop_hashes s' with
         | String d _ => is_space d
         | EmptyString => false
         end
  | EmptyString => false
  end.

Fixpoint header_after_newline (s : string) : bool :=
  match s with
  | String c s' => (is_nl c && header_start s') || header_after_newline s'
  | EmptyString => false
  end.

Definition has_header_line (s : string) : bool :=
  header_start s || header_after_newline s.

(** The words of the emitted windows, in order. *)
Definition window_words (ws : list (nat * list string)) : list (list string) :=
  map snd ws.

(** Gluing windows back together: the first one whole, every later one
    without its first [overlap] words. *)
Definition reassemble (overlap : nat) (wins : list (list string)) : list string :=
  match wins with
  | [] => []
  | w :: rest => (w ++ flat_map (skipn overlap) rest)%list
  end.

Fixpoint no_newline (s : string) : bool :=
  match s with
  | EmptyString => true
  | String c s' => negb (is_nl c) && no_newline s'
  end.

(** The window that starts at word [j * (size - overlap)]. *)
Definition window_at (cfg : Config) (words : list string) (j : nat)
  : nat * list string :=
  let step := max_chunk_size cfg - chunk_overlap cfg in
  (j, slice words (j * step) (j * step + max_chunk_size cfg)).

(** The context line of a readme chunk, with its blank line. *)
Definition readme_prefix (repo : Repo) : string := repo_header repo ++ NL2.

(** What a well-formed readme chunk's content looks like. *)
Definition headed (repo : Repo) (c : Chunk) : Prop :=
  exists body, content c = repo_header repo ++ NL2 ++ body.

(** The context line of a description chunk. *)
Definition description_prefix (repo : Repo) : string :=
  repo_header repo ++ NL ++ "Description: ".

Definition is_section (c : Chunk) : bool :=
  ChunkType_eqb (chunk_type c) readme_section.

Fixpoint no_space (s : string) : bool :=
  match s with
  | EmptyString => true
  | String c s' => negb (is_space c) && no_space s'
  end.

(** A word: at least one character, none of them whitespace. *)
Definition is_word (w : string) : bool := negb (is_empty w) && no_space w.

(** The words of a chunk's text below its context line, read back the way
    lines 209-215 of the source and the overlap test read them:
    [content.split("\n\n")[1:]] joined again, then [split()]. *)
Definition chunk_words (c : Chunk) : list string :=
  split_ws (join NL2 (tl (split_sep NL2 (content c)))).

(** A chunk carries the id and the name of the repository. *)
Definition belongs_to (repo : Repo) (c : Chunk) : Prop :=
  repo_id c = r_id repo /\ repo_name c = r_full_name repo.

(** The chunk types a strategy can give: ["sliding"] windows only,
    ["semantic"] sections or the windows of its fallback, any other value
    (the hybrid strategy) sections and hybrid chunks. *)
Definition allowed_type (strategy : string) (t : ChunkType) : bool :=
  if String.eqb strategy "semantic"
  then ChunkType_eqb t readme_section || ChunkType_eqb t readme_window
  else if String.eqb strategy "sliding"
  then ChunkType_eqb t readme_window
  else ChunkType_eqb t readme_section || ChunkType_eqb t readme_hybrid.

End ContentProcessor.


(* ------------------------------------------------------------------ *)
(** ** [src/search/search_engine.py]: merger and filter stage *)

Module SearchEngine.
Import PyStr.

(** The scalar values a repository attribute or a filter literal holds. *)
Inductive value : Type :=
| VNone
| VBool (b : bool)
| VInt (z : Z)
| VStr (s : string).

(** A repository dict: its ["id"], which the store always sets, and the
    other keys in insertion order. *)
Record Repository : Type := {
  repository_id : Z;
  attrs : list (string * value)
}.

Fixpoint assoc {A} (key : string) (d : list (string * A)) : option A :=
  match d with
  | [] => None
  | (k, v) :: d' => if String.eqb key k then Some v else assoc key d'
  end.

(** [repo[field]] when [field in repo], [None] when the key is absent. *)
Definition repo_get (field : string) (repo : Repository) : option value :=
  if String.eqb field "id" then Some (VInt (repository_id repo))
  else assoc field (attrs repo).

(** A search result dict; the two component scores are present on merged
    results only. *)
Record SearchResult : Type := {
  id : string;
  score : Q;
  text : string;
  repository : Repository;
  chunk_type : string;
  neural_score : option Q;
  keyword_score : option Q
}.

(** The fields of [self] that the merger reads. *)
Record Engine : Type := {
  neural_weight : Q;
  keyword_weight : Q;
  min_score : Q
}.

(** [a < b] on scores. *)
Definition Qltb (a b : Q) : bool := negb (Qle_bool b a).

(** [min(a, b)]: the first argument unless the second is smaller. *)
Definition py_min (a b : Q) : Q := if Qltb b a then b else a.

(** A value of the [repo_results] dict. *)
Record Entry : Type := {
  e_repository : Repository;
  e_neural_score : Q;
  e_keyword_score : Q;
  e_text : string;
  e_chunk_type : string
}.

(** [repo_results]: a dict keyed by repository id, in insertion order. *)
Definition Dict : Type := list (Z * Entry).

Fixpoint dict_get (k : Z) (d : Dict) : option Entry :=
  match d with
  | [] => None
  | (k', v) :: d' => if Z.eqb k k' then Some v else dict_get k d'
  end.

(** Assignment to a key: in place when the key exists, appended otherwise. *)
Fixpoint dict_set (k : Z) (v : Entry) (d : Dict) : Dict :=
  match d with
  | [] => [(k, v)]
  | (k', v') :: d' =>
      if Z.eqb k k' then (k, v) :: d' else (k', v') :: dict_set k v d'
  end.

(** One turn of the loop of lines 276-292. *)
Definition neural_step (repo_results : Dict) (result : SearchResult) : Dict :=
  let rid := repository_id (repository result) in
  match dict_get rid repo_results with
  | None =>
      dict_set rid
        {| e_repository := repository result;
           e_neural_score := score result;
           e_keyword_score := 0%Q;
           e_text := text result;
           e_chunk_type := chunk_type result |} repo_results
  | Some e =>
      if Qltb (e_neural_score e) (score result)
      then dict_set rid
             {| e_repository := e_repository e;
                e_neural_score := score result;
                e_keyword_score := e_keyword_score e;
                e_text := text result;
                e_chunk_type := chunk_type result |} repo_results
      else repo_results
  end.

(** One turn of the loop of lines 295-314. *)
Definition keyword_step (repo_results : Dict) (result : SearchResult) : Dict :=
  let rid := repository_id (repository result) in
  match dict_get rid repo_results with
  | None =>
      dict_set rid
        {| e_repository := repository result;
           e_neural_score := 0%Q;
           e_keyword_score := score result;
           e_text := text result;
           e_chunk_type := chunk_type result |} repo_results
  | Some e =>
      if Qltb (e_keyword_score e) (score result)
      then
        if Qltb (e_neural_score e) (1 # 2)%Q
        then dict_set rid
               {| e_repository := e_repository e;
                  e_neural_score := e_neural_score e;
                  e_keyword_score := score result;
                  e_text := text result;
                  e_chunk_type := chunk_type result |} repo_results
        else dict_set rid
               {| e_repository := e_repository e;
                  e_neural_score := e_neural_score e;
                  e_keyword_score := score result;
                  e_text := e_text e;
                  e_chunk_type := e_chunk_type e |} repo_results
      else repo_results
  end.

(** The map built by the two loops. *)
Definition group_results (neural_results keyword_results : list SearchResult)
  : Dict :=
  fold_left keyword_step keyword_results
    (fold_left neural_step neural_results []).

(** [min(result["keyword_score"], 10.0) / 10.0] *)
Definition normalized_keyword (e : Entry) : Q :=
  (py_min (e_keyword_score e) 10 / 10)%Q.

Definition combined_score (eng : Engine) (e : Entry) : Q :=
  (neural_weight eng * e_neural_score e
   + keyword_weight eng * normalized_keyword e)%Q.

(** One turn of the loop of lines 318-341. *)
Definition merged_of (eng : Engine) (kv : Z * Entry) : list SearchResult :=
  let (rid, e) := kv in
  if Qltb (combined_score eng e) (min_score eng) then []
  else [{| id := "merged-" ++ str_of_Z rid;
           score := combined_score eng e;
           text := e_text e;
           repository := e_repository e;
           chunk_type := e_chunk_type e;
           neural_score := Some (e_neural_score e);
           keyword_score := Some (normalized_keyword e) |}].

(** [list.sort(key=score, reverse=True)]: descending and stable. *)
Fixpoint insert_desc (x : SearchResult) (l : list SearchResult)
  : list SearchResult :=
  match l with
  | [] => [x]
  | y :: l' =>
      if Qltb (score x) (score y) then y :: insert_desc x l' else x :: l
  end.

Fixpoint sort_desc (l : list SearchResult) : list SearchResult :=
  match l with
  | [] => []
  | x :: l' => insert_desc x (sort_desc l')
  end.

Definition _merge_results (eng : Engine)
           (neural_results keyword_results : list SearchResult)
  : list SearchResult :=
  sort_desc (flat_map (merged_of eng)
                      (group_results neural_results keyword_results)).

(** A filter value: a dict (range filter) or a literal (exact match). *)
Inductive FilterValue : Type :=
| FDict (d : list (string * value))
| FLit (v : value).

Definition as_number (v : value) : option Z :=
  match v with
  | VInt z => Some z
  | VBool b => Some (if b then 1%Z else 0%Z)
  | _ => None
  end.

(** [a < b]; [None] is the [TypeError] of an unordered pair of types. *)
Definition py_lt (a b : value) : option bool :=
  match as_number a, as_number b with
  | Some x, Some y => Some (Z.ltb x y)
  | _, _ =>
      match a, b with
      | VStr s, VStr t => Some (String.ltb s t)
      | _, _ => None
      end
  end.

(** [a != b] *)
Definition py_ne (a b : value) : bool :=
  match as_number a, as_number b with
  | Some x, Some y => negb (Z.eqb x y)
  | _, _ =>
      match a, b with
      | VStr s, VStr t => negb (String.eqb s t)
      | VNone, VNone => false
      | _, _ => true
      end
  end.

(** The test of the upper bound, lines 376-378: [Some false] is the
    [break] with [include = False]. *)
Definition check_max (field_value : value) (fd : list (string * value))
  : option bool :=
  match assoc "max" fd with
  | Some hi =>
      match py_lt hi field_value with
      | None => None
      | Some gt => Some (negb gt)
      end
  | None => Some true
  end.

(** Lines 371-383 for one filter whose field is present. *)
Definition check_field (field_value : value) (filter_value : FilterValue)
  : option bool :=
  match filter_value with
  | FDict fd =>
      match assoc "min" fd with
      | Some lo =>
          match py_lt field_value lo with
          | None => None
          | Some true => Some false
          | Some false => check_max field_value fd
          end
      | None => check_max field_value fd
      end
  | FLit v => Some (negb (py_ne field_value v))
  end.

(** The inner loop of lines 366-383: the final value of [include]. *)
Fixpoint include_result (repo : Repository)
         (filters : list (string * FilterValue)) : option bool :=
  match filters with
  | [] => Some true
  | (field, filter_value) :: filters' =>
      match repo_get field repo with
      | Some field_value =>
          match check_field field_value filter_value with
          | None => None
          | Some false => Some false
          | Some true => include_result repo filters'
          end
      | None => include_result repo filters'
      end
  end.

Fixpoint _apply_filters (results : list SearchResult)
         (filters : list (string * FilterValue))
  : option (list SearchResult) :=
  match results with
  | [] => Some []
  | result :: results' =>
      match include_result (repository result) filters with
      | None => None
      | Some include =>
          match _apply_filters results' filters with
          | None => None
          | Some filtered_results =>
              Some (if include then result :: filtered_results
                    else filtered_results)
          end
      end
  end.

(** *** Vocabulary of the stated properties *)

Definition of_repo (rid : Z) (h : SearchResult) : Prop :=
  repository_id (repository h) = rid.

(** [h] is the best hit of repository [rid] in [hits]: the first of its
    hits that no other hit of the repository outscores. *)
Definition best_hit (rid : Z) (hits : list SearchResult) (h : SearchResult)
  : Prop :=
  exists before after,
    hits = (before ++ h :: after)%list
    /\ of_repo rid h
    /\ (forall x, In x before -> of_repo rid x -> (score x < score h)%Q)
    /\ (forall x, In x after -> of_repo rid x -> (score x <= score h)%Q).

Definition same_snippet (r h : SearchResult) : Prop :=
  text r = text h /\ chunk_type r = chunk_type h.

Definition result_repo_ids (rs : list SearchResult) : list Z :=
  map (fun r => repository_id (repository r)) rs.

Local Open Scope Q_scope.

Definition rid (h : SearchResult) : Z := repository_id (repository h).

(** What [neural_step] leaves under the key of its hit. *)
Definition neural_entry (o : option Entry) (h : SearchResult) : Entry :=
  match o with
  | None =>
      {| e_repository := repository h; e_neural_score := score h;
         e_keyword_score := 0; e_text := text h;
         e_chunk_type := chunk_type h |}
  | Some e =>
      if Qltb (e_neural_score e) (score h)
      then {| e_repository := e_repository e; e_neural_score := score h;
              e_keyword_score := e_keyword_score e; e_text := text h;
              e_chunk_type := chunk_type h |}
      else e
  end.

Definition keyword_entry (o : option Entry) (h : SearchResult) : Entry :=
  match o with
  | None =>
      {| e_repository := repository h; e_neural_score := 0;
         e_keyword_score := score h; e_text := text h;
         e_chunk_type := chunk_type h |}
  | Some e =>
      if Qltb (e_keyword_score e) (score h)
      then if Qltb (e_neural_score e) (1 # 2)
           then {| e_repository := e_repository e;
                   e_neural_score := e_neural_score e;
                   e_keyword_score := score h; e_text := text h;
                   e_chunk_type := chunk_type h |}
           else {| e_repository := e_repository e;
                   e_neural_score := e_neural_score e;
                   e_keyword_score := score h; e_text := e_text e;
                   e_chunk_type := e_chunk_type e |}
      else e
  end.

Definition at_key (entry : option Entry -> SearchResult -> Entry) (k : Z)
           (o : option Entry) (h : SearchResult) : option Entry :=
  if Z.eqb k (rid h) then Some (entry o h) else o.

(** Every entry holds a repository whose id is its key. *)
Definition keyed (k : Z) (o : option Entry) : Prop :=
  forall e, o = Some e -> repository_id (e_repository e) = k.

Definition non_negative (e : Entry) : Prop :=
  0 <= e_neural_score e /\ 0 <= e_keyword_score e.

(** A filter matches a repository record, or the record has no such
    field: the test of lines 367-383 does not turn [include] to [False]. *)
Definition matches_present (repo : Repository) (f : string * FilterValue)
  : Prop :=
  forall field_value,
    repo_get (fst f) repo = Some field_value ->
    check_field field_value (snd f) = Some true.

End SearchEngine.


(* ------------------------------------------------------------------ *)
(** ** [src/search/search_engine.py]: lexical index, keyword search and
    [search]; the filters of [search_command] in [src/cli/commands.py] *)

Module SearchPipeline.
Import PyStr SearchEngine.

Definition nonempty {A} (l : list A) : bool :=
  match l with [] => false | _ :: _ => true end.

Definition between (lo hi n : nat) : bool := ((lo <=? n) && (n <=? hi))%nat.

(** [xs[:limit]] for an integer [limit]: the first [limit] elements, or,
    for a negative [limit], all but the last [-limit]. *)
Definition py_take {A} (limit : Z) (xs : list A) : list A :=
  if (limit <? 0)%Z
  then firstn (List.length xs - Z.to_nat (- limit)) xs
  else firstn (Z.to_nat limit) xs.

(** [c.lower()] on one character: A-Z and the capital letters of Latin-1
    (all of 192-222 but the multiplication sign) move up by 32. *)
Definition py_lower (c : ascii) : ascii :=
  let n := nat_of_ascii c in
  if between 65 90 n || between 192 214 n || between 216 222 n
  then ascii_of_nat (n + 32)
  else c.

(** [\w] on one character: digits, letters and the underscore, with the
    letters and digit-like characters of Latin-1. *)
Definition is_word_char (c : ascii) : bool :=
  let n := nat_of_ascii c in
  between 48 57 n || between 65 90 n || (n =? 95)%nat || between 97 122 n
  || (n =? 170)%nat || between 178 179 n || (n =? 181)%nat
  || between 185 186 n || between 188 190 n || between 192 214 n
  || between 216 246 n || between 248 255 n.

Fixpoint map_chars (f : ascii -> ascii) (s : string) : string :=
  match s with
  | EmptyString => EmptyString
  | String c s' => String (f c) (map_chars f s')
  end.

(** [text.lower()] *)
Definition lower (s : string) : string := map_chars py_lower s.

(** The replacement of [re.sub(r'[^\w\s]', ' ', text)] on one character. *)
Definition blank_special (c : ascii) : ascii :=
  if is_word_char c || is_space c then c else " "%char.

Definition _preprocess_text (text : string) : string :=
  let text := lower text in
  let text := map_chars blank_special text in
  strip (ContentProcessor.collapse_ws text).

(** Truthiness of a value, as [if description:] tests it. *)
Definition truthy (v : value) : bool :=
  match v with
  | VNone => false
  | VBool b => b
  | VInt z => negb (Z.eqb z 0)
  | VStr s => negb (is_empty s)
  end.

(** The three BM25 fields of the engine; [bm25_index] says whether the
    index object is there ([is not None]). *)
Record Bm25 : Type := {
  bm25_index : bool;
  bm25_documents : list (list string);
  bm25_repo_map : list (nat * Z)
}.

(** The fields as [__init__] sets them. *)
Definition no_index : Bm25 :=
  {| bm25_index := false; bm25_documents := []; bm25_repo_map := [] |}.

(** What [get_all_repositories] handed over: a dict of id to data, or a
    list of ids. *)
Inductive Stored : Type :=
| StoredDict (d : list (Z * Repository))
| StoredList (l : list Z).

Definition stored_is_empty (s : Stored) : bool :=
  match s with
  | StoredDict [] | StoredList [] => true
  | _ => false
  end.

Fixpoint lookup_doc (idx : nat) (m : list (nat * Z)) : option Z :=
  match m with
  | [] => None
  | (k, v) :: m' => if (idx =? k)%nat then Some v else lookup_doc idx m'
  end.

(** The local [documents] and [repo_map] of the index build. *)
Definition Corpus : Type := (list (list string) * list (nat * Z))%type.

(** [doc_id = len(documents); documents.append(tokens);
    repo_map[doc_id] = repo_id] *)
Definition add_document (tokens : list string) (repo_id : Z) (c : Corpus)
  : Corpus :=
  let (documents, repo_map) := c in
  ((documents ++ [tokens])%list,
   (repo_map ++ [(List.length documents, repo_id)])%list).

Section Engine.

(** The collaborators: the store's [get_repository] and
    [get_repository_readme] ([None] for a missing one), whether
    [BM25Okapi(documents)] returns an index or raises, the scores of
    [BM25Okapi(documents).get_scores(tokens)], [np.argsort], and the
    embedding manager's [search]. *)
Variable get_repository : Z -> option Repository.
Variable get_repository_readme : Z -> option string.
Variable bm25_okapi : list (list string) -> bool.
Variable get_scores : list (list string) -> list string -> list Q.
Variable argsort : list Q -> list nat.
Variable embedding_search : string -> Z -> list SearchResult.

(** Lines 70-81 (and 103-114): the README document of a repository. *)
Definition add_readme (repo_id : Z) (c : Corpus) : Corpus :=
  match get_repository_readme repo_id with
  | Some readme =>
      if is_empty readme then c
      else add_document (split_ws (_preprocess_text readme)) repo_id c
  | None => c
  end.

(** Lines 83-93 (and 116-126): the description document; [None] is the
    [AttributeError] of [.lower()] on a truthy value that is no string. *)
Definition add_description (repo_id : Z) (repo_data : Repository) (c : Corpus)
  : option Corpus :=
  match assoc "description" (attrs repo_data) with
  | None => Some c
  | Some description =>
      if truthy description
      then match description with
           | VStr d => Some (add_document (split_ws (_preprocess_text d))
                                          repo_id c)
           | _ => None
           end
      else Some c
  end.

(** The loop of lines 69-93 over [repositories.items()]. *)
Fixpoint index_dict (repositories : list (Z * Repository)) (c : Corpus)
  : option Corpus :=
  match repositories with
  | [] => Some c
  | (repo_id, repo_data) :: rest =>
      match add_description repo_id repo_data (add_readme repo_id c) with
      | None => None
      | Some c' => index_dict rest c'
      end
  end.

(** The loop of lines 96-126 over a list of ids. *)
Fixpoint index_list (repo_ids : list Z) (c : Corpus) : option Corpus :=
  match repo_ids with
  | [] => Some c
  | repo_id :: rest =>
      match get_repository repo_id with
      | None => index_list rest c
      | Some repo_data =>
          match add_description repo_id repo_data (add_readme repo_id c) with
          | None => None
          | Some c' => index_list rest c'
          end
      end
  end.

(** The engine's BM25 fields after [_initialize_bm25_index]; an exception
    inside the [try] leaves them as they were. *)
Definition _initialize_bm25_index (self : Bm25) (repo_ids : Stored) : Bm25 :=
  if stored_is_empty repo_ids then self
  else
    match match repo_ids with
          | StoredDict repositories => index_dict repositories ([], [])
          | StoredList ids => index_list ids ([], [])
          end with
    | None => self
    | Some (documents, repo_map) =>
        match documents with
        | [] => self
        | _ :: _ =>
            if bm25_okapi documents
            then {| bm25_index := true;
                    bm25_documents := documents;
                    bm25_repo_map := repo_map |}
            else self
        end
    end.

(** The BM25 fields at the end of [__init__] (lines 38-45). *)
Definition __init__ (hybrid_enabled : bool) (repo_ids : Stored) : Bm25 :=
  if hybrid_enabled then _initialize_bm25_index no_index repo_ids
  else no_index.

Definition keyword_result (repo_id : Z) (idx : nat) (score : Q)
           (tokens : list string) (repo_data : Repository) : SearchResult :=
  {| id := "bm25-" ++ str_of_Z repo_id ++ "-" ++ str_of_nat idx;
     score := score;
     text := join " " (firstn 50 tokens) ++ "...";
     repository := repo_data;
     chunk_type := "bm25";
     neural_score := None;
     keyword_score := None |}.

(** The loop of lines 232-251 over [top_indices]; [None] is an
    [IndexError]. *)
Fixpoint keyword_loop (self : Bm25) (min_score : Q) (scores : list Q)
         (top_indices : list nat) : option (list SearchResult) :=
  match top_indices with
  | [] => Some []
  | idx :: rest =>
      match nth_error scores idx with
      | None => None
      | Some score =>
          if Qltb score min_score then keyword_loop self min_score scores rest
          else
            match lookup_doc idx (bm25_repo_map self) with
            | None => keyword_loop self min_score scores rest
            | Some repo_id =>
                if Z.eqb repo_id 0
                then keyword_loop self min_score scores rest
                else
                  match get_repository repo_id with
                  | None => keyword_loop self min_score scores rest
                  | Some repo_data =>
                      match nth_error (bm25_documents self) idx with
                      | None => None
                      | Some tokens =>
                          match keyword_loop self min_score scores rest with
                          | None => None
                          | Some results =>
                              Some (keyword_result repo_id idx score tokens
                                                   repo_data :: results)
                          end
                      end
                  end
            end
      end
  end.

(** Any exception inside the [try] gives the empty list; without an index
    [get_scores] is called on [None].  The [limit] is any integer. *)
Definition _keyword_search (self : Bm25) (eng : Engine) (query : string)
           (limit : Z) : list SearchResult :=
  if bm25_index self then
    let query_tokens := split_ws (_preprocess_text query) in
    let scores := get_scores (bm25_documents self) query_tokens in
    let top_indices := py_take limit (rev (argsort scores)) in
    match keyword_loop self (min_score eng) scores top_indices with
    | Some results => results
    | None => []
    end
  else [].

(** The remaining fields of [self] that [search] reads. *)
Record SearchConfig : Type := {
  engine : Engine;
  hybrid_enabled : bool;
  max_results : Z
}.

(** [search]; the [limit] is any integer, as the command line hands it
    over, and the result [None] is a [TypeError] that [_apply_filters] lets
    through. *)
Definition search (cfg : SearchConfig) (self : Bm25) (query : string)
           (filters : list (string * FilterValue)) (limit : option Z)
  : option (list SearchResult) :=
  let limit := match limit with None => max_results cfg | Some l => l end in
  let neural_results := embedding_search query (limit * 2)%Z in
  let keyword_results :=
    if hybrid_enabled cfg && bm25_index self
    then _keyword_search self (engine cfg) query (limit * 2)%Z
    else [] in
  let merged_results :=
    if hybrid_enabled cfg && nonempty keyword_results
    then _merge_results (engine cfg) neural_results keyword_results
    else neural_results in
  match filters with
  | [] => Some (py_take limit merged_results)
  | _ :: _ =>
      match _apply_filters merged_results filters with
      | None => None
      | Some filtered => Some (py_take limit filtered)
      end
  end.

(** The filters [search_command] prepares (lines 48-53). *)
Definition search_command_filters (min_stars : option Z)
           (language : option string) : list (string * FilterValue) :=
  (match min_stars with
   | Some m => [("stargazers_count", FDict [("min", VInt m)])]
   | None => []
   end
   ++ match language with
      | Some l => [("language", FLit (VStr l))]
      | None => []
      end)%list.

(** The [results] that [search_command] of [src/cli/commands.py] hands to
    the display (lines 41-57): the weights given on the command line
    replace the engine's, then [search] runs with the prepared filters. *)
Definition search_command (cfg : SearchConfig) (self : Bm25) (query : string)
           (neural : option Q) (keyword : option Q) (min_stars : option Z)
           (language : option string) (limit : option Z)
  : option (list SearchResult) :=
  let eng := engine cfg in
  let eng :=
    match neural with
    | Some w => {| neural_weight := w;
                   keyword_weight := keyword_weight eng;
                   min_score := min_score eng |}
    | None => eng
    end in
  let eng :=
    match keyword with
    | Some w => {| neural_weight := neural_weight eng;
                   keyword_weight := w;
                   min_score := min_score eng |}
    | None => eng
    end in
  search {| engine := eng;
            hybrid_enabled := hybrid_enabled cfg;
            max_results := max_results cfg |}
         self query (search_command_filters min_stars language) limit.

End Engine.

(** *** Vocabulary of the stated properties *)

Fixpoint all_chars (p : ascii -> bool) (s : string) : bool :=
  match s with
  | EmptyString => true
  | String c s' => p c && all_chars p s'
  end.

(** A character of a token: a word character that [lower] leaves alone. *)
Definition token_char (c : ascii) : bool :=
  is_word_char c && Ascii.eqb (py_lower c) c.

(** A token of the lexical index: at least one character, all of them
    token characters. *)
Definition is_token (w : string) : bool :=
  negb (is_empty w) && all_chars token_char w.

(** What the first two steps of [_preprocess_text] make of a character. *)
Definition normalise_char (c : ascii) : ascii := blank_special (py_lower c).

(** The lexical index is consistent: document [i] is mapped under key
    [i], every token of every document is a token, and the index object is
    there only together with documents. *)
Definition consistent (self : Bm25) : Prop :=
  map fst (bm25_repo_map self) = seq 0 (List.length (bm25_documents self))
  /\ Forall (Forall (fun w => is_token w = true)) (bm25_documents self)
  /\ (bm25_index self = true -> bm25_documents self <> []).

(** The local [documents] and [repo_map] during the build over a store
    with the ids [ids]: consistent, mapped to ids of the store, and at most
    [bound] documents. *)
Definition corpus_ok (ids : list Z) (bound : nat) (c : Corpus) : Prop :=
  map fst (snd c) = seq 0 (List.length (fst c))
  /\ Forall (Forall (fun w => is_token w = true)) (fst c)
  /\ Forall (fun kv => In (snd kv) ids) (snd c)
  /\ List.length (fst c) <= bound.

(** The ids a store hands over. *)
Definition stored_ids (s : Stored) : list Z :=
  match s with
  | StoredDict d => map fst d
  | StoredList l => l
  end.

(** The value of a stored field is a number. *)
Definition numeric (field : string) (repo : Repository) : bool :=
  match repo_get field repo with
  | Some v => match as_number v with Some _ => true | None => false end
  | None => true
  end.

(** A repository has at least [m] stars, or no star count at all. *)
Definition enough_stars (m : Z) (repo : Repository) : bool :=
  match repo_get "stargazers_count" repo with
  | Some v =>
      match as_number v with
      | Some n => Z.leb m n
      | None => false
      end
  | None => true
  end.

(** A repository is written in [l], or has no language field at all. *)
Definition in_language (l : string) (repo : Repository) : bool :=
  match repo_get "language" repo with
  | Some (VStr s) => String.eqb s l
  | Some _ => false
  | None => true
  end.

(** What the command line asks of a repository. *)
Definition cli_keeps (min_stars : option Z) (language : option string)
           (repo : Repository) : bool :=
  match min_stars with Some m => enough_stars m repo | None => true end
  && match language with Some l => in_language l repo | None => true end.

(** [include] ends as [True]. *)
Definition passes (filters : list (string * FilterValue)) (r : SearchResult)
  : bool :=
  match include_result (repository r) filters with
  | Some true => true
  | _ => false
  end.

(** No comparison of the filters raises on the result. *)
Definition comparable (filters : list (string * FilterValue))
           (r : SearchResult) : bool :=
  match include_result (repository r) filters with
  | Some _ => true
  | None => false
  end.

(** The limit [search] works with. *)
Definition limit_of (cfg : SearchConfig) (limit : option Z) : Z :=
  match limit with
  | None => max_results cfg
  | Some l => l
  end.

(** Results in descending order of score. *)
Definition descending (rs : list SearchResult) : Prop :=
  StronglySorted (fun a b => (score b <= score a)%Q) rs.

End SearchPipeline.


(* ------------------------------------------------------------------ *)
(** ** Concrete inputs used by the examples *)

Module ChunkFixtures.
Import PyStr ContentProcessor.

Definition small_cfg : Config :=
  {| max_readme_size := 1000; chunk_strategy := "sliding";
     max_chunk_size := 4; chunk_overlap := 2 |}.

Definition with_description : Repo :=
  {| r_id := 7; r_full_name := "octo/cat"; r_description := Some "A cat" |}.

Definition plain_cfg : Config :=
  {| max_readme_size := 1000; chunk_strategy := "hybrid";
     max_chunk_size := 4; chunk_overlap := 2 |}.

Definition plain_repo : Repo :=
  {| r_id := 42; r_full_name := "octo/cat"; r_description := None |}.

(** A repository whose name holds a blank line, and a configuration with
    windows of one word. *)
Definition blank_line_repo : Repo :=
  {| r_id := 1; r_full_name := "a" ++ NL2 ++ "b c"; r_description := None |}.

Definition one_word_cfg : Config :=
  {| max_readme_size := 1000; chunk_strategy := "hybrid";
     max_chunk_size := 1; chunk_overlap := 0 |}.

Definition literal : string := "Large Test Repository".

(** A one-section document that names the literal, and the same document
    with the literal cut out. *)
Definition notes_before : string := "# Notes" ++ NL ++ "about the ".
Definition notes_after : string := " fixture".
Definition notes_with : string := notes_before ++ literal ++ notes_after.
Definition notes_without : string := notes_before ++ notes_after.

Definition hundred_cfg : Config :=
  {| max_readme_size := 1000; chunk_strategy := "hybrid";
     max_chunk_size := 100; chunk_overlap := 20 |}.

Definition notes_section : Chunk :=
  {| id := "42-0"; repo_id := 42; repo_name := "octo/cat";
     content := readme_prefix plain_repo;
     chunk_type := readme_section;
     section_index := Some 0; window_index := None |}.

(** [n] times the word [w]. *)
Definition filler (n : nat) (w : string) : string := join " " (repeat w n).

(** A README text with the headers Install and Usage, sixty words under
    each. *)
Definition install_usage : string :=
  "# Install" ++ NL ++ filler 60 "alpha" ++ NL
  ++ "# Usage" ++ NL ++ filler 60 "beta".

(** *** The data of [tests/test_content_processor.py] *)

(** [SAMPLE_REPO] of [tests/test_content_processor.py]. *)
Definition SAMPLE_REPO : Repo :=
  {| r_id := 12345; r_full_name := "test-user/test-repo";
     r_description := Some "A test repository" |}.

(** The fixture configuration of the tests, sizes 100 and 20; its
    [max_readme_size], which the chunking functions do not read, is cut
    down. *)
Definition test_cfg : Config :=
  {| max_readme_size := 100; chunk_strategy := "hybrid";
     max_chunk_size := 100; chunk_overlap := 20 |}.

Definition SAMPLE_README_NO_HEADERS : string :=
  NL ++ "This is a test repository README without any headers." ++ NL
  ++ "It just contains plain text content." ++ NL
  ++ "This is used to test the sliding window chunking strategy." ++ NL.

Fixpoint times (n : nat) (s : string) : string :=
  match n with
  | O => EmptyString
  | S n' => s ++ times n' s
  end.

Definition SAMPLE_README_LARGE : string :=
  NL ++ "# Large Test Repository" ++ NL2
  ++ "This is a large test repository README." ++ NL2
  ++ "## Section 1" ++ NL2
  ++ times 100 "This is a very long section with repeated text. " ++ NL2
  ++ "## Section 2" ++ NL2
  ++ "This is the second section." ++ NL.

(** The configuration and text of [test_sliding_window_chunking_overlap]. *)
Definition overlap_cfg : Config :=
  {| max_readme_size := 100; chunk_strategy := "hybrid";
     max_chunk_size := 10; chunk_overlap := 5 |}.

Definition fifteen_words : string :=
  "word1 word2 word3 word4 word5 word6 word7 word8 word9 word10 word11 word12 word13 word14 word15".

End ChunkFixtures.

Module SearchFixtures.
Import PyStr SearchEngine.
Local Open Scope Q_scope.

Definition cat : Repository :=
  {| repository_id := 1; attrs := [("stargazers_count", VInt 50)] |}.

Definition hit (repo : Repository) (s : Q) (t : string) : SearchResult :=
  {| id := t; score := s; text := t; repository := repo;
     chunk_type := "readme_section"; neural_score := None;
     keyword_score := None |}.

Definition default_engine : Engine :=
  {| neural_weight := 7 # 10; keyword_weight := 3 # 10; min_score := 2 # 10 |}.

Definition cat_merged : SearchResult :=
  {| id := "merged-1"; score := ((7 # 10) * (9 # 10) + (3 # 10) * (8 / 10));
     text := "n"; repository := cat; chunk_type := "readme_section";
     neural_score := Some (9 # 10); keyword_score := Some (8 / 10) |}.

Definition open_engine : Engine :=
  {| neural_weight := 7 # 10; keyword_weight := 3 # 10; min_score := 0 |}.

Definition only_stars : SearchResult := hit cat 1 "a".

(** A result whose repository is written in Rust, and a filter on the
    language. *)
Definition rust_hit : SearchResult :=
  hit {| repository_id := 3;
         attrs := [("stargazers_count", VInt 70); ("language", VStr "Rust")] |}
      1 "r".

Definition python_only : list (string * FilterValue) :=
  [("language", FLit (VStr "Python"))].

(** *** The data of [tests/test_search_engine.py] *)

Definition SAMPLE_REPO : Repository :=
  {| repository_id := 12345;
     attrs := [("name", VStr "test-repo");
               ("full_name", VStr "test-user/test-repo");
               ("description", VStr "A test repository");
               ("language", VStr "Python");
               ("stargazers_count", VInt 100);
               ("forks_count", VInt 20);
               ("html_url", VStr "https://github.com/test-user/test-repo")] |}.

Definition SAMPLE_NEURAL_RESULTS : list SearchResult :=
  [{| id := "12345-0"; score := 9 # 10;
      text := "Repository: test-user/test-repo" ++ ContentProcessor.NL2
              ++ "# Test Repository";
      repository := SAMPLE_REPO; chunk_type := "readme_section";
      neural_score := None; keyword_score := None |};
   {| id := "12345-1"; score := 8 # 10;
      text := "Repository: test-user/test-repo" ++ ContentProcessor.NL2
              ++ "This is a test repository for unit tests.";
      repository := SAMPLE_REPO; chunk_type := "readme_section";
      neural_score := None; keyword_score := None |}].

Definition SAMPLE_KEYWORD_RESULTS : list SearchResult :=
  [{| id := "bm25-12345-0"; score := 5;
      text := "test repository for unit tests";
      repository := SAMPLE_REPO; chunk_type := "bm25";
      neural_score := None; keyword_score := None |}].

End SearchFixtures.

Module PipelineFixtures.
Import PyStr SearchEngine SearchPipeline SearchFixtures.
Local Open Scope Q_scope.

(** What the merger makes of the keyword hit [hit cat 8 "k"] alone. *)
Definition cat_keyword_only : SearchResult :=
  {| id := "merged-1"; score := ((7 # 10) * 0 + (3 # 10) * (8 / 10));
     text := "k"; repository := cat; chunk_type := "readme_section";
     neural_score := Some 0; keyword_score := Some (8 / 10) |}.

Definition few_stars : SearchResult :=
  hit {| repository_id := 2; attrs := [("stargazers_count", VInt 3)] |} 1 "b".

Definition dog : Repository :=
  {| repository_id := 2;
     attrs := [("description", VStr "A Dog, barking!");
               ("stargazers_count", VInt 5);
               ("language", VStr "Python")] |}.

(** A store of two repositories; only the first has a README. *)
Definition store : Stored := StoredList [1%Z; 2%Z].

Definition store_repository (k : Z) : option Repository :=
  if Z.eqb k 1 then Some cat
  else if Z.eqb k 2 then Some dog
  else None.

Definition store_readme (k : Z) : option string :=
  if Z.eqb k 1 then Some "Cats & more CATS" else None.

(** Stand-ins for the libraries: an index is always built, a document
    scores the number of its tokens that the query names, and the indices
    are sorted by ascending score. *)
Definition always_built (documents : list (list string)) : bool := true.

Definition count_scores (documents : list (list string))
           (query_tokens : list string) : list Q :=
  map (fun d =>
         inject_Z (Z.of_nat
           (List.length
              (filter (fun w => existsb (String.eqb w) query_tokens) d))))
      documents.

Fixpoint insert_asc (scores : list Q) (i : nat) (l : list nat) : list nat :=
  match l with
  | [] => [i]
  | j :: l' =>
      if Qltb (nth i scores 0) (nth j scores 0) then i :: l
      else j :: insert_asc scores i l'
  end.

Definition argsort_asc (scores : list Q) : list nat :=
  fold_right (insert_asc scores) [] (seq 0 (List.length scores)).

Definition one_neural_hit (query : string) (limit : Z)
  : list SearchResult :=
  py_take limit [hit cat (9 # 10) "n"].

Definition hybrid_config : SearchConfig :=
  {| engine := default_engine; hybrid_enabled := true; max_results := 20 |}.

Definition neural_config : SearchConfig :=
  {| engine := default_engine; hybrid_enabled := false; max_results := 20 |}.

(** What [search] returns for the query ["cats"] over the store. *)
Definition cat_hybrid : SearchResult :=
  {| id := "merged-1"; score := ((7 # 10) * (9 # 10) + (3 # 10) * (2 / 10));
     text := "n"; repository := cat; chunk_type := "readme_section";
     neural_score := Some (9 # 10); keyword_score := Some (2 / 10) |}.

Definition at_least_ten_stars : list (string * FilterValue) :=
  [("stargazers_count", FDict [("min", VInt 10)])].

(** The index [__init__] builds over the store. *)
Definition store_index : Bm25 :=
  __init__ store_repository store_readme always_built true store.

End PipelineFixtures.


(* ------------------------------------------------------------------ *)
(** ** Properties *)

Module StrFacts.

Lemma append_assoc (a b c : string) : (a ++ b) ++ c = a ++ b ++ c.
Proof. induction a; simpl; congruence. Qed.

Lemma append_empty_r (s : string) : s ++ EmptyString = s.
Proof. induction s; simpl; congruence. Qed.

Lemma prefix_append (p t : string) : String.prefix p (p ++ t) = true.
Proof.
  induction p as [|c p IH]; simpl.
  - now destruct t.
  - destruct (ascii_dec c c); [assumption | contradiction].
Qed.

End StrFacts.

Module WindowFacts.
Import PyStr ContentProcessor.
Local Open Scope nat_scope.

Section Prefix.
Context {A : Type} (keep : nat -> bool) (f : nat -> A).
Hypothesis keep_down : forall i j, i <= j -> keep j = true -> keep i = true.

(** A filter that can only switch off keeps an initial segment. *)
Lemma kept_is_prefix (n : nat) :
  exists m, m <= n
    /\ flat_map (fun j => if keep j then [f j] else []) (seq 0 n)
       = map f (seq 0 m)
    /\ (forall j, j < m -> keep j = true)
    /\ (forall j, m <= j -> j < n -> keep j = false).
Proof.
  induction n as [|n (m & Hmn & Heq & Hin & Hout)].
  - exists 0. repeat split; auto; intros; lia.
  - rewrite seq_S, flat_map_app, Heq. simpl.
    destruct (keep n) eqn:Kn.
    + assert (m = n) as ->.
      { destruct (Nat.eq_dec m n) as [|Hne]; trivial.
        assert (keep m = false) as Hm by (apply Hout; lia).
        rewrite (keep_down m n) in Hm by (trivial; lia). discriminate. }
      exists (S n). rewrite seq_S, map_app. simpl.
      repeat split; auto; intros.
      * apply (keep_down j n); trivial; lia.
      * lia.
    + exists m. rewrite app_nil_r.
      repeat split; auto; intros.
      destruct (Nat.eq_dec j n) as [->|]; trivial. apply Hout; lia.
Qed.
End Prefix.

Lemma flat_map_map {A B C} (g : A -> B) (f : B -> list C) (l : list A) :
  flat_map f (map g l) = flat_map (fun a => f (g a)) l.
Proof. induction l; simpl; congruence. Qed.

Lemma length_slice {A} (xs : list A) (i j : nat) :
  List.length (slice xs i j) = Nat.min (j - i) (List.length xs - i).
Proof. unfold slice. now rewrite length_firstn, length_skipn. Qed.

(** With the overlap below the window size, the emitted windows are the
    first [m] ones, for the [m] at which the text runs out. *)
Lemma windows_prefix (cfg : Config) (words : list string) :
  chunk_overlap cfg < max_chunk_size cfg ->
  let step := max_chunk_size cfg - chunk_overlap cfg in
  exists m,
    windows cfg words = Some (map (window_at cfg words) (seq 0 m))
    /\ (forall j, j < m -> j * step < List.length words)
    /\ (forall j, j < m -> j * step + chunk_overlap cfg <= List.length words)
    /\ (0 < List.length words ->
        List.length words < m * step + chunk_overlap cfg
        \/ List.length words <= m * step).
Proof.
  intros Hlt step.
  set (size := max_chunk_size cfg) in *.
  set (k := chunk_overlap cfg) in *.
  set (len := List.length words).
  set (n := (len + step - 1) / step).
  set (keep := fun j => negb (Nat.min size (len - j * step) <? k)).
  assert (Hstep : 0 < step) by (unfold step; lia).
  assert (Hn : forall j, j < n <-> j * step < len).
  { intro j. unfold n. split; intro H.
    - assert (j * step <= (len + step - 1) / step * step - step) by nia.
      pose proof (Nat.Div0.mul_div_le (len + step - 1) step). nia.
    - apply (Nat.div_le_lower_bound _ _ (S j)); nia. }
  assert (Hdown : forall i j, i <= j -> keep j = true -> keep i = true).
  { intros i j Hij. unfold keep. rewrite !negb_true_iff, !Nat.ltb_ge.
    assert (i * step <= j * step) by nia. lia. }
  destruct (kept_is_prefix keep (window_at cfg words) Hdown n)
    as (m & Hmn & Heq & Hin & Hout).
  exists m. split; [|split; [|split]].
  - unfold windows, range_by. fold size k step len n.
    apply Nat.ltb_lt in Hlt. rewrite Hlt. f_equal.
    rewrite flat_map_map, <- Heq. apply flat_map_ext. intro j.
    rewrite length_slice. unfold keep, window_at. fold size k step len.
    replace (j * step + size - j * step) with size by lia.
    rewrite Nat.div_mul by lia.
    now destruct (Nat.min size (len - j * step) <? k).
  - intros j Hj. apply Hn. lia.
  - intros j Hj. specialize (Hin j Hj). unfold keep in Hin.
    rewrite negb_true_iff, Nat.ltb_ge in Hin.
    assert (j * step < len) by (apply Hn; lia). lia.
  - intros Hpos. fold len in Hpos |- *.
    destruct (Nat.lt_ge_cases m n) as [Hm|Hm].
    + left. specialize (Hout m (le_n _) Hm). unfold keep in Hout.
      rewrite negb_false_iff, Nat.ltb_lt in Hout.
      apply Hn in Hm. lia.
    + right. destruct (Nat.le_gt_cases len (m * step)) as [|Hc]; trivial.
      apply Hn in Hc. lia.
Qed.

Lemma nth_error_windows (cfg : Config) (words : list string) (m i : nat)
      (w : nat * list string) :
  nth_error (map (window_at cfg words) (seq 0 m)) i = Some w ->
  i < m /\ w = window_at cfg words i.
Proof.
  rewrite nth_error_map, nth_error_seq.
  destruct (i <? m) eqn:E; simpl; [|discriminate].
  apply Nat.ltb_lt in E. intros [= <-]. auto.
Qed.

Lemma firstn_plus {A} (a b : nat) (l : list A) :
  firstn (a + b) l = (firstn a l ++ firstn b (skipn a l))%list.
Proof.
  revert l. induction a as [|a IH]; intros [|x l]; simpl; trivial.
  - now rewrite firstn_nil.
  - now rewrite IH.
Qed.

(** The first [m + 1] windows, glued, are the first
    [m * step + size] words. *)
Lemma reassemble_windows (cfg : Config) (words : list string) (m : nat) :
  chunk_overlap cfg < max_chunk_size cfg ->
  reassemble (chunk_overlap cfg)
    (window_words (map (window_at cfg words) (seq 0 (S m))))
  = firstn (m * (max_chunk_size cfg - chunk_overlap cfg) + max_chunk_size cfg)
           words.
Proof.
  intro Hlt. unfold window_words. rewrite map_map.
  change (seq 0 (S m)) with (0 :: seq 1 m). cbn [map reassemble].
  set (size := max_chunk_size cfg) in *. set (k := chunk_overlap cfg) in *.
  induction m as [|m IH].
  - unfold window_at, slice. simpl. fold size.
    now rewrite app_nil_r, Nat.sub_0_r.
  - rewrite seq_S, map_app, flat_map_app, app_assoc, IH.
    cbn [map flat_map]. rewrite app_nil_r.
    unfold window_at, slice. cbn [snd]. fold size k.
    rewrite skipn_firstn_comm, skipn_skipn.
    replace ((1 + m) * (size - k) + size - (1 + m) * (size - k) - k)
      with (size - k) by lia.
    replace (k + (1 + m) * (size - k)) with (m * (size - k) + size) by lia.
    rewrite <- firstn_plus. f_equal. lia.
Qed.

Lemma windows_total (cfg : Config) (words : list string) :
  chunk_overlap cfg <> max_chunk_size cfg ->
  exists ws, windows cfg words = Some ws.
Proof.
  intro H. unfold windows, range_by.
  destruct (chunk_overlap cfg <? max_chunk_size cfg); [eauto|].
  destruct (chunk_overlap cfg =? max_chunk_size cfg) eqn:E; [|eauto].
  apply Nat.eqb_eq in E. contradiction.
Qed.

(** Consecutive windows share [chunk_overlap] words when the later one is
    long enough to be emitted. *)
Lemma window_overlap (cfg : Config) (words : list string) (j : nat) :
  chunk_overlap cfg < max_chunk_size cfg ->
  S j * (max_chunk_size cfg - chunk_overlap cfg) + chunk_overlap cfg
  <= List.length words ->
  last_n (chunk_overlap cfg) (snd (window_at cfg words j))
  = firstn (chunk_overlap cfg) (snd (window_at cfg words (S j))).
Proof.
  intros Hlt Hkeep.
  unfold last_n, window_at. cbn [snd]. rewrite length_slice. unfold slice.
  set (size := max_chunk_size cfg) in *. set (k := chunk_overlap cfg) in *.
  rewrite skipn_firstn_comm, skipn_skipn, firstn_firstn.
  f_equal; [|f_equal]; lia.
Qed.

(** Every emitted window is a slice of the words. *)
Lemma windows_are_slices (cfg : Config) (words : list string)
      (ws : list (nat * list string)) :
  windows cfg words = Some ws ->
  Forall (fun w => exists i j, snd w = slice words i j) ws.
Proof.
  unfold windows. destruct (range_by _ _ _) as [starts|]; [|discriminate].
  intros [= <-]. apply Forall_forall. intros w Hw.
  apply in_flat_map in Hw as (i & _ & Hw).
  destruct (_ <? _); [contradiction|]. destruct Hw as [<-|[]]. cbn. eauto.
Qed.

(** With enough words for one window, or none at all, the emitted
    windows glue back to the words. *)
Lemma windows_glue (cfg : Config) (words : list string)
      (ws : list (nat * list string)) :
  chunk_overlap cfg < max_chunk_size cfg ->
  words = [] \/ chunk_overlap cfg <= List.length words ->
  windows cfg words = Some ws ->
  reassemble (chunk_overlap cfg) (window_words ws) = words.
Proof.
  intros Hlt Hlen Hws.
  destruct (windows_prefix cfg words Hlt) as (m & Hw & Hstart & Hkeep & Hend).
  rewrite Hw in Hws. injection Hws as <-.
  destruct m as [|m].
  - destruct Hlen as [->|Hlen]; trivial.
    destruct words as [|w words]; trivial.
    simpl in Hend, Hlen. lia.
  - rewrite reassemble_windows by trivial. apply firstn_all2.
    destruct words as [|w words]; [apply Nat.le_0_l|].
    specialize (Hend ltac:(simpl; lia)).
    lia.
Qed.

End WindowFacts.

Module SlidingProps.
Import PyStr ContentProcessor ChunkFixtures WindowFacts.
Local Open Scope nat_scope.

(** C6, as stated, fails: a text shorter than the overlap loses all its
    words, its only window being dropped. *)
Lemma sliding_coverage_counterexample :
  ~ (forall (cfg : Config) (words : list string),
        0 < chunk_overlap cfg < max_chunk_size cfg ->
        exists ws, windows cfg words = Some ws
                   /\ reassemble (chunk_overlap cfg) (window_words ws) = words).
Proof.
  intro H. destruct (H small_cfg ["a"]) as (ws & Hw & Hr).
  - simpl. lia.
  - vm_compute in Hw. injection Hw as <-. discriminate Hr.
Qed.

(** C6, amended: for a text of at least [chunk_overlap] words (or none),
    the emitted windows, the first whole and each later one without its
    first [chunk_overlap] words, glue back to the word sequence.  The
    chunks of [_sliding_window_chunking] are [window_chunk] of these
    windows, in order. *)
Theorem sliding_coverage (cfg : Config) (words : list string) :
  0 < chunk_overlap cfg < max_chunk_size cfg ->
  words = [] \/ chunk_overlap cfg <= List.length words ->
  exists ws, windows cfg words = Some ws
             /\ reassemble (chunk_overlap cfg) (window_words ws) = words.
Proof.
  intros [Hpos Hlt] Hlen.
  destruct (windows_total cfg words) as [ws Hw]; [lia|].
  exists ws. split; [exact Hw|].
  now apply windows_glue with (cfg := cfg).
Qed.

Lemma sliding_coverage_witness :
  exists ws, windows small_cfg ["a"; "b"; "c"; "d"; "e"] = Some ws
             /\ reassemble 2 (window_words ws) = ["a"; "b"; "c"; "d"; "e"].
Proof.
  apply (sliding_coverage small_cfg ["a"; "b"; "c"; "d"; "e"]).
  - simpl. lia.
  - right. simpl. lia.
Defined.

(** C10: when windows [i] and [i + 1] are both emitted, the last
    [chunk_overlap] words of the first are the first [chunk_overlap] words
    of the second.  The chunks of [_sliding_window_chunking] are
    [window_chunk] of these windows, in order. *)
Theorem sliding_overlap_invariant (cfg : Config) (words : list string)
        (ws : list (nat * list string)) (i : nat) (w1 w2 : nat * list string) :
  0 < chunk_overlap cfg < max_chunk_size cfg ->
  windows cfg words = Some ws ->
  nth_error ws i = Some w1 ->
  nth_error ws (S i) = Some w2 ->
  last_n (chunk_overlap cfg) (snd w1) = firstn (chunk_overlap cfg) (snd w2).
Proof.
  intros [Hpos Hlt] Hw H1 H2.
  destruct (windows_prefix cfg words Hlt) as (m & Hw' & _ & Hkeep & _).
  rewrite Hw' in Hw. injection Hw as <-.
  apply nth_error_windows in H1 as [_ ->].
  apply nth_error_windows in H2 as [Hi ->].
  apply window_overlap; auto.
Qed.

Lemma sliding_overlap_invariant_witness :
  last_n 2 ["a"; "b"; "c"; "d"] = firstn 2 ["c"; "d"; "e"; "f"].
Proof.
  apply (sliding_overlap_invariant small_cfg ["a"; "b"; "c"; "d"; "e"; "f"]
           [(0, ["a"; "b"; "c"; "d"]); (1, ["c"; "d"; "e"; "f"]); (2, ["e"; "f"])]
           0 (0, ["a"; "b"; "c"; "d"]) (1, ["c"; "d"; "e"; "f"])).
  - simpl. lia.
  - reflexivity.
  - reflexivity.
  - reflexivity.
Defined.

End SlidingProps.

Module ReFacts.
Import PyStr Re ContentProcessor.
Local Open Scope nat_scope.

Lemma hash_not_space (c : ascii) : is_hash c = true -> is_space c = false.
Proof. unfold is_hash. intro H. apply Ascii.eqb_eq in H. now subst. Qed.

(** A run of [#] that is followed by [\s+] ends right before a whitespace
    character: giving back a [#] never helps. *)
Lemma hashes_then_space (s : string) (p : nat) (g : option string) (k : K)
      (r : mstate) :
  star_greedy is_hash s p g (fun st => run (PlusGreedy is_space) st k) = Some r ->
  match drop_hashes s with
  | String d _ => is_space d = true
  | EmptyString => False
  end.
Proof.
  revert p r. induction s as [|x s IH]; intros p r; simpl.
  - discriminate.
  - destruct (is_hash x) eqn:Hx.
    + destruct (star_greedy is_hash s (S p) g _) eqn:E.
      * intros _. exact (IH _ _ E).
      * rewrite (hash_not_space x Hx). discriminate.
    + destruct (is_space x); [trivial | discriminate].
Qed.

Lemma header_needs_start (rest3 : regex) (st : mstate) (k : K) (r : mstate) :
  run (Seq (PlusGreedy is_hash) (Seq (PlusGreedy is_space) rest3)) st k = Some r ->
  header_start (rest st) = true.
Proof.
  cbn [run]. destruct (rest st) as [|x s]; [discriminate|].
  unfold header_start. destruct (is_hash x); [|discriminate].
  intro H. apply hashes_then_space in H.
  destruct (drop_hashes s); [contradiction | assumption].
Qed.

(** The two ways [(^|\n)] lets the rest of a pattern start. *)
Lemma group_start (tail : regex) (p : nat) (s : string) (k : K) (r : mstate) :
  run (Seq (Group (Alt Bol (Cls is_nl))) tail) (MState p s None) k = Some r ->
  (p = 0 /\ exists g, run tail (MState p s g) k = Some r)
  \/ exists s' g, s = String nl s' /\ run tail (MState (S p) s' g) k = Some r.
Proof.
  cbn [run pos rest grp].
  destruct (p =? 0) eqn:Hp.
  - destruct (run tail _ k) eqn:E1.
    + intros [= <-]. left. split; [now apply Nat.eqb_eq | eauto].
    + destruct s as [|x s]; [discriminate|].
      destruct (is_nl x) eqn:Hx; [|discriminate].
      apply Ascii.eqb_eq in Hx. subst x. intro E. right. eauto.
  - destruct s as [|x s]; [discriminate|].
    destruct (is_nl x) eqn:Hx; [|discriminate].
    apply Ascii.eqb_eq in Hx. subst x. intro E. right. eauto.
Qed.

(** Where [header_pattern] matches there is a header line. *)
Lemma match_at_header (p : nat) (s : string) (res : string * nat) :
  match_at header_pattern p s = Some res ->
  (p = 0 /\ header_start s = true)
  \/ exists s', s = String nl s' /\ header_start s' = true.
Proof.
  unfold match_at, header_pattern.
  destruct (run _ _ _) as [st|] eqn:E; [|discriminate]. intros _.
  apply group_start in E as [(Hp & g & E) | (s' & g & Hs & E)].
  - left. split; trivial. now apply header_needs_start in E.
  - right. exists s'. split; trivial. now apply header_needs_start in E.
Qed.

Lemma scan_no_header (s : string) (p resume : nat) :
  (p = 0 -> header_start s = false) ->
  header_after_newline s = false ->
  scan header_pattern s p resume = [].
Proof.
  revert p resume. induction s as [|c s IH]; intros p resume H0 Hnl.
  - simpl. destruct (p <? resume); trivial.
    destruct (match_at header_pattern p EmptyString) eqn:E; trivial.
    apply match_at_header in E as [(-> & E) | (s' & E & _)]; discriminate.
  - simpl in Hnl. apply orb_false_iff in Hnl as [Hc Hs].
    assert (Hnext : forall q, scan header_pattern s (S p) q = []).
    { intro q. apply IH; [discriminate | trivial]. }
    cbn [scan]. destruct (p <? resume); [apply Hnext|].
    destruct (match_at header_pattern p (String c s)) as [[g e]|] eqn:E;
      [|apply Hnext].
    apply match_at_header in E as [(-> & E) | (s' & [= -> ->] & E)].
    + rewrite H0 in E by trivial. discriminate.
    + simpl in Hc. rewrite E in Hc. discriminate.
Qed.

(** A text without header lines has no sections. *)
Lemma findall_no_header (s : string) :
  has_header_line s = false -> findall header_pattern s = [].
Proof.
  unfold has_header_line. intro H. apply orb_false_iff in H as [H0 Hnl].
  now apply scan_no_header.
Qed.

End ReFacts.

Module ChunkerProps.
Import PyStr Re ContentProcessor ChunkFixtures StrFacts WindowFacts ReFacts.
Local Open Scope nat_scope.

Lemma headed_prefix (repo : Repo) (c : Chunk) :
  headed repo c ->
  content c <> EmptyString
  /\ String.prefix (readme_prefix repo) (content c) = true.
Proof.
  intros [body ->]. split.
  - unfold repo_header. simpl. discriminate.
  - unfold readme_prefix. rewrite <- append_assoc. apply prefix_append.
Qed.

Lemma window_chunk_headed (repo : Repo) (w : nat * list string) :
  headed repo (window_chunk repo w).
Proof. destruct w. now eexists. Qed.

Lemma section_chunk_headed (repo : Repo) (e : nat * string) :
  headed repo (section_chunk repo e).
Proof. destruct e. now eexists. Qed.

Lemma sliding_headed (cfg : Config) (text : string) (repo : Repo)
      (chunks : list Chunk) :
  _sliding_window_chunking cfg text repo = Some chunks ->
  Forall (headed repo) chunks.
Proof.
  unfold _sliding_window_chunking.
  destruct (windows cfg (split_ws text)); [|discriminate].
  intros [= <-]. apply (proj2 (Forall_map _ _ _)), Forall_forall. intros w _.
  apply window_chunk_headed.
Qed.

Lemma semantic_headed (cfg : Config) (text : string) (repo : Repo)
      (chunks : list Chunk) :
  _semantic_chunking cfg text repo = Some chunks ->
  Forall (headed repo) chunks.
Proof.
  unfold _semantic_chunking.
  destruct (findall header_pattern text) as [|s l].
  - apply sliding_headed.
  - generalize (s :: l). intros secs [= <-].
    apply (proj2 (Forall_map _ _ _)), Forall_forall. intros e _.
    apply section_chunk_headed.
Qed.

(** Cutting at the first blank line gives back a context line that has no
    newline in it. *)
Lemma first_piece_of_headed (h body : string) :
  no_newline h = true ->
  hd EmptyString (split_sep NL2 (h ++ NL2 ++ body)) = h.
Proof.
  unfold split_sep. intro Hh.
  assert (fst (pieces_from NL2 (h ++ NL2 ++ body) 0) = h) as H.
  { induction h as [|c h IH].
    - change (EmptyString ++ NL2 ++ body) with (String nl (String nl body)).
      cbn [pieces_from].
      change (String nl (String nl body)) with (NL2 ++ body).
      rewrite prefix_append.
      match goal with |- fst (let (_, _) := ?X in _) = _ => now destruct X end.
    - simpl in Hh. apply andb_true_iff in Hh as [Hc Hh].
      specialize (IH Hh).
      cbn [append pieces_from]. unfold NL2 at 1. cbn [String.prefix].
      unfold is_nl in Hc.
      destruct (ascii_dec nl c) as [<-|_]; [discriminate Hc|].
      destruct (pieces_from NL2 (h ++ NL2 ++ body) 0).
      simpl in IH |- *. now subst. }
  destruct (pieces_from NL2 (h ++ NL2 ++ body) 0). exact H.
Qed.

Lemma repo_header_no_newline (repo : Repo) :
  no_newline (r_full_name repo) = true -> no_newline (repo_header repo) = true.
Proof. intro H. unfold repo_header. simpl. exact H. Qed.

Lemma sub_chunk_headed (repo : Repo) (i : nat) (c : Chunk)
      (w : nat * list string) :
  no_newline (r_full_name repo) = true ->
  headed repo c ->
  headed repo (sub_chunk repo (hd EmptyString (split_sep NL2 (content c))) i w).
Proof.
  intros Hn [body ->]. destruct w as [window chunk_words].
  rewrite first_piece_of_headed by now apply repo_header_no_newline.
  now eexists.
Qed.

Lemma hybrid_loop_headed (cfg : Config) (repo : Repo)
      (items : list (nat * Chunk)) :
  no_newline (r_full_name repo) = true ->
  Forall (fun e => headed repo (snd e)) items ->
  forall final has final' has',
    Forall (headed repo) final ->
    hybrid_loop cfg repo items final has = Some (final', has') ->
    Forall (headed repo) final'.
Proof.
  intros Hn Hitems. induction Hitems as [|[i c] items Hc _ IH];
    intros final has final' has' Hf; cbn [hybrid_loop].
  - now intros [= <- _].
  - destruct (max_chunk_size cfg <? _).
    + destruct (windows cfg _) as [ws|]; [|discriminate].
      apply IH. apply Forall_app. split; trivial.
      apply (proj2 (Forall_map _ _ _)), Forall_forall. intros w _.
      now apply sub_chunk_headed.
    + apply IH. apply Forall_app. split; trivial.
      constructor; [exact Hc | constructor].
Qed.

Lemma Forall_enumerate {A} (P : A -> Prop) (l : list A) :
  Forall P l -> Forall (fun e => P (snd e)) (enumerate l).
Proof.
  unfold enumerate. intro H. generalize 0.
  induction H; intro n; simpl; constructor; auto.
Qed.

Lemma hybrid_headed (cfg : Config) (text : string) (repo : Repo)
      (chunks : list Chunk) :
  no_newline (r_full_name repo) = true ->
  _hybrid_chunking cfg text repo = Some chunks ->
  Forall (headed repo) chunks.
Proof.
  intro Hn. unfold _hybrid_chunking.
  destruct (_semantic_chunking cfg text repo) as [sem|] eqn:Es; [|discriminate].
  apply semantic_headed in Es.
  destruct (first_is_window sem).
  - intros [= <-]. apply (proj2 (Forall_map _ _ _)).
    eapply Forall_impl; [|exact Es]. intros c [body Hc]. now exists body.
  - destruct (hybrid_loop cfg repo (enumerate sem) [] false)
      as [[final has]|] eqn:El; [|discriminate].
    eapply hybrid_loop_headed in El; trivial;
      [|now apply Forall_enumerate].
    destruct sem as [|c sem]; [now intros [= <-]|].
    destruct (_ && _); intros [= <-]; trivial.
    apply Forall_app. split; trivial.
    constructor; [|constructor].
    inversion Es as [|? ? [body Hc] _]; subst. now exists body.
Qed.

(** C3, as stated, fails on description chunks: one newline, not two,
    follows the repository line. *)
Lemma description_prefix_counterexample :
  exists c, process_description with_description = Some c
            /\ String.prefix (readme_prefix with_description) (content c) = false.
Proof. eexists. split; reflexivity. Qed.

(** C3, amended: for a repository whose [full_name] has no newline, every
    chunk of the three readme strategies has non-empty content that begins
    with ["Repository: {full_name}"] and two newlines; a description chunk
    has non-empty content that begins with ["Repository: {full_name}"], one
    newline and ["Description: "]. *)
Theorem chunk_content_prefix (cfg : Config) (text : string) (repo : Repo) :
  no_newline (r_full_name repo) = true ->
  (forall chunks,
      _semantic_chunking cfg text repo = Some chunks
      \/ _sliding_window_chunking cfg text repo = Some chunks
      \/ _hybrid_chunking cfg text repo = Some chunks ->
      Forall (fun c => content c <> EmptyString
                       /\ String.prefix (readme_prefix repo) (content c) = true)
             chunks)
  /\ (forall c,
         process_description repo = Some c ->
         content c <> EmptyString
         /\ String.prefix (description_prefix repo) (content c) = true).
Proof.
  intro Hn. split.
  - intros chunks H.
    assert (Forall (headed repo) chunks) as Hh.
    { destruct H as [H|[H|H]];
        eauto using semantic_headed, sliding_headed, hybrid_headed. }
    eapply Forall_impl; [|exact Hh]. intros c. apply headed_prefix.
  - unfold process_description. intro c.
    destruct (r_description repo) as [d|]; [|discriminate].
    destruct (is_empty d); [discriminate|]. intros [= <-]. cbn [content]. split.
    + unfold repo_header. simpl. discriminate.
    + change (String.prefix (description_prefix repo)
                (repo_header repo ++ NL ++ "Description: " ++ d) = true).
      unfold description_prefix.
      replace (repo_header repo ++ NL ++ "Description: " ++ d)
        with ((repo_header repo ++ NL ++ "Description: ") ++ d)
        by now rewrite !append_assoc.
      apply prefix_append.
Qed.

(** Why [chunk_content_prefix] asks for a name without newline: the
    context line of a sub-chunk is what precedes the first blank line of
    the section chunk, which cuts a name that holds one. *)
Example blank_line_in_name :
  option_map (map content)
    (_hybrid_chunking one_word_cfg notes_with blank_line_repo)
  = Some ["Repository: a" ++ NL2 ++ "b"; "Repository: a" ++ NL2 ++ "c"]
  /\ String.prefix (readme_prefix blank_line_repo)
                   ("Repository: a" ++ NL2 ++ "b") = false.
Proof. split; vm_compute; reflexivity. Qed.

Lemma chunk_content_prefix_witness :
  (forall chunks,
      _semantic_chunking plain_cfg "a b c d e" plain_repo = Some chunks
      \/ _sliding_window_chunking plain_cfg "a b c d e" plain_repo = Some chunks
      \/ _hybrid_chunking plain_cfg "a b c d e" plain_repo = Some chunks ->
      Forall (fun c => content c <> EmptyString
                       /\ String.prefix (readme_prefix plain_repo) (content c)
                          = true)
             chunks)
  /\ (forall c,
         process_description plain_repo = Some c ->
         content c <> EmptyString
         /\ String.prefix (description_prefix plain_repo) (content c) = true).
Proof.
  apply (chunk_content_prefix plain_cfg "a b c d e" plain_repo). reflexivity.
Defined.

(** Without header lines hybrid chunking is sliding-window chunking with
    the chunks relabelled. *)
Lemma hybrid_of_headerless (cfg : Config) (text : string) (repo : Repo) :
  has_header_line text = false ->
  _hybrid_chunking cfg text repo
  = option_map (map relabel_hybrid) (_sliding_window_chunking cfg text repo).
Proof.
  intro H. unfold _hybrid_chunking, _semantic_chunking.
  rewrite (findall_no_header text H). unfold _sliding_window_chunking.
  destruct (windows cfg (split_ws text)) as [[|w ws]|]; trivial.
  destruct w. reflexivity.
Qed.

(** C7: on a document without header lines hybrid chunking yields chunks
    tagged [readme_hybrid] with [section_index = 0] only (so none tagged
    [readme_section]), and it does yield a list whenever the overlap differs
    from the window size. *)
Theorem hybrid_fallback (cfg : Config) (text : string) (repo : Repo) :
  has_header_line text = false ->
  (forall chunks,
      _hybrid_chunking cfg text repo = Some chunks ->
      Forall (fun c => chunk_type c = readme_hybrid
                       /\ section_index c = Some 0) chunks)
  /\ (chunk_overlap cfg <> max_chunk_size cfg ->
      exists chunks, _hybrid_chunking cfg text repo = Some chunks).
Proof.
  intro H. rewrite (hybrid_of_headerless cfg text repo H). split.
  - intros chunks. destruct (_sliding_window_chunking cfg text repo);
      [|discriminate].
    intros [= <-]. apply (proj2 (Forall_map _ _ _)), Forall_forall.
    intros c _. split; reflexivity.
  - intro Hne. unfold _sliding_window_chunking.
    destruct (windows_total cfg (split_ws text) Hne) as [ws ->].
    simpl. eauto.
Qed.

Lemma hybrid_fallback_witness :
  (forall chunks,
      _hybrid_chunking plain_cfg "a b c d e" plain_repo = Some chunks ->
      Forall (fun c => chunk_type c = readme_hybrid
                       /\ section_index c = Some 0) chunks)
  /\ (chunk_overlap plain_cfg <> max_chunk_size plain_cfg ->
      exists chunks, _hybrid_chunking plain_cfg "a b c d e" plain_repo
                     = Some chunks).
Proof.
  apply (hybrid_fallback plain_cfg "a b c d e" plain_repo). reflexivity.
Defined.

End ChunkerProps.

Module WordFacts.
Import PyStr ContentProcessor StrFacts WindowFacts ChunkerProps.
Local Open Scope nat_scope.

Lemma words_from_word (w t : string) :
  no_space w = true ->
  words_from (w ++ t)
  = (w ++ fst (words_from t), snd (words_from t)).
Proof.
  induction w as [|c w IH]; simpl; intro Hw.
  - now destruct (words_from t).
  - apply andb_true_iff in Hw as [Hc Hw]. apply negb_true_iff in Hc.
    rewrite (IH Hw), Hc. reflexivity.
Qed.

Lemma split_ws_word (w : string) : is_word w = true -> split_ws w = [w].
Proof.
  unfold is_word, split_ws. intro H. apply andb_true_iff in H as [He Hw].
  rewrite <- (append_empty_r w) at 1.
  rewrite (words_from_word w EmptyString Hw). simpl. rewrite append_empty_r.
  unfold push_word. apply negb_true_iff in He. now rewrite He.
Qed.

Lemma split_ws_word_space (w t : string) :
  is_word w = true ->
  split_ws (w ++ String " "%char t) = w :: split_ws t.
Proof.
  unfold is_word, split_ws. intro H. apply andb_true_iff in H as [He Hw].
  rewrite (words_from_word w _ Hw). cbn [words_from].
  change (is_space " "%char) with true.
  destruct (words_from t) as [x xs]. cbn [fst snd].
  rewrite append_empty_r. unfold push_word at 1.
  apply negb_true_iff in He. now rewrite He.
Qed.

(** Joining words with single spaces and splitting again is the identity. *)
Lemma split_ws_join (ws : list string) :
  Forall (fun w => is_word w = true) ws -> split_ws (join " " ws) = ws.
Proof.
  unfold join. induction 1 as [|w ws Hw Hws IH]; trivial.
  destruct ws as [|w' ws].
  - now apply split_ws_word.
  - change (String.concat " " (w :: w' :: ws))
      with (w ++ String " "%char (String.concat " " (w' :: ws))).
    now rewrite split_ws_word_space, IH.
Qed.

Lemma words_from_words (s : string) :
  no_space (fst (words_from s)) = true
  /\ Forall (fun w => is_word w = true) (snd (words_from s)).
Proof.
  induction s as [|c s [IH1 IH2]]; simpl; [auto|].
  destruct (words_from s) as [w ws]. cbn [fst snd] in *.
  destruct (is_space c) eqn:Hc; cbn [fst snd].
  - split; trivial. unfold push_word.
    destruct (is_empty w) eqn:He; trivial.
    constructor; trivial. unfold is_word. now rewrite He, IH1.
  - split; trivial. simpl. now rewrite Hc, IH1.
Qed.

(** What [split] returns are words. *)
Lemma split_ws_words (s : string) :
  Forall (fun w => is_word w = true) (split_ws s).
Proof.
  unfold split_ws. destruct (words_from_words s) as [H1 H2].
  destruct (words_from s) as [w ws]. cbn [fst snd] in *.
  unfold push_word. destruct (is_empty w) eqn:He; trivial.
  constructor; trivial. unfold is_word. now rewrite He, H1.
Qed.

Lemma Forall_firstn {A} (P : A -> Prop) (n : nat) (l : list A) :
  Forall P l -> Forall P (firstn n l).
Proof.
  intro H. revert n. induction H; intros [|n]; simpl; constructor; auto.
Qed.

Lemma Forall_skipn {A} (P : A -> Prop) (n : nat) (l : list A) :
  Forall P l -> Forall P (skipn n l).
Proof.
  intro H. revert n. induction H; intros [|n]; simpl; auto.
Qed.

Lemma no_space_no_newline (w : string) :
  no_space w = true -> no_newline w = true.
Proof.
  induction w as [|c w IH]; simpl; trivial. intro H.
  apply andb_true_iff in H as [Hc Hw]. rewrite (IH Hw), andb_true_r.
  destruct (is_nl c) eqn:Hn; trivial.
  unfold is_nl in Hn. apply Ascii.eqb_eq in Hn. subst c. discriminate Hc.
Qed.

Lemma no_newline_append (a b : string) :
  no_newline (a ++ b) = no_newline a && no_newline b.
Proof. induction a as [|c a IH]; simpl; trivial. now rewrite IH, andb_assoc. Qed.

Lemma join_no_newline (ws : list string) :
  Forall (fun w => is_word w = true) ws -> no_newline (join " " ws) = true.
Proof.
  unfold join. induction 1 as [|w ws Hw Hws IH]; trivial.
  assert (no_newline w = true) as Hn.
  { apply no_space_no_newline. unfold is_word in Hw.
    now apply andb_true_iff in Hw as [_ Hw]. }
  destruct ws as [|w' ws]; trivial.
  change (String.concat " " (w :: w' :: ws))
    with (w ++ String " "%char (String.concat " " (w' :: ws))).
  rewrite no_newline_append, Hn. simpl. exact IH.
Qed.

Lemma pieces_one_line (body : string) :
  no_newline body = true -> pieces_from NL2 body 0 = (body, []).
Proof.
  induction body as [|c body IH]; trivial. simpl no_newline. intro H.
  apply andb_true_iff in H as [Hc Hb]. apply negb_true_iff in Hc.
  cbn [pieces_from]. unfold NL2 at 1. cbn [String.prefix].
  unfold is_nl in Hc.
  destruct (ascii_dec nl c) as [<-|_]; [discriminate Hc|].
  now rewrite (IH Hb).
Qed.

(** A context line and a one-line body come apart at the blank line. *)
Lemma split_headed (h body : string) :
  no_newline h = true -> no_newline body = true ->
  split_sep NL2 (h ++ NL2 ++ body) = [h; body].
Proof.
  unfold split_sep. intros Hh Hb.
  assert (pieces_from NL2 (h ++ NL2 ++ body) 0 = (h, [body])) as ->; trivial.
  induction h as [|c h IH].
  - change (EmptyString ++ NL2 ++ body) with (String nl (String nl body)).
    cbn [pieces_from].
    change (String nl (String nl body)) with (NL2 ++ body).
    rewrite prefix_append. cbn. now rewrite (pieces_one_line body Hb).
  - simpl in Hh. apply andb_true_iff in Hh as [Hc Hh].
    apply negb_true_iff in Hc.
    cbn [append pieces_from]. unfold NL2 at 1. cbn [String.prefix].
    unfold is_nl in Hc.
    destruct (ascii_dec nl c) as [<-|_]; [discriminate Hc|].
    now rewrite (IH Hh).
Qed.

(** The words of a window chunk, read back from its content, are the
    words of its window. *)
Lemma window_chunk_words (repo : Repo) (w : nat * list string) :
  no_newline (r_full_name repo) = true ->
  Forall (fun x => is_word x = true) (snd w) ->
  chunk_words (window_chunk repo w) = snd w.
Proof.
  intros Hn Hw. destruct w as [j cw]. cbn [snd] in *.
  unfold chunk_words, window_chunk. cbn [content].
  rewrite split_headed;
    [| now apply repo_header_no_newline | now apply join_no_newline].
  cbn [tl]. unfold join at 1. cbn [String.concat].
  now apply split_ws_join.
Qed.

Lemma slice_words (P : string -> Prop) (words : list string) (i j : nat) :
  Forall P words -> Forall P (slice words i j).
Proof. intro H. unfold slice. now apply Forall_firstn, Forall_skipn. Qed.

(** Read back from the chunks of a text, the words are those of the
    emitted windows. *)
Lemma sliding_chunk_words (cfg : Config) (text : string) (repo : Repo)
      (ws : list (nat * list string)) :
  no_newline (r_full_name repo) = true ->
  windows cfg (split_ws text) = Some ws ->
  map chunk_words (map (window_chunk repo) ws) = window_words ws.
Proof.
  intros Hn Hws. apply windows_are_slices in Hws.
  unfold window_words. rewrite map_map.
  induction Hws as [|w ws (i & j & Hw) _ IH]; trivial.
  cbn [map]. rewrite IH. f_equal.
  apply window_chunk_words; trivial.
  rewrite Hw. apply slice_words, split_ws_words.
Qed.

(** The coverage of C6 read on the chunks themselves. *)
Lemma sliding_chunks_coverage (cfg : Config) (text : string) (repo : Repo)
      (chunks : list Chunk) :
  chunk_overlap cfg < max_chunk_size cfg ->
  no_newline (r_full_name repo) = true ->
  split_ws text = [] \/ chunk_overlap cfg <= List.length (split_ws text) ->
  _sliding_window_chunking cfg text repo = Some chunks ->
  reassemble (chunk_overlap cfg) (map chunk_words chunks) = split_ws text.
Proof.
  intros Hlt Hn Hlen. unfold _sliding_window_chunking.
  destruct (windows cfg (split_ws text)) as [ws|] eqn:Hws; [|discriminate].
  intros [= <-]. rewrite (sliding_chunk_words cfg text repo ws Hn Hws).
  now apply windows_glue with (cfg := cfg).
Qed.

(** The overlap of C10 read on the chunks themselves. *)
Lemma sliding_chunks_overlap (cfg : Config) (text : string) (repo : Repo)
      (chunks : list Chunk) (i : nat) (c1 c2 : Chunk) :
  chunk_overlap cfg < max_chunk_size cfg ->
  no_newline (r_full_name repo) = true ->
  _sliding_window_chunking cfg text repo = Some chunks ->
  nth_error chunks i = Some c1 ->
  nth_error chunks (S i) = Some c2 ->
  last_n (chunk_overlap cfg) (chunk_words c1)
  = firstn (chunk_overlap cfg) (chunk_words c2).
Proof.
  intros Hlt Hn. unfold _sliding_window_chunking.
  destruct (windows cfg (split_ws text)) as [ws|] eqn:Hws; [|discriminate].
  intros [= <-] H1 H2.
  pose proof (sliding_chunk_words cfg text repo ws Hn Hws) as Hcw.
  apply (map_nth_error chunk_words) in H1, H2. rewrite Hcw in H1, H2.
  destruct (windows_prefix cfg (split_ws text) Hlt) as (m & Hw' & _ & Hkeep & _).
  rewrite Hw' in Hws. injection Hws as <-.
  unfold window_words in H1, H2. rewrite nth_error_map in H1, H2.
  destruct (nth_error _ i) as [w1|] eqn:E1; [|discriminate].
  destruct (nth_error _ (S i)) as [w2|] eqn:E2; [|discriminate].
  injection H1 as <-. injection H2 as <-.
  apply nth_error_windows in E1 as [_ ->].
  apply nth_error_windows in E2 as [Hi ->].
  apply window_overlap; auto.
Qed.

End WordFacts.

Module SectionFacts.
Import PyStr Re ContentProcessor StrFacts ReFacts ChunkerProps.
Local Open Scope nat_scope.

Ltac here := intros; eexists; split; [|eassumption]; reflexivity.

Lemma star_greedy_grp (c : ascii -> bool) (s : string) (p : nat)
      (g : option string) (k : K) (r : mstate) :
  star_greedy c s p g k = Some r -> exists st, grp st = g /\ k st = Some r.
Proof.
  revert p. induction s as [|x s IH]; intro p; simpl.
  - here.
  - destruct (c x); [|here].
    destruct (star_greedy c s (S p) g k) eqn:E.
    + intros [= <-]. eauto.
    + here.
Qed.

Lemma star_lazy_grp (c : ascii -> bool) (s : string) (p : nat)
      (g : option string) (k : K) (r : mstate) :
  star_lazy c s p g k = Some r -> exists st, grp st = g /\ k st = Some r.
Proof.
  revert p. induction s as [|x s IH]; intro p; simpl.
  - destruct (k _) eqn:E; [|discriminate]. intros [= <-]. here.
  - destruct (k _) eqn:E.
    + intros [= <-]. here.
    + destruct (c x); [eauto | discriminate].
Qed.

(** A pattern without a group hands the capture on unchanged. *)
Lemma run_grp (r : regex) :
  no_group r = true ->
  forall st k res,
    run r st k = Some res -> exists st', grp st' = grp st /\ k st' = Some res.
Proof.
  induction r as [| |c|c|c|r1 IH1 r2 IH2|r1 IH1 r2 IH2|r1 _|r1 _];
    intros Hng st k res; cbn [run].
  - destruct (pos st =? 0); [here | discriminate].
  - destruct (is_empty (rest st)); [here | discriminate].
  - destruct (rest st) as [|x s]; [discriminate|].
    destruct (c x); [here | discriminate].
  - destruct (rest st) as [|x s]; [discriminate|].
    destruct (c x); [apply star_greedy_grp | discriminate].
  - destruct (rest st) as [|x s]; [discriminate|].
    destruct (c x); [apply star_lazy_grp | discriminate].
  - simpl in Hng. apply andb_true_iff in Hng as [H1 H2]. intro E.
    apply (IH1 H1) in E as (st1 & Hg1 & E).
    apply (IH2 H2) in E as (st2 & Hg2 & E).
    exists st2. split; congruence.
  - simpl in Hng. apply andb_true_iff in Hng as [H1 H2].
    destruct (run r1 st k) eqn:E.
    + intros [= <-]. eauto.
    + eauto.
  - discriminate.
  - destruct (run r1 st _); [here | discriminate].
Qed.

(** As [group_start], with what the group captured. *)
Lemma group_capture (tail : regex) (p : nat) (s : string) (k : K) (r : mstate) :
  run (Seq (Group (Alt Bol (Cls is_nl))) tail) (MState p s None) k = Some r ->
  run tail (MState p s (Some EmptyString)) k = Some r
  \/ exists s', s = String nl s' /\ run tail (MState (S p) s' (Some NL)) k = Some r.
Proof.
  cbn [run pos rest grp].
  assert (Hnl : forall s', take (S p - p) (String nl s') = NL).
  { intro s'. replace (S p - p) with 1 by lia. reflexivity. }
  rewrite Nat.sub_diag. cbn [take].
  destruct (p =? 0).
  - destruct (run tail _ k) eqn:E1.
    + intros [= <-]. now left.
    + destruct s as [|x s]; [discriminate|].
      destruct (is_nl x) eqn:Hx; [|discriminate].
      apply Ascii.eqb_eq in Hx. subst x. rewrite Hnl. eauto.
  - destruct s as [|x s]; [discriminate|].
    destruct (is_nl x) eqn:Hx; [|discriminate].
    apply Ascii.eqb_eq in Hx. subst x. rewrite Hnl. eauto.
Qed.

(** What [findall] collects for a match of [header_pattern] is the text of
    [(^|\n)]: nothing, or the newline before the header. *)
Lemma match_at_group (p : nat) (s : string) (g : string) (e : nat) :
  match_at header_pattern p s = Some (g, e) -> g = EmptyString \/ g = NL.
Proof.
  unfold match_at, header_pattern.
  destruct (run _ _ _) as [st|] eqn:E; [|discriminate].
  intros [= <- _].
  apply group_capture in E as [E | (s' & _ & E)];
    apply run_grp in E as (st' & Hg & [= ->]); trivial;
    rewrite Hg; auto.
Qed.

Lemma scan_groups (s : string) (p resume : nat) :
  Forall (fun g => g = EmptyString \/ g = NL) (scan header_pattern s p resume).
Proof.
  revert p resume. induction s as [|c s IH]; intros p resume; cbn [scan].
  - destruct (p <? resume); [constructor|].
    destruct (match_at _ _ _) as [[g e]|] eqn:E; constructor.
    + eapply match_at_group; eassumption.
    + constructor.
  - destruct (p <? resume); [apply IH|].
    destruct (match_at _ _ _) as [[g e]|] eqn:E; [|apply IH]. constructor.
    + eapply match_at_group; eassumption.
    + apply IH.
Qed.

(** No section chunk carries any text of its section: its content is the
    repository line and the blank line, whatever the document. *)
Lemma section_chunks_blank (cfg : Config) (text : string) (repo : Repo)
      (chunks : list Chunk) :
  findall header_pattern text <> [] ->
  _semantic_chunking cfg text repo = Some chunks ->
  Forall (fun c => content c = readme_prefix repo) chunks.
Proof.
  unfold _semantic_chunking, findall. intro Hne.
  pose proof (scan_groups text 0 0) as Hg.
  destruct (scan header_pattern text 0 0) as [|g l]; [contradiction|].
  revert Hg. generalize (g :: l). intros secs Hg [= <-].
  apply (proj2 (Forall_map _ _ _)).
  unfold enumerate. generalize 0.
  induction Hg as [|g' secs' Hg' _ IH]; intro n;
    cbn [List.length seq combine map]; constructor; auto.
  unfold readme_prefix, section_chunk. cbn [content].
  destruct Hg' as [-> | ->].
  - change (strip EmptyString) with EmptyString. now rewrite append_empty_r.
  - change (strip NL) with EmptyString. now rewrite append_empty_r.
Qed.

End SectionFacts.

Module CleanFacts.
Import PyStr Re ContentProcessor ReFacts ChunkerProps SectionFacts.
Local Open Scope nat_scope.

Lemma space_is_not_nl : is_nl " "%char = false.
Proof. reflexivity. Qed.

Lemma nl_is_space (c : ascii) : is_nl c = true -> is_space c = true.
Proof. unfold is_nl. intro H. apply Ascii.eqb_eq in H. now subst. Qed.

(** Whitespace normalisation leaves no newline in the text. *)
Lemma collapse_ws_no_newline (s : string) : no_newline (collapse_ws s) = true.
Proof.
  induction s as [|c s IH]; simpl; trivial.
  destruct (is_space c) eqn:Hc.
  - destruct (starts_with_space (collapse_ws s)); trivial.
  - simpl. rewrite IH.
    destruct (is_nl c) eqn:Hn; trivial.
    apply nl_is_space in Hn. congruence.
Qed.

(** In a text of one line the pattern can match at the start only. *)
Lemma scan_one_line (s : string) (p resume : nat) :
  no_newline s = true -> 0 < p -> scan header_pattern s p resume = [].
Proof.
  revert p resume. induction s as [|c s IH]; intros p resume Hs Hp; cbn [scan].
  - destruct (p <? resume); trivial.
    destruct (match_at header_pattern p EmptyString) eqn:E; trivial.
    apply match_at_header in E as [(-> & _) | (s' & E & _)];
      [lia | discriminate].
  - simpl in Hs. apply andb_true_iff in Hs as [Hc Hs].
    assert (Hnext : forall q, scan header_pattern s (S p) q = []).
    { intro q. apply IH; [trivial | lia]. }
    destruct (p <? resume); [apply Hnext|].
    destruct (match_at header_pattern p (String c s)) as [[g e]|] eqn:E;
      [|apply Hnext].
    apply match_at_header in E as [(-> & _) | (s' & [= -> ->] & _)];
      [lia | discriminate].
Qed.

Lemma findall_one_line (s : string) :
  no_newline s = true -> List.length (findall header_pattern s) <= 1.
Proof.
  intro Hs. unfold findall. destruct s as [|c s]; cbn [scan].
  - change (0 <? 0) with false. cbv iota.
    destruct (match_at _ _ _) as [[g e]|]; simpl; lia.
  - simpl in Hs. apply andb_true_iff in Hs as [_ Hs].
    change (0 <? 0) with false. cbv iota.
    destruct (match_at _ _ _) as [[g e]|];
      rewrite scan_one_line by (trivial; lia); simpl; lia.
Qed.

(** However the README is rendered, [process_readme] with the hybrid
    strategy never returns more than one [readme_section] chunk: the
    cleaned text is a single line, so at most its start is a header. *)
Lemma process_readme_hybrid_sections (render : string -> string)
      (cfg : Config) (text : string) (repo : Repo) (chunks : list Chunk) :
  chunk_strategy cfg = "hybrid" ->
  process_readme render cfg text repo = Some chunks ->
  List.length (filter is_section chunks) <= 1.
Proof.
  intros Hs. unfold process_readme. rewrite Hs.
  change ("hybrid" =? "semantic")%string with false.
  change ("hybrid" =? "sliding")%string with false. cbv iota.
  set (body := if max_readme_size cfg <? String.length text
               then take (max_readme_size cfg) text else text).
  set (clean := _clean_content render body).
  assert (Hone : List.length (findall header_pattern clean) <= 1)
    by apply findall_one_line, collapse_ws_no_newline.
  destruct (findall header_pattern clean) as [|g [|g' l]] eqn:Ef;
    [| |simpl in Hone; lia].
  - unfold _hybrid_chunking, _semantic_chunking. rewrite Ef.
    destruct (_sliding_window_chunking cfg clean repo) as [sl|] eqn:Esl;
      [|discriminate].
    unfold _sliding_window_chunking in Esl.
    destruct (windows cfg (split_ws clean)) as [ws|]; [|discriminate].
    injection Esl as <-.
    destruct ws as [|[n w] ws].
    + intros [= <-]. simpl. lia.
    + cbn [map first_is_window window_chunk chunk_type ChunkType_eqb].
      intros [= <-]. cbn [filter relabel_hybrid is_section chunk_type ChunkType_eqb].
      enough (filter is_section (map relabel_hybrid (map (window_chunk repo) ws)) = []) as ->
        by (simpl; lia).
      induction ws as [|w' ws IH]; trivial.
  - unfold _hybrid_chunking, _semantic_chunking. rewrite Ef.
    cbn [enumerate List.length seq combine map first_is_window section_chunk
         chunk_type ChunkType_eqb hybrid_loop content].
    destruct (max_chunk_size cfg <? _).
    + destruct (windows cfg _) as [ws|]; [|discriminate].
      cbn [hybrid_loop app].
      assert (Hsub : forall ctx, filter is_section (map (sub_chunk repo ctx 0) ws) = []).
      { intro ctx. induction ws as [|[n w] ws IH]; trivial. }
      destruct (_ && _); intros [= <-].
      * rewrite filter_app, Hsub. simpl. lia.
      * rewrite Hsub. simpl. lia.
    + cbn [hybrid_loop app].
      destruct (_ && _); intros [= <-]; simpl; lia.
Qed.

End CleanFacts.

Module HybridFacts.
Import PyStr Re ContentProcessor ChunkFixtures StrFacts ChunkerProps SectionFacts.
Local Open Scope nat_scope.

Lemma hybrid_loop_within_budget (cfg : Config) (repo : Repo)
      (items : list (nat * Chunk)) (final : list Chunk) (has : bool) :
  Forall (fun e => List.length (split_ws (content (snd e))) <= max_chunk_size cfg)
         items ->
  hybrid_loop cfg repo items final has
  = Some ((final ++ map snd items)%list, has).
Proof.
  intro H. revert final. induction H as [|[i c] items Hc _ IH]; intro final;
    cbn [hybrid_loop map snd].
  - now rewrite app_nil_r.
  - cbn [snd] in Hc. apply Nat.ltb_ge in Hc. rewrite Hc, IH.
    now rewrite <- app_assoc.
Qed.

Lemma snd_enumerate {A} (l : list A) : map snd (enumerate l) = l.
Proof.
  unfold enumerate. generalize 0.
  induction l as [|x l IH]; intro n; simpl; [trivial | now rewrite IH].
Qed.

(** X4: Whenever the text has sections and the context line fits the size
    budget, hybrid chunking returns the section chunks, followed by the
    forced copy of the first one exactly when the text contains the
    literal. *)
Lemma hybrid_with_sections (cfg : Config) (text : string) (repo : Repo) :
  findall header_pattern text <> [] ->
  List.length (split_ws (readme_prefix repo)) <= max_chunk_size cfg ->
  exists first others,
    _semantic_chunking cfg text repo = Some (first :: others)
    /\ _hybrid_chunking cfg text repo
       = Some ((first :: others)
               ++ (if contains literal text
                   then [forced_hybrid_chunk repo first] else []))%list.
Proof.
  intros Hne Hfit.
  destruct (_semantic_chunking cfg text repo) as [sem|] eqn:Es.
  2:{ unfold _semantic_chunking in Es.
      destruct (findall header_pattern text); [contradiction | discriminate]. }
  pose proof (section_chunks_blank cfg text repo sem Hne Es) as Hblank.
  assert (Htype : Forall (fun c => chunk_type c = readme_section) sem).
  { unfold _semantic_chunking in Es.
    destruct (findall header_pattern text) as [|g l]; [contradiction|].
    revert Es. generalize (g :: l). intros secs [= <-].
    apply (proj2 (Forall_map _ _ _)), Forall_forall. now intros [i s] _. }
  assert (Hsome : sem <> []).
  { unfold _semantic_chunking in Es.
    destruct (findall header_pattern text) as [|g l]; [contradiction|].
    injection Es as <-. discriminate. }
  destruct sem as [|first others]; [contradiction|].
  exists first, others. split; trivial.
  unfold _hybrid_chunking. rewrite Es. cbn [first_is_window].
  inversion Htype as [|? ? Ht _]; subst. rewrite Ht. cbn [ChunkType_eqb].
  rewrite hybrid_loop_within_budget.
  - rewrite snd_enumerate. cbn [app negb]. rewrite andb_true_r.
    unfold literal. destruct (contains _ text); [reflexivity|].
    now rewrite app_nil_r.
  - apply (Forall_enumerate
             (fun c => List.length (split_ws (content c)) <= max_chunk_size cfg)).
    eapply Forall_impl; [|exact Hblank].
    intros c Hc. now rewrite Hc.
Qed.

End HybridFacts.

Module HybridProps.
Import PyStr Re ContentProcessor ChunkFixtures ChunkerProps.
Local Open Scope nat_scope.

(** C4: the document with the literal has one section, within the size
    budget, and hybrid chunking returns that section followed by a forced
    copy of it tagged [readme_hybrid] with id ["{repo_id}-0-hybrid"] and
    both indices 0; the document without the literal gets the section
    alone. *)
Theorem hybrid_depends_on_literal :
  contains literal notes_with = true
  /\ contains literal notes_without = false
  /\ _semantic_chunking hundred_cfg notes_with plain_repo = Some [notes_section]
  /\ List.length (split_ws (content notes_section)) <= max_chunk_size hundred_cfg
  /\ _hybrid_chunking hundred_cfg notes_with plain_repo
     = Some [notes_section;
             {| id := str_of_Z (r_id plain_repo) ++ "-0-hybrid";
                repo_id := r_id plain_repo;
                repo_name := r_full_name plain_repo;
                content := content notes_section;
                chunk_type := readme_hybrid;
                section_index := Some 0;
                window_index := Some 0 |}]
  /\ _hybrid_chunking hundred_cfg notes_without plain_repo
     = Some [notes_section].
Proof. repeat split; vm_compute; try reflexivity. lia. Qed.

(** C5 at its input: two [readme_section] chunks with indices 0 and 1 come
    out, but the content of each is the repository line alone; the words
    of the sections are in neither. *)
Theorem install_usage_chunks :
  _hybrid_chunking hundred_cfg install_usage plain_repo
  = Some [{| id := "42-0"; repo_id := 42; repo_name := "octo/cat";
             content := readme_prefix plain_repo;
             chunk_type := readme_section;
             section_index := Some 0; window_index := None |};
          {| id := "42-1"; repo_id := 42; repo_name := "octo/cat";
             content := readme_prefix plain_repo;
             chunk_type := readme_section;
             section_index := Some 1; window_index := None |}]
  /\ contains "alpha" (readme_prefix plain_repo) = false
  /\ contains "beta" (readme_prefix plain_repo) = false.
Proof. repeat split; vm_compute; reflexivity. Qed.

End HybridProps.

Module MergeFacts.
Import PyStr SearchEngine.
Local Open Scope Q_scope.

Lemma Qltb_lt (a b : Q) : Qltb a b = true <-> a < b.
Proof.
  unfold Qltb. rewrite negb_true_iff. split; intro H.
  - destruct (Qlt_le_dec a b) as [|Hle]; trivial.
    apply Qle_bool_iff in Hle. congruence.
  - destruct (Qle_bool b a) eqn:E; trivial.
    apply Qle_bool_iff in E. apply Qlt_not_le in H. contradiction.
Qed.

Lemma Qltb_ge (a b : Q) : Qltb a b = false <-> b <= a.
Proof.
  unfold Qltb. rewrite negb_false_iff. apply Qle_bool_iff.
Qed.

(** *** The dict *)

Lemma dict_get_set_same (k : Z) (v : Entry) (d : Dict) :
  dict_get k (dict_set k v d) = Some v.
Proof.
  induction d as [|[k' v'] d IH]; simpl.
  - now rewrite Z.eqb_refl.
  - destruct (Z.eqb k k') eqn:E; simpl.
    + now rewrite Z.eqb_refl.
    + now rewrite E.
Qed.

Lemma dict_get_set_other (k k' : Z) (v : Entry) (d : Dict) :
  k' <> k -> dict_get k' (dict_set k v d) = dict_get k' d.
Proof.
  intro Hne. induction d as [|[k0 v0] d IH]; simpl.
  - apply Z.eqb_neq in Hne. now rewrite Hne.
  - destruct (Z.eqb k k0) eqn:E; simpl.
    + apply Z.eqb_eq in E. subst k0.
      apply Z.eqb_neq in Hne. now rewrite Hne.
    + now rewrite IH.
Qed.

Lemma dict_get_In (k : Z) (e : Entry) (d : Dict) :
  dict_get k d = Some e -> In (k, e) d.
Proof.
  induction d as [|[k' v'] d IH]; simpl; [discriminate|].
  destruct (Z.eqb k k') eqn:E.
  - apply Z.eqb_eq in E. intros [= ->]. left. congruence.
  - auto.
Qed.

Lemma dict_get_keys (k : Z) (d : Dict) :
  dict_get k d <> None <-> In k (map fst d).
Proof.
  induction d as [|[k' v'] d IH]; simpl.
  - tauto.
  - destruct (Z.eqb k k') eqn:E.
    + apply Z.eqb_eq in E. split; [auto | discriminate].
    + apply Z.eqb_neq in E. rewrite IH. split; [auto | intros [|]; congruence].
Qed.

Lemma dict_set_keys (k : Z) (v : Entry) (d : Dict) :
  map fst (dict_set k v d)
  = if in_dec Z.eq_dec k (map fst d) then map fst d else (map fst d ++ [k])%list.
Proof.
  induction d as [|[k' v'] d IH]; simpl; trivial.
  destruct (Z.eqb k k') eqn:E; simpl.
  - apply Z.eqb_eq in E. subst.
    destruct (Z.eq_dec k' k'); [trivial | contradiction].
  - apply Z.eqb_neq in E. rewrite IH.
    destruct (Z.eq_dec k' k); [congruence|].
    now destruct (in_dec Z.eq_dec k (map fst d)).
Qed.

Lemma dict_set_NoDup (k : Z) (v : Entry) (d : Dict) :
  NoDup (map fst d) -> NoDup (map fst (dict_set k v d)).
Proof.
  intro H. rewrite dict_set_keys.
  destruct (in_dec Z.eq_dec k (map fst d)) as [|Hn]; trivial.
  apply NoDup_app; [trivial | repeat constructor; auto |].
  intros x Hx [<-|[]]. contradiction.
Qed.

Lemma In_dict_get (k : Z) (e : Entry) (d : Dict) :
  NoDup (map fst d) -> In (k, e) d -> dict_get k d = Some e.
Proof.
  induction d as [|[k' v'] d IH]; simpl; [contradiction|].
  intros Hnd [[= -> ->]|Hin].
  - now rewrite Z.eqb_refl.
  - inversion Hnd as [|? ? Hk Hnd']; subst.
    destruct (Z.eqb k k') eqn:E; [|auto].
    apply Z.eqb_eq in E. subst. exfalso. apply Hk.
    change k' with (fst (k', e)). now apply in_map.
Qed.

(** *** One key at a time *)

Lemma neural_step_get (d : Dict) (h : SearchResult) (k : Z) :
  dict_get k (neural_step d h) = at_key neural_entry k (dict_get k d) h.
Proof.
  unfold neural_step, at_key, neural_entry. fold (rid h).
  destruct (Z.eqb k (rid h)) eqn:E.
  - apply Z.eqb_eq in E. subst k.
    destruct (dict_get (rid h) d) as [e|] eqn:G.
    + destruct (Qltb _ _); [apply dict_get_set_same | exact G].
    + apply dict_get_set_same.
  - apply Z.eqb_neq in E.
    destruct (dict_get (rid h) d) as [e|].
    + destruct (Qltb _ _); [now apply dict_get_set_other | trivial].
    + now apply dict_get_set_other.
Qed.

Lemma keyword_step_get (d : Dict) (h : SearchResult) (k : Z) :
  dict_get k (keyword_step d h) = at_key keyword_entry k (dict_get k d) h.
Proof.
  unfold keyword_step, at_key, keyword_entry. fold (rid h).
  destruct (Z.eqb k (rid h)) eqn:E.
  - apply Z.eqb_eq in E. subst k.
    destruct (dict_get (rid h) d) as [e|] eqn:G.
    + destruct (Qltb (e_keyword_score e) _); [|exact G].
      destruct (Qltb _ _); apply dict_get_set_same.
    + apply dict_get_set_same.
  - apply Z.eqb_neq in E.
    destruct (dict_get (rid h) d) as [e|].
    + destruct (Qltb (e_keyword_score e) _); [|trivial].
      destruct (Qltb _ _); now apply dict_get_set_other.
    + now apply dict_get_set_other.
Qed.

Lemma fold_get (step : Dict -> SearchResult -> Dict)
      (entry : option Entry -> SearchResult -> Entry) :
  (forall d h k, dict_get k (step d h) = at_key entry k (dict_get k d) h) ->
  forall hits d k,
    dict_get k (fold_left step hits d)
    = fold_left (at_key entry k) hits (dict_get k d).
Proof.
  intros Hstep hits. induction hits as [|h hits IH]; intros d k; simpl; trivial.
  now rewrite IH, Hstep.
Qed.

Lemma neural_step_NoDup (d : Dict) (h : SearchResult) :
  NoDup (map fst d) -> NoDup (map fst (neural_step d h)).
Proof.
  intro H. unfold neural_step. destruct (dict_get _ d).
  - destruct (Qltb _ _); [now apply dict_set_NoDup | trivial].
  - now apply dict_set_NoDup.
Qed.

Lemma keyword_step_NoDup (d : Dict) (h : SearchResult) :
  NoDup (map fst d) -> NoDup (map fst (keyword_step d h)).
Proof.
  intro H. unfold keyword_step. destruct (dict_get _ d).
  - destruct (Qltb (e_keyword_score _) _); [|trivial].
    destruct (Qltb _ _); now apply dict_set_NoDup.
  - now apply dict_set_NoDup.
Qed.

Lemma fold_NoDup (step : Dict -> SearchResult -> Dict) :
  (forall d h, NoDup (map fst d) -> NoDup (map fst (step d h))) ->
  forall hits d, NoDup (map fst d) -> NoDup (map fst (fold_left step hits d)).
Proof.
  intros Hstep hits. induction hits; intros d H; simpl; auto.
Qed.

Lemma group_NoDup (N K : list SearchResult) :
  NoDup (map fst (group_results N K)).
Proof.
  unfold group_results.
  apply fold_NoDup; [exact keyword_step_NoDup|].
  apply fold_NoDup; [exact neural_step_NoDup|]. constructor.
Qed.

(** The entry of a key, as two folds over the hits. *)
Lemma group_get (N K : list SearchResult) (k : Z) :
  dict_get k (group_results N K)
  = fold_left (at_key keyword_entry k) K
      (fold_left (at_key neural_entry k) N None).
Proof.
  unfold group_results.
  rewrite (fold_get _ _ keyword_step_get), (fold_get _ _ neural_step_get).
  reflexivity.
Qed.

(** *** Best hits *)

Lemma best_hit_snoc_other (k : Z) (l : list SearchResult) (h x : SearchResult) :
  best_hit k l h -> ~ of_repo k x -> best_hit k (l ++ [x]) h.
Proof.
  intros (b & a & -> & Hk & Hb & Ha) Hx.
  exists b, (a ++ [x])%list. repeat split; trivial.
  - now rewrite <- app_assoc.
  - intros y Hy Hky. apply in_app_or in Hy as [Hy|[<-|[]]]; [auto | contradiction].
Qed.

Lemma best_hit_snoc_le (k : Z) (l : list SearchResult) (h x : SearchResult) :
  best_hit k l h -> score x <= score h -> best_hit k (l ++ [x]) h.
Proof.
  intros (b & a & -> & Hk & Hb & Ha) Hx.
  exists b, (a ++ [x])%list. repeat split; trivial.
  - now rewrite <- app_assoc.
  - intros y Hy Hky. apply in_app_or in Hy as [Hy|[<-|[]]]; auto.
Qed.

Lemma best_hit_snoc_new (k : Z) (l : list SearchResult) (x : SearchResult) :
  (forall y, In y l -> of_repo k y -> score y < score x) ->
  of_repo k x -> best_hit k (l ++ [x]) x.
Proof.
  intros Hl Hx. exists l, []. repeat split; trivial. intros y [].
Qed.

Lemma best_hit_below (k : Z) (l : list SearchResult) (h : SearchResult) (s : Q) :
  best_hit k l h -> score h < s ->
  forall y, In y l -> of_repo k y -> score y < s.
Proof.
  intros (b & a & -> & Hk & Hb & Ha) Hs y Hy Hky.
  apply in_app_or in Hy as [Hy|[<-|Hy]]; trivial.
  - eapply Qlt_trans; eauto.
  - eapply Qle_lt_trans; eauto.
Qed.

Lemma fold_snoc {A B} (f : A -> B -> A) (l : list B) (x : B) (a : A) :
  fold_left f (l ++ [x]) a = f (fold_left f l a) x.
Proof. now rewrite fold_left_app. Qed.

Lemma at_key_cases (entry : option Entry -> SearchResult -> Entry) (k : Z)
      (o : option Entry) (h : SearchResult) :
  (of_repo k h /\ at_key entry k o h = Some (entry o h))
  \/ (~ of_repo k h /\ at_key entry k o h = o).
Proof.
  unfold at_key, of_repo, rid. destruct (Z.eqb_spec k (repository_id (repository h))).
  - left. auto.
  - right. split; [congruence | trivial].
Qed.

(** After the neural loop, a repository without neural hits has no entry,
    and any other has the score and snippet of its best neural hit. *)
Lemma neural_fold_spec (k : Z) (N : list SearchResult) :
  match fold_left (at_key neural_entry k) N None with
  | None => forall x, In x N -> ~ of_repo k x
  | Some e =>
      exists hn, best_hit k N hn
                 /\ e_neural_score e = score hn
                 /\ e_text e = text hn
                 /\ e_chunk_type e = chunk_type hn
                 /\ e_keyword_score e = 0
  end.
Proof.
  induction N as [|h N IH] using rev_ind; [intros x []|].
  rewrite fold_snoc.
  destruct (at_key_cases neural_entry k (fold_left (at_key neural_entry k) N None) h)
    as [[Hk ->]|[Hk ->]].
  - destruct (fold_left (at_key neural_entry k) N None) as [e|]; cbn [neural_entry].
    + destruct IH as (hn & Hb & Hs & Ht & Hc & Hkw).
      destruct (Qltb (e_neural_score e) (score h)) eqn:E.
      * apply Qltb_lt in E. rewrite Hs in E.
        exists h. cbn. repeat split; trivial.
        apply best_hit_snoc_new; trivial.
        now apply best_hit_below with (h := hn).
      * apply Qltb_ge in E. rewrite Hs in E.
        exists hn. repeat split; trivial. now apply best_hit_snoc_le.
    + exists h. cbn. repeat split; trivial.
      apply best_hit_snoc_new; trivial.
      intros y Hy Hky. now apply IH in Hy.
  - destruct (fold_left (at_key neural_entry k) N None) as [e|].
    + destruct IH as (hn & Hb & Hrest). exists hn. split; trivial.
      now apply best_hit_snoc_other.
    + intros x Hx. apply in_app_or in Hx as [Hx|[<-|[]]]; auto.
Qed.

(** What the keyword loop does to an entry the neural loop made. *)
Lemma keyword_fold_spec (k : Z) (e0 : Entry) (K : list SearchResult) :
  exists e,
    fold_left (at_key keyword_entry k) K (Some e0) = Some e
    /\ e_neural_score e = e_neural_score e0
    /\ e_repository e = e_repository e0
    /\ (((forall x, In x K -> of_repo k x -> score x <= e_keyword_score e0)
         /\ e_keyword_score e = e_keyword_score e0
         /\ e_text e = e_text e0 /\ e_chunk_type e = e_chunk_type e0)
        \/ exists hk,
             best_hit k K hk
             /\ e_keyword_score e0 < score hk
             /\ e_keyword_score e = score hk
             /\ (e_neural_score e0 < 1 # 2 ->
                 e_text e = text hk /\ e_chunk_type e = chunk_type hk)
             /\ (1 # 2 <= e_neural_score e0 ->
                 e_text e = e_text e0 /\ e_chunk_type e = e_chunk_type e0)).
Proof.
  induction K as [|h K IH] using rev_ind.
  - exists e0. repeat split; trivial. left. repeat split; trivial. intros x [].
  - destruct IH as (e & He & Hn & Hr & IH). rewrite fold_snoc, He.
    destruct (at_key_cases keyword_entry k (Some e) h) as [[Hk ->]|[Hk ->]].
    + cbn [keyword_entry].
      destruct (Qltb (e_keyword_score e) (score h)) eqn:E.
      * apply Qltb_lt in E.
        assert (Hnew : best_hit k (K ++ [h]) h /\ e_keyword_score e0 < score h).
        { destruct IH as [(Hall & Hkw & _)|(hk & Hb & Hlt & Hkw & _)];
            rewrite Hkw in E.
          - split; trivial. apply best_hit_snoc_new; trivial.
            intros y Hy Hky. eapply Qle_lt_trans; eauto.
          - split; [|eapply Qlt_trans; eauto].
            apply best_hit_snoc_new; trivial.
            now apply best_hit_below with (h := hk). }
        destruct Hnew as [Hb Hlt].
        destruct (Qltb (e_neural_score e) (1 # 2)) eqn:En;
          eexists; (split; [reflexivity|]); cbn;
          (split; [trivial|]); (split; [trivial|]); right;
          exists h;
          (split; [exact Hb|split; [exact Hlt|split; [reflexivity|split]]]).
        -- intros _. split; reflexivity.
        -- intro Hge. apply Qltb_lt in En. rewrite Hn in En.
           apply Qlt_not_le in En. contradiction.
        -- intro Hlt'. apply Qltb_ge in En. rewrite Hn in En.
           apply Qlt_not_le in Hlt'. contradiction.
        -- intro Hge.
           destruct IH as [(_ & _ & Ht & Hc)|(hk & _ & _ & _ & _ & Hsame)];
             auto.
      * apply Qltb_ge in E. exists e. repeat split; trivial.
        destruct IH as [(Hall & Hkw & Hsn)|(hk & Hb & Hlt & Hkw & Hsn)].
        -- left. repeat split; try tauto.
           intros x Hx Hkx. apply in_app_or in Hx as [Hx|[<-|[]]]; auto.
           now rewrite <- Hkw.
        -- right. exists hk. repeat split; try tauto.
           apply best_hit_snoc_le; trivial. now rewrite <- Hkw.
    + exists e. repeat split; trivial.
      destruct IH as [(Hall & Hsn)|(hk & Hb & Hsn)].
      * left. split; trivial.
        intros x Hx Hkx. apply in_app_or in Hx as [Hx|[<-|[]]]; auto.
        contradiction.
      * right. exists hk. split; trivial. now apply best_hit_snoc_other.
Qed.

Lemma at_key_keyed (entry : option Entry -> SearchResult -> Entry) (k : Z) :
  (forall o h, keyed k o -> of_repo k h ->
               repository_id (e_repository (entry o h)) = k) ->
  forall hits o, keyed k o -> keyed k (fold_left (at_key entry k) hits o).
Proof.
  intros Hentry hits. induction hits as [|h hits IH]; intros o Ho; simpl; trivial.
  apply IH. destruct (at_key_cases entry k o h) as [[Hk ->]|[Hk ->]]; trivial.
  intros e [= <-]. now apply Hentry.
Qed.

Lemma group_keyed (N K : list SearchResult) (k : Z) (e : Entry) :
  In (k, e) (group_results N K) -> repository_id (e_repository e) = k.
Proof.
  intro Hin. apply In_dict_get in Hin; [|apply group_NoDup].
  rewrite group_get in Hin. revert e Hin.
  apply at_key_keyed.
  { intros o h Ho Hh. unfold keyword_entry. destruct o as [e'|]; trivial.
    destruct (Qltb (e_keyword_score e') _); [|now apply Ho].
    destruct (Qltb _ _); cbn; now apply Ho. }
  apply at_key_keyed.
  { intros o h Ho Hh. unfold neural_entry. destruct o as [e'|]; trivial.
    destruct (Qltb _ _); cbn; now apply Ho. }
  intros e [=].
Qed.

(** *** From the output back to the entries *)

Lemma insert_desc_In (x y : SearchResult) (l : list SearchResult) :
  In y (insert_desc x l) <-> y = x \/ In y l.
Proof.
  induction l as [|z l IH]; simpl.
  - intuition congruence.
  - destruct (Qltb (score x) (score z)); simpl; rewrite ?IH; intuition congruence.
Qed.

Lemma sort_desc_In (y : SearchResult) (l : list SearchResult) :
  In y (sort_desc l) <-> In y l.
Proof.
  induction l as [|x l IH]; simpl; [tauto|].
  rewrite insert_desc_In, IH. intuition congruence.
Qed.

Lemma merge_In (eng : Engine) (N K : list SearchResult) (r : SearchResult) :
  In r (_merge_results eng N K) <->
  exists k e, In (k, e) (group_results N K) /\ merged_of eng (k, e) = [r].
Proof.
  unfold _merge_results. rewrite sort_desc_In, in_flat_map. split.
  - intros ([k e] & Hin & Hr). exists k, e. split; trivial.
    unfold merged_of in *. destruct (Qltb _ _); [contradiction|].
    destruct Hr as [<-|[]]. reflexivity.
  - intros (k & e & Hin & Hr). exists (k, e). split; trivial.
    rewrite Hr. now left.
Qed.

End MergeFacts.

Module MergeProps.
Import PyStr SearchEngine SearchFixtures MergeFacts.
Local Open Scope Q_scope.

Lemma merged_of_fields (eng : Engine) (k : Z) (e : Entry) (r : SearchResult) :
  merged_of eng (k, e) = [r] ->
  text r = e_text e /\ chunk_type r = e_chunk_type e
  /\ repository r = e_repository e
  /\ neural_score r = Some (e_neural_score e)
  /\ score r = combined_score eng e
  /\ Qltb (combined_score eng e) (min_score eng) = false.
Proof.
  unfold merged_of. destruct (Qltb _ _); [discriminate|].
  intros [= <-]. cbn. repeat split.
Qed.

(** C8: for a repository with neural hits, the merged result carries the
    score of its best neural hit; its snippet (text and chunk type) is that
    hit's when the score is at least 0.5, and otherwise the snippet of the
    best keyword hit, provided some keyword hit of the repository scores
    above the initial 0.0 (else the neural snippet stays). *)
Theorem snippet_selection (eng : Engine) (N K : list SearchResult)
        (r : SearchResult) :
  In r (_merge_results eng N K) ->
  (exists h, In h N /\ of_repo (repository_id (repository r)) h) ->
  exists hn,
    best_hit (repository_id (repository r)) N hn
    /\ neural_score r = Some (score hn)
    /\ (1 # 2 <= score hn -> same_snippet r hn)
    /\ (score hn < 1 # 2 ->
        (exists hk, best_hit (repository_id (repository r)) K hk
                    /\ 0 < score hk /\ same_snippet r hk)
        \/ ((forall x, In x K -> of_repo (repository_id (repository r)) x ->
                       score x <= 0)
            /\ same_snippet r hn)).
Proof.
  intros Hr (h & HhN & Hh).
  apply merge_In in Hr as (k & e & Hin & Hm).
  apply merged_of_fields in Hm as (Ht & Hc & Hrepo & Hns & _).
  pose proof (group_keyed N K k e Hin) as Hk.
  rewrite Hrepo in *. rewrite Hk in *.
  apply In_dict_get in Hin; [|apply group_NoDup].
  rewrite group_get in Hin.
  pose proof (neural_fold_spec k N) as HN.
  destruct (fold_left (at_key neural_entry k) N None) as [e0|];
    [|now apply HN in HhN].
  destruct HN as (hn & Hbest & Hs0 & Ht0 & Hc0 & Hkw0).
  destruct (keyword_fold_spec k e0 K) as (e' & He' & Hn' & _ & Hsn).
  rewrite He' in Hin. injection Hin as ->.
  rewrite Hkw0, Hs0 in Hsn. unfold same_snippet.
  exists hn. split; [trivial|]. split; [congruence|]. split.
  - intro Hge. rewrite Ht, Hc, <- Ht0, <- Hc0.
    destruct Hsn as [(_ & _ & Hsame)|(hk & _ & _ & _ & _ & Hsame)]; auto.
  - intro Hlt.
    destruct Hsn as [(Hall & _ & Ht' & Hc')|(hk & Hb & Hpos & _ & Hsame & _)].
    + right. split; trivial. split; congruence.
    + left. exists hk. split; trivial. split; trivial.
      destruct (Hsame Hlt). split; congruence.
Qed.

Lemma snippet_selection_witness :
  exists hn,
    best_hit 1 [hit cat (9 # 10) "n"] hn
    /\ neural_score cat_merged = Some (score hn)
    /\ (1 # 2 <= score hn -> same_snippet cat_merged hn)
    /\ (score hn < 1 # 2 ->
        (exists hk, best_hit 1 [hit cat 8 "k"] hk
                    /\ 0 < score hk /\ same_snippet cat_merged hk)
        \/ ((forall x, In x [hit cat 8 "k"] -> of_repo 1 x -> score x <= 0)
            /\ same_snippet cat_merged hn)).
Proof.
  apply (snippet_selection default_engine [hit cat (9 # 10) "n"]
                           [hit cat 8 "k"] cat_merged).
  - left. reflexivity.
  - exists (hit cat (9 # 10) "n"). split; [left|]; reflexivity.
Defined.

Lemma normalized_keyword_range (e : Entry) :
  0 <= e_keyword_score e -> 0 <= normalized_keyword e <= 1.
Proof.
  intro Hk. unfold normalized_keyword, py_min.
  destruct (Qltb 10 (e_keyword_score e)) eqn:E.
  - split; discriminate.
  - apply Qltb_ge in E. split.
    + apply Qle_shift_div_l; [reflexivity | lra].
    + apply Qle_shift_div_r; [reflexivity | lra].
Qed.

(** C9: every merged result comes from an entry of the grouping, and when
    that entry's neural score is in [0,1] and its raw keyword score is
    non-negative, the combined score is in [0, neural_weight +
    keyword_weight] (for non-negative weights). *)
Theorem merge_score_bounds (eng : Engine) (N K : list SearchResult)
        (r : SearchResult) :
  0 <= neural_weight eng -> 0 <= keyword_weight eng ->
  In r (_merge_results eng N K) ->
  exists k e,
    In (k, e) (group_results N K)
    /\ merged_of eng (k, e) = [r]
    /\ score r
       = neural_weight eng * e_neural_score e
         + keyword_weight eng * (py_min (e_keyword_score e) 10 / 10)
    /\ (0 <= e_neural_score e <= 1 -> 0 <= e_keyword_score e ->
        0 <= score r <= neural_weight eng + keyword_weight eng).
Proof.
  intros Hnw Hkw Hr.
  apply merge_In in Hr as (k & e & Hin & Hm).
  exists k, e. split; [trivial|]. split; [trivial|].
  apply merged_of_fields in Hm as (_ & _ & _ & _ & Hs & _).
  split; [exact Hs|]. intros Hn Hk. rewrite Hs. unfold combined_score.
  pose proof (normalized_keyword_range e Hk) as Hnk.
  set (x := normalized_keyword e) in *. nra.
Qed.

Lemma merge_score_bounds_witness :
  0 <= score cat_merged <= (7 # 10) + (3 # 10).
Proof.
  destruct (merge_score_bounds default_engine [hit cat (9 # 10) "n"]
                               [hit cat 8 "k"] cat_merged)
    as (k & e & Hin & _ & _ & Hbounds).
  - discriminate.
  - discriminate.
  - left. reflexivity.
  - destruct Hin as [[= <- <-]|[]]. apply Hbounds.
    + split; discriminate.
    + discriminate.
Defined.

End MergeProps.

Module CommuteProps.
Import PyStr SearchEngine SearchFixtures MergeFacts MergeProps.
Local Open Scope Q_scope.


Lemma fold_has_entry (entry : option Entry -> SearchResult -> Entry) (k : Z)
      (hits : list SearchResult) (o : option Entry) :
  fold_left (at_key entry k) hits o <> None
  <-> o <> None \/ exists h, In h hits /\ of_repo k h.
Proof.
  revert o. induction hits as [|h hits IH]; intro o; simpl.
  - split; [auto | intros [|(h & [] & _)]; trivial].
  - rewrite IH.
    destruct (at_key_cases entry k o h) as [[Hk ->]|[Hk ->]]; split.
    + intros _. right. eauto.
    + intros _. left. discriminate.
    + intros [|(x & Hx & Hkx)]; eauto.
    + intros [|(x & [<-|Hx] & Hkx)]; eauto; contradiction.
Qed.

(** The keys of the grouping are the repository ids of the hits. *)
Lemma group_keys (N K : list SearchResult) (k : Z) :
  In k (map fst (group_results N K))
  <-> exists h, (In h N \/ In h K) /\ of_repo k h.
Proof.
  rewrite <- dict_get_keys, group_get, !fold_has_entry. split.
  - intros [[[]|(h & Hh & Hk)]|(h & Hh & Hk)]; eauto.
  - intros (h & [Hh|Hh] & Hk); eauto.
Qed.

Lemma fold_non_negative (entry : option Entry -> SearchResult -> Entry) (k : Z) :
  (forall o h, (forall e, o = Some e -> non_negative e) -> 0 <= score h ->
               non_negative (entry o h)) ->
  forall hits o,
    (forall h, In h hits -> 0 <= score h) ->
    (forall e, o = Some e -> non_negative e) ->
    forall e, fold_left (at_key entry k) hits o = Some e -> non_negative e.
Proof.
  intros Hentry hits. induction hits as [|h hits IH]; intros o Hs Ho; simpl; trivial.
  apply IH; [auto with datatypes|].
  destruct (at_key_cases entry k o h) as [[Hk ->]|[Hk ->]]; trivial.
  intros e [= <-]. apply Hentry; auto with datatypes.
Qed.

Lemma group_non_negative (N K : list SearchResult) (k : Z) (e : Entry) :
  (forall h, In h N \/ In h K -> 0 <= score h) ->
  In (k, e) (group_results N K) -> non_negative e.
Proof.
  intros Hs Hin. apply In_dict_get in Hin; [|apply group_NoDup].
  rewrite group_get in Hin. revert e Hin.
  apply fold_non_negative; [| auto |].
  { intros o h Ho Hh. unfold keyword_entry. destruct o as [e'|].
    - destruct (Ho e' eq_refl) as [Hn Hk].
      destruct (Qltb (e_keyword_score e') _); [|now split].
      destruct (Qltb _ _); now split.
    - split; cbn; [discriminate | trivial]. }
  apply fold_non_negative; [| auto |].
  { intros o h Ho Hh. unfold neural_entry. destruct o as [e'|].
    - destruct (Ho e' eq_refl) as [Hn Hk].
      destruct (Qltb _ _); now split.
    - split; cbn; [trivial | discriminate]. }
  intros e [=].
Qed.

(** With nothing below the cut, the output has one result per key. *)
Lemma merge_ids_all (eng : Engine) (N K : list SearchResult) (k : Z) :
  0 <= neural_weight eng -> 0 <= keyword_weight eng -> min_score eng <= 0 ->
  (forall h, In h N \/ In h K -> 0 <= score h) ->
  In k (result_repo_ids (_merge_results eng N K))
  <-> In k (map fst (group_results N K)).
Proof.
  intros Hnw Hkw Hmin Hs. unfold result_repo_ids. rewrite !in_map_iff. split.
  - intros (r & <- & Hr). apply merge_In in Hr as (k & e & Hin & Hm).
    apply merged_of_fields in Hm as (_ & _ & -> & _).
    rewrite (group_keyed N K k e Hin). exists (k, e). auto.
  - intros ([k' e] & <- & Hin). cbn [fst].
    destruct (group_non_negative N K k' e Hs Hin) as [Hn Hk].
    pose proof (normalized_keyword_range e Hk) as Hnk.
    assert (Hkeep : Qltb (combined_score eng e) (min_score eng) = false).
    { apply Qltb_ge. unfold combined_score.
      set (x := normalized_keyword e) in *. nra. }
    eexists. split.
    + shelve.
    + apply merge_In. exists k', e. split; trivial.
      unfold merged_of. rewrite Hkeep. reflexivity.
    Unshelve. cbn. now apply group_keyed with (N := N) (K := K).
Qed.



End CommuteProps.

Module FilterProps.
Import PyStr SearchEngine SearchFixtures.

(** C1, as stated, fails: a result whose repository has no ["language"]
    passes a filter on ["language"]. *)
Lemma filter_fail_closed_counterexample :
  repo_get "language" (repository only_stars) = None
  /\ _apply_filters [only_stars] [("language", FLit (VStr "Python"))]
     = Some [only_stars].
Proof. split; reflexivity. Qed.

Lemma include_result_skips (repo : Repository) (field : string)
      (filter_value : FilterValue) (before after : list (string * FilterValue)) :
  repo_get field repo = None ->
  include_result repo (before ++ (field, filter_value) :: after)
  = include_result repo (before ++ after).
Proof.
  intro Habs. induction before as [|[f v] before IH]; simpl.
  - now rewrite Habs.
  - rewrite IH. reflexivity.
Qed.

(** On a list whose records all lack a field, the filter stage returns
    what it returns without the filter on that field. *)
Lemma filter_without_absent_entry (results : list SearchResult)
      (field : string) (filter_value : FilterValue)
      (before after : list (string * FilterValue)) :
  (forall r, In r results -> repo_get field (repository r) = None) ->
  _apply_filters results (before ++ (field, filter_value) :: after)
  = _apply_filters results (before ++ after).
Proof.
  induction results as [|r results IH]; intro Habs; simpl; trivial.
  rewrite include_result_skips by auto with datatypes.
  rewrite IH by auto with datatypes. reflexivity.
Qed.

(** [include] ends as [True] exactly when every filter whose field is
    present on the record matches. *)
Lemma include_result_true (repo : Repository)
      (filters : list (string * FilterValue)) :
  include_result repo filters = Some true
  <-> Forall (matches_present repo) filters.
Proof.
  induction filters as [|[field filter_value] filters IH]; cbn [include_result].
  - split; [constructor | reflexivity].
  - destruct (repo_get field repo) as [field_value|] eqn:Ef.
    + destruct (check_field field_value filter_value) as [[|]|] eqn:Ec.
      * rewrite IH. split.
        -- intro H. constructor; trivial. intros v. cbn [fst snd].
           rewrite Ef. now intros [= <-].
        -- intro H. now inversion H.
      * split; [discriminate|]. intro H. inversion H as [|? ? Hm _]; subst.
        specialize (Hm field_value Ef). cbn [snd] in Hm. congruence.
      * split; [discriminate|]. intro H. inversion H as [|? ? Hm _]; subst.
        specialize (Hm field_value Ef). cbn [snd] in Hm. congruence.
    + rewrite IH. split.
      * intro H. constructor; trivial. intros v. cbn [fst].
        rewrite Ef. discriminate.
      * intro H. now inversion H.
Qed.

(** When the filter stage returns, it kept the results of its input whose
    [include] ended as [True]. *)
Lemma apply_filters_kept (results kept : list SearchResult)
      (filters : list (string * FilterValue)) (r : SearchResult) :
  _apply_filters results filters = Some kept ->
  (In r kept
   <-> In r results /\ include_result (repository r) filters = Some true).
Proof.
  revert kept. induction results as [|x results IH]; intro kept;
    cbn [_apply_filters].
  - intros [= <-]. simpl. tauto.
  - destruct (include_result (repository x) filters) as [include|] eqn:Ex;
      [|discriminate].
    destruct (_apply_filters results filters) as [rest|]; [|discriminate].
    specialize (IH rest eq_refl). intros [= <-].
    destruct include; cbn [In]; rewrite ?IH; split.
    + intros [<-|[H1 H2]]; auto.
    + intros [[<-|H1] H2]; auto.
    + intros [H1 H2]; auto.
    + intros [[<-|H1] H2]; [congruence | auto].
Qed.

(** C1, amended: a filter on a field that a result's repository record
    lacks is skipped, not failed.  Whenever the filter stage returns, a
    result of its input is kept exactly when every filter whose field is
    present on its record matches; so a result that lacks all the filtered
    fields is kept, whatever the other results hold. *)
Theorem filter_skips_absent_field (results kept : list SearchResult)
        (filters : list (string * FilterValue)) (r : SearchResult) :
  _apply_filters results filters = Some kept ->
  In r results ->
  (In r kept <-> Forall (matches_present (repository r)) filters)
  /\ ((forall f, In f filters -> repo_get (fst f) (repository r) = None) ->
      In r kept).
Proof.
  intros Hk Hin.
  assert (Hiff : In r kept <-> Forall (matches_present (repository r)) filters).
  { rewrite (apply_filters_kept results kept filters r Hk).
    rewrite include_result_true. tauto. }
  split; trivial. intro Habs. apply Hiff, Forall_forall.
  intros f Hf v Hv. rewrite (Habs f Hf) in Hv. discriminate.
Qed.

Lemma filter_skips_absent_field_witness :
  (In only_stars [only_stars]
   <-> Forall (matches_present (repository only_stars)) python_only)
  /\ ((forall f, In f python_only ->
                 repo_get (fst f) (repository only_stars) = None) ->
      In only_stars [only_stars]).
Proof.
  apply (filter_skips_absent_field [only_stars; rust_hit] [only_stars]
                                   python_only only_stars).
  - reflexivity.
  - left. reflexivity.
Defined.

End FilterProps.

(* ------------------------------------------------------------------ *)
(** ** Further properties of the code *)

Module ChunkerExtras.
Import PyStr Re ContentProcessor ChunkFixtures StrFacts WindowFacts ReFacts
       ChunkerProps WordFacts SectionFacts CleanFacts HybridFacts.
Local Open Scope nat_scope.

(** *** Semantic chunking *)

Lemma section_chunks_from (repo : Repo) (secs : list string) (n : nat) :
  Forall (fun g => g = EmptyString \/ g = NL) secs ->
  map (section_chunk repo) (combine (seq n (List.length secs)) secs)
  = map (fun i => section_chunk repo (i, EmptyString))
        (seq n (List.length secs)).
Proof.
  intro H. revert n. induction H as [|g secs Hg _ IH]; intro n; trivial.
  cbn [List.length seq combine map]. rewrite IH. f_equal.
  destruct Hg as [-> | ->]; reflexivity.
Qed.

(** X1: For a text with headers, semantic chunking depends on the text only
    through the number of matches of the header pattern: chunk [i] has id
    ["{id}-{i}"], [section_index] [i] and the context line with its blank
    line as whole content. *)
Theorem semantic_chunks_shape (cfg : Config) (text : string) (repo : Repo) :
  findall header_pattern text <> [] ->
  _semantic_chunking cfg text repo
  = Some (map (fun i =>
                 {| id := str_of_Z (r_id repo) ++ "-" ++ str_of_nat i;
                    repo_id := r_id repo;
                    repo_name := r_full_name repo;
                    content := readme_prefix repo;
                    chunk_type := readme_section;
                    section_index := Some i;
                    window_index := None |})
              (seq 0 (List.length (findall header_pattern text)))).
Proof.
  intro Hne. unfold _semantic_chunking.
  pose proof (scan_groups text 0 0) as Hg. fold (findall header_pattern text) in Hg.
  destruct (findall header_pattern text) as [|g l] eqn:E; [contradiction|].
  f_equal. unfold enumerate. rewrite (section_chunks_from repo _ 0 Hg).
  apply map_ext. intro i. unfold section_chunk, readme_prefix.
  change (strip EmptyString) with EmptyString. now rewrite append_empty_r.
Qed.

Lemma semantic_chunks_shape_witness :
  _semantic_chunking hundred_cfg install_usage plain_repo
  = Some (map (fun i =>
                 {| id := str_of_Z (r_id plain_repo) ++ "-" ++ str_of_nat i;
                    repo_id := r_id plain_repo;
                    repo_name := r_full_name plain_repo;
                    content := readme_prefix plain_repo;
                    chunk_type := readme_section;
                    section_index := Some i;
                    window_index := None |})
              (seq 0 (List.length (findall header_pattern install_usage)))).
Proof.
  apply (semantic_chunks_shape hundred_cfg install_usage plain_repo).
  vm_compute. discriminate.
Defined.

(** *** Windows *)

Lemma windows_bounds (cfg : Config) (words : list string)
      (ws : list (nat * list string)) :
  windows cfg words = Some ws ->
  Forall (fun w => chunk_overlap cfg <= List.length (snd w)
                   /\ List.length (snd w) <= max_chunk_size cfg) ws.
Proof.
  unfold windows. destruct (range_by _ _ _) as [starts|]; [|discriminate].
  intros [= <-]. apply Forall_forall. intros w Hw.
  apply in_flat_map in Hw as (i & _ & Hw).
  destruct (_ <? _) eqn:E; [contradiction|]. destruct Hw as [<-|[]].
  cbn [snd]. apply Nat.ltb_ge in E. split; trivial.
  rewrite length_slice. lia.
Qed.

Lemma In_slice {A} (xs : list A) (i j : nat) (x : A) :
  In x (slice xs i j) -> In x xs.
Proof.
  unfold slice. intro H.
  assert (Hs : In x (skipn i xs)).
  { revert H. generalize (skipn i xs) (j - i). intros l n. revert n.
    induction l as [|y l IH]; intros [|n]; simpl; try tauto.
    intros [->|H]; eauto. }
  rewrite <- (firstn_skipn i xs). apply in_or_app. now right.
Qed.

(** X2: Every sliding-window chunk is the context line, a blank line and
    words of the text joined by single spaces: between [chunk_overlap] and
    [max_chunk_size] of them, whatever the configuration. *)
Theorem sliding_chunk_content (cfg : Config) (text : string) (repo : Repo)
        (chunks : list Chunk) :
  no_newline (r_full_name repo) = true ->
  _sliding_window_chunking cfg text repo = Some chunks ->
  Forall (fun c =>
            content c = readme_prefix repo ++ join " " (chunk_words c)
            /\ chunk_overlap cfg <= List.length (chunk_words c)
            /\ List.length (chunk_words c) <= max_chunk_size cfg
            /\ Forall (fun w => In w (split_ws text)) (chunk_words c))
         chunks.
Proof.
  intros Hn. unfold _sliding_window_chunking.
  destruct (windows cfg (split_ws text)) as [ws|] eqn:Hws; [|discriminate].
  intros [= <-]. pose proof (windows_bounds _ _ _ Hws) as Hb.
  apply windows_are_slices in Hws.
  apply Forall_forall. intros c Hc.
  apply in_map_iff in Hc as (w & <- & Hw).
  rewrite Forall_forall in Hb, Hws.
  destruct (Hb w Hw) as [Hlo Hhi]. destruct (Hws w Hw) as (i & j & Hs).
  rewrite window_chunk_words; trivial.
  2:{ rewrite Hs. apply slice_words, split_ws_words. }
  repeat split; trivial.
  - destruct w as [k cw]. unfold window_chunk, readme_prefix. cbn [content snd].
    now rewrite append_assoc.
  - rewrite Hs. apply Forall_forall. intros x Hx. now apply In_slice in Hx.
Qed.

Lemma sliding_chunk_content_witness :
  Forall (fun c =>
            content c = readme_prefix plain_repo ++ join " " (chunk_words c)
            /\ 2 <= List.length (chunk_words c)
            /\ List.length (chunk_words c) <= 4
            /\ Forall (fun w => In w (split_ws "a b c d e")) (chunk_words c))
         (map (window_chunk plain_repo)
              [(0, ["a"; "b"; "c"; "d"]); (1, ["c"; "d"; "e"])]).
Proof.
  apply (sliding_chunk_content small_cfg "a b c d e" plain_repo).
  - reflexivity.
  - reflexivity.
Defined.

Lemma str_of_nat_inj (a b : nat) : str_of_nat a = str_of_nat b -> a = b.
Proof.
  unfold str_of_nat. intro H.
  assert (Hnil : forall n, Nat.to_uint n <> Decimal.Nil).
  { intro n. rewrite <- (DecimalNat.Unsigned.of_to n) at 1. rewrite DecimalNat.Unsigned.to_of.
    apply DecimalFacts.unorm_nonnil. }
  apply DecimalNat.Unsigned.to_uint_inj.
  pose proof (NilZero.usu _ (Hnil a)) as Ha.
  pose proof (NilZero.usu _ (Hnil b)) as Hb.
  rewrite H in Ha. congruence.
Qed.

Lemma append_inj_l (p a b : string) : p ++ a = p ++ b -> a = b.
Proof. induction p; simpl; intro H; [trivial | injection H; auto]. Qed.

Lemma NoDup_map_inj {A B} (f : A -> B) (l : list A) :
  (forall a b, f a = f b -> a = b) -> NoDup l -> NoDup (map f l).
Proof.
  intros Hf H. induction H as [|x l Hx _ IH]; simpl; constructor; trivial.
  intro Hin. apply in_map_iff in Hin as (y & Hy & Hin).
  apply Hf in Hy. now subst.
Qed.

(** X3: With the overlap below the window size, the sliding-window chunks
    carry the window indices 0, 1, 2, ... in order, and no two of them
    share an id. *)
Theorem sliding_chunk_ids (cfg : Config) (text : string) (repo : Repo)
        (chunks : list Chunk) :
  chunk_overlap cfg < max_chunk_size cfg ->
  _sliding_window_chunking cfg text repo = Some chunks ->
  map window_index chunks = map Some (seq 0 (List.length chunks))
  /\ NoDup (map id chunks).
Proof.
  intros Hlt. unfold _sliding_window_chunking.
  destruct (windows_prefix cfg (split_ws text) Hlt) as (m & -> & _).
  intros [= <-]. rewrite !map_map, !length_map, length_seq. split.
  - apply map_ext. reflexivity.
  - cbn [window_chunk window_at id].
    apply NoDup_map_inj; [|apply seq_NoDup].
    intros a b H. apply append_inj_l in H. apply append_inj_l in H.
    now apply str_of_nat_inj.
Qed.

Lemma sliding_chunk_ids_witness :
  map window_index
      (map (window_chunk plain_repo)
           [(0, ["a"; "b"; "c"; "d"]); (1, ["c"; "d"; "e"])])
  = map Some (seq 0 2)
  /\ NoDup (map id (map (window_chunk plain_repo)
                        [(0, ["a"; "b"; "c"; "d"]); (1, ["c"; "d"; "e"])])).
Proof.
  apply (sliding_chunk_ids small_cfg "a b c d e" plain_repo).
  - simpl. lia.
  - reflexivity.
Defined.

End ChunkerExtras.

Module CleanExtras.
Import PyStr Re ContentProcessor ChunkFixtures StrFacts WindowFacts ReFacts
       ChunkerProps WordFacts SectionFacts CleanFacts HybridFacts.
Local Open Scope nat_scope.

Lemma take_all (n : nat) (s : string) : String.length s <= n -> take n s = s.
Proof.
  revert n. induction s as [|c s IH]; intros [|n] H; simpl in *; trivial.
  - lia.
  - rewrite IH; [trivial | lia].
Qed.

Lemma length_take (n : nat) (s : string) : String.length (take n s) <= n.
Proof.
  revert n. induction s as [|c s IH]; intros [|n]; simpl; try lia.
  specialize (IH n). lia.
Qed.

(** X6: What lies beyond [max_readme_size] characters has no effect on the
    chunks: processing a README is processing its first [max_readme_size]
    characters. *)
Theorem process_readme_truncates (render : string -> string) (cfg : Config)
        (text : string) (repo : Repo) :
  process_readme render cfg text repo
  = process_readme render cfg (take (max_readme_size cfg) text) repo.
Proof.
  unfold process_readme.
  destruct (max_readme_size cfg <? String.length text) eqn:E.
  - pose proof (length_take (max_readme_size cfg) text) as Hl.
    apply Nat.ltb_ge in Hl. now rewrite Hl.
  - apply Nat.ltb_ge in E. rewrite (take_all _ _ E).
    apply Nat.ltb_ge in E. now rewrite E.
Qed.

Lemma words_from_space (s : string) :
  match s with
  | String c _ => is_space c = true
  | EmptyString => True
  end ->
  fst (words_from s) = EmptyString.
Proof.
  destruct s as [|c s]; trivial. simpl. intros ->.
  now destruct (words_from s).
Qed.

Lemma push_word_empty (ws : list string) : push_word EmptyString ws = ws.
Proof. reflexivity. Qed.

Lemma words_from_collapse_ws (s : string) :
  words_from (collapse_ws s) = words_from s.
Proof.
  induction s as [|c s IH]; trivial. cbn [collapse_ws words_from].
  destruct (is_space c) eqn:Hc.
  - destruct (starts_with_space (collapse_ws s)) eqn:Hs.
    + rewrite <- IH.
      assert (fst (words_from (collapse_ws s)) = EmptyString) as Hw.
      { apply words_from_space. destruct (collapse_ws s) as [|x r]; trivial.
        simpl in Hs. apply Ascii.eqb_eq in Hs. now subst. }
      destruct (words_from (collapse_ws s)) as [w ws]. cbn [fst] in Hw.
      subst w. reflexivity.
    + cbn [words_from]. change (is_space " "%char) with true. now rewrite IH.
  - cbn [words_from]. now rewrite Hc, IH.
Qed.

Lemma words_from_collapse_newlines (s : string) :
  words_from (collapse_newlines s) = words_from s.
Proof.
  induction s as [|c s IH]; trivial. cbn [collapse_newlines words_from].
  destruct (is_nl c && starts_with_two_nl (collapse_newlines s)) eqn:Hd.
  - apply andb_true_iff in Hd as [Hc Hs]. rewrite (nl_is_space c Hc), <- IH.
    assert (fst (words_from (collapse_newlines s)) = EmptyString) as Hw.
    { apply words_from_space.
      destruct (collapse_newlines s) as [|x [|y r]]; trivial; simpl in Hs;
        try discriminate.
      apply andb_true_iff in Hs as [Hx _]. now apply nl_is_space. }
    destruct (words_from (collapse_newlines s)) as [w ws]. cbn [fst] in Hw.
    subst w. reflexivity.
  - cbn [words_from]. now rewrite IH.
Qed.

Lemma collapse_ws_starts (s : string) :
  match s with
  | String c _ => is_space c = true
  | EmptyString => False
  end ->
  starts_with_space (collapse_ws s) = true.
Proof.
  destruct s as [|c s]; [contradiction|]. simpl. intros ->.
  destruct (starts_with_space (collapse_ws s)) eqn:E; trivial.
Qed.

(** The first substitution of [_clean_content] changes nothing in its
    result: the second one alone gives the same text. *)
Lemma collapse_newlines_dead (s : string) :
  collapse_ws (collapse_newlines s) = collapse_ws s.
Proof.
  induction s as [|c s IH]; trivial. cbn [collapse_newlines].
  destruct (is_nl c && starts_with_two_nl (collapse_newlines s)) eqn:Hd.
  - apply andb_true_iff in Hd as [Hc Hs]. cbn [collapse_ws].
    rewrite (nl_is_space c Hc), <- IH.
    rewrite collapse_ws_starts; trivial.
    destruct (collapse_newlines s) as [|x [|y r]]; simpl in Hs;
      try discriminate.
    apply andb_true_iff in Hs as [Hx _]. now apply nl_is_space.
  - cbn [collapse_ws]. now rewrite IH.
Qed.

Lemma clean_split (render : string -> string) (text : string) :
  split_ws (_clean_content render text) = split_ws (render text).
Proof.
  unfold _clean_content, split_ws.
  now rewrite words_from_collapse_ws, words_from_collapse_newlines.
Qed.

(** X7: Cleaning touches whitespace only: the cleaned text is the rendered
    text with each run of whitespace made one space, it has no newline and
    its words are the words of the rendered text. *)
Theorem clean_content_words (render : string -> string) (text : string) :
  _clean_content render text = collapse_ws (render text)
  /\ no_newline (_clean_content render text) = true
  /\ split_ws (_clean_content render text) = split_ws (render text).
Proof.
  split; [apply collapse_newlines_dead|].
  split; [apply collapse_ws_no_newline | apply clean_split].
Qed.

(** X8: So the sliding-window chunks of a README are those of its rendered
    text. *)
Theorem sliding_ignores_cleaning (render : string -> string) (cfg : Config)
        (text : string) (repo : Repo) :
  _sliding_window_chunking cfg (_clean_content render text) repo
  = _sliding_window_chunking cfg (render text) repo.
Proof.
  unfold _sliding_window_chunking. now rewrite clean_split.
Qed.

End CleanExtras.

Module HybridExtras.
Import PyStr Re ContentProcessor ChunkFixtures StrFacts WindowFacts ReFacts
       ChunkerProps WordFacts SectionFacts CleanFacts HybridFacts.
Local Open Scope nat_scope.

Lemma windows_of_nothing (cfg : Config) :
  chunk_overlap cfg <> max_chunk_size cfg -> windows cfg [] = Some [].
Proof.
  intro H. unfold windows, range_by. cbn [List.length].
  destruct (chunk_overlap cfg <? max_chunk_size cfg) eqn:E.
  - apply Nat.ltb_lt in E.
    replace ((0 + (max_chunk_size cfg - chunk_overlap cfg) - 1)
             / (max_chunk_size cfg - chunk_overlap cfg)) with 0; trivial.
    symmetry. apply Nat.div_small. lia.
  - destruct (chunk_overlap cfg =? max_chunk_size cfg) eqn:E'; trivial.
    apply Nat.eqb_eq in E'. contradiction.
Qed.

Lemma hybrid_loop_over_budget (cfg : Config) (repo : Repo)
      (items : list (nat * Chunk)) (final : list Chunk) (has : bool) :
  no_newline (r_full_name repo) = true ->
  chunk_overlap cfg <> max_chunk_size cfg ->
  max_chunk_size cfg < List.length (split_ws (readme_prefix repo)) ->
  Forall (fun e => content (snd e) = readme_prefix repo) items ->
  hybrid_loop cfg repo items final has = Some (final, has).
Proof.
  intros Hn Hne Hbig H. revert final.
  induction H as [|[i c] items Hc _ IH]; intro final; cbn [hybrid_loop]; trivial.
  cbn [snd] in Hc. rewrite Hc. apply Nat.ltb_lt in Hbig. rewrite Hbig.
  unfold readme_prefix.
  rewrite <- (append_empty_r (repo_header repo ++ NL2)), append_assoc.
  rewrite split_headed; [|now apply repo_header_no_newline | reflexivity].
  cbn [tl join String.concat]. change (split_ws EmptyString) with (@nil string).
  rewrite (windows_of_nothing cfg Hne). cbn [map is_nil negb].
  rewrite app_nil_r, orb_false_r. apply IH.
Qed.

(** X5: When the context line alone has more words than [max_chunk_size],
    hybrid chunking loses every section of a text with headers: what comes
    back is empty, or the forced chunk alone when the text names the
    literal. *)
Theorem hybrid_sections_dropped (cfg : Config) (text : string) (repo : Repo) :
  no_newline (r_full_name repo) = true ->
  chunk_overlap cfg <> max_chunk_size cfg ->
  findall header_pattern text <> [] ->
  max_chunk_size cfg < List.length (split_ws (readme_prefix repo)) ->
  exists first others,
    _semantic_chunking cfg text repo = Some (first :: others)
    /\ _hybrid_chunking cfg text repo
       = Some (if contains literal text
               then [forced_hybrid_chunk repo first] else []).
Proof.
  intros Hn Hne Hsec Hbig.
  destruct (_semantic_chunking cfg text repo) as [sem|] eqn:Es.
  2:{ unfold _semantic_chunking in Es.
      destruct (findall header_pattern text); [contradiction | discriminate]. }
  pose proof (section_chunks_blank cfg text repo sem Hsec Es) as Hblank.
  assert (Hshape : exists first others,
             sem = first :: others /\ chunk_type first = readme_section).
  { unfold _semantic_chunking in Es.
    destruct (findall header_pattern text) as [|g l]; [contradiction|].
    injection Es as <-. eexists. eexists. split; reflexivity. }
  destruct Hshape as (first & others & -> & Ht).
  exists first, others. split; trivial.
  unfold _hybrid_chunking. rewrite Es. cbn [first_is_window].
  rewrite Ht. cbn [ChunkType_eqb].
  rewrite hybrid_loop_over_budget; trivial.
  - cbn [negb app]. rewrite andb_true_r. unfold literal.
    now destruct (contains _ text).
  - now apply (Forall_enumerate (fun c => content c = readme_prefix repo)).
Qed.

Lemma hybrid_sections_dropped_witness :
  exists first others,
    _semantic_chunking one_word_cfg notes_without plain_repo
    = Some (first :: others)
    /\ _hybrid_chunking one_word_cfg notes_without plain_repo
       = Some (if contains literal notes_without
               then [forced_hybrid_chunk plain_repo first] else []).
Proof.
  apply (hybrid_sections_dropped one_word_cfg notes_without plain_repo).
  - reflexivity.
  - discriminate.
  - vm_compute. discriminate.
  - vm_compute. lia.
Defined.

Lemma hybrid_with_sections_witness :
  exists first others,
    _semantic_chunking hundred_cfg notes_with plain_repo
    = Some (first :: others)
    /\ _hybrid_chunking hundred_cfg notes_with plain_repo
       = Some ((first :: others)
               ++ (if contains literal notes_with
                   then [forced_hybrid_chunk plain_repo first] else []))%list.
Proof.
  apply (hybrid_with_sections hundred_cfg notes_with plain_repo).
  - vm_compute. discriminate.
  - vm_compute. lia.
Defined.

Lemma sections_one_line (cfg : Config) (clean : string) (repo : Repo)
      (chunks : list Chunk) :
  no_newline clean = true ->
  _semantic_chunking cfg clean repo = Some chunks ->
  List.length (filter is_section chunks) <= 1.
Proof.
  intros Hn. unfold _semantic_chunking.
  pose proof (findall_one_line clean Hn) as Hone.
  destruct (findall header_pattern clean) as [|g [|g' l]];
    [| |simpl in Hone; lia].
  - unfold _sliding_window_chunking.
    destruct (windows cfg (split_ws clean)) as [ws|]; [|discriminate].
    intros [= <-].
    enough (filter is_section (map (window_chunk repo) ws) = []) as ->
      by (simpl; lia).
    induction ws as [|[n w] ws IH]; trivial.
  - intros [= <-]. simpl. lia.
Qed.

Lemma hybrid_one_line (cfg : Config) (clean : string) (repo : Repo)
      (chunks : list Chunk) :
  no_newline clean = true ->
  _hybrid_chunking cfg clean repo = Some chunks ->
  List.length (filter is_section chunks) <= 1.
Proof.
  intros Hn.
  pose proof (findall_one_line clean Hn) as Hone.
  destruct (findall header_pattern clean) as [|g [|g' l]] eqn:Ef;
    [| |simpl in Hone; lia].
  - unfold _hybrid_chunking, _semantic_chunking. rewrite Ef.
    destruct (_sliding_window_chunking cfg clean repo) as [sl|] eqn:Esl;
      [|discriminate].
    unfold _sliding_window_chunking in Esl.
    destruct (windows cfg (split_ws clean)) as [ws|]; [|discriminate].
    injection Esl as <-.
    destruct ws as [|[n w] ws].
    + intros [= <-]. simpl. lia.
    + cbn [map first_is_window window_chunk chunk_type ChunkType_eqb].
      intros [= <-].
      cbn [filter relabel_hybrid is_section chunk_type ChunkType_eqb].
      enough (filter is_section
                (map relabel_hybrid (map (window_chunk repo) ws)) = []) as ->
        by (simpl; lia).
      induction ws as [|w' ws IH]; trivial.
  - unfold _hybrid_chunking, _semantic_chunking. rewrite Ef.
    cbn [enumerate List.length seq combine map first_is_window section_chunk
         chunk_type ChunkType_eqb hybrid_loop content].
    destruct (max_chunk_size cfg <? _).
    + destruct (windows cfg _) as [ws|]; [|discriminate].
      cbn [hybrid_loop app].
      assert (Hsub : forall ctx,
                 filter is_section (map (sub_chunk repo ctx 0) ws) = []).
      { intro ctx. induction ws as [|[n w] ws IH]; trivial. }
      destruct (_ && _); intros [= <-].
      * rewrite filter_app, Hsub. simpl. lia.
      * rewrite Hsub. simpl. lia.
    + cbn [hybrid_loop app].
      destruct (_ && _); intros [= <-]; simpl; lia.
Qed.

(** X9: Whatever the strategy and however the README is rendered,
    [process_readme] returns at most one chunk tagged [readme_section]: the
    cleaned text is one line, and a header is found at its start only. *)
Theorem process_readme_one_section (render : string -> string) (cfg : Config)
        (text : string) (repo : Repo) (chunks : list Chunk) :
  process_readme render cfg text repo = Some chunks ->
  List.length (filter is_section chunks) <= 1.
Proof.
  unfold process_readme.
  set (body := if max_readme_size cfg <? String.length text
               then take (max_readme_size cfg) text else text).
  assert (Hn : no_newline (_clean_content render body) = true)
    by apply collapse_ws_no_newline.
  destruct (String.eqb (chunk_strategy cfg) "semantic").
  - now apply sections_one_line.
  - destruct (String.eqb (chunk_strategy cfg) "sliding").
    + unfold _sliding_window_chunking.
      destruct (windows cfg _) as [ws|]; [|discriminate]. intros [= <-].
      enough (filter is_section (map (window_chunk repo) ws) = []) as ->
        by (simpl; lia).
      induction ws as [|[n w] ws IH]; trivial.
    + now apply hybrid_one_line.
Qed.

Lemma process_readme_one_section_witness :
  List.length
    (filter is_section
       [{| id := "42-0"; repo_id := 42; repo_name := "octo/cat";
           content := readme_prefix plain_repo;
           chunk_type := readme_section;
           section_index := Some 0; window_index := None |}]) <= 1.
Proof.
  apply (process_readme_one_section (fun s => s) hundred_cfg install_usage
                                    plain_repo).
  vm_compute. reflexivity.
Defined.

End HybridExtras.

Module TypeFacts.
Import PyStr Re ContentProcessor.
Local Open Scope nat_scope.

Lemma sliding_windows_only (cfg : Config) (text : string) (repo : Repo)
      (chunks : list Chunk) :
  _sliding_window_chunking cfg text repo = Some chunks ->
  Forall (fun c => belongs_to repo c /\ chunk_type c = readme_window) chunks.
Proof.
  unfold _sliding_window_chunking.
  destruct (windows cfg (split_ws text)) as [ws|]; [|discriminate].
  intros [= <-]. apply Forall_forall. intros c Hc.
  apply in_map_iff in Hc as ([i w] & <- & _). now repeat split.
Qed.

(** Semantic chunking gives sections, or else the windows of its
    fallback, never a mix. *)
Lemma semantic_cases (cfg : Config) (text : string) (repo : Repo)
      (chunks : list Chunk) :
  _semantic_chunking cfg text repo = Some chunks ->
  Forall (fun c => belongs_to repo c /\ chunk_type c = readme_section) chunks
  \/ Forall (fun c => belongs_to repo c /\ chunk_type c = readme_window) chunks.
Proof.
  unfold _semantic_chunking.
  destruct (findall header_pattern text) as [|s l].
  - right. eapply sliding_windows_only; eauto.
  - generalize (s :: l). intros secs [= <-]. left.
    apply Forall_forall. intros c Hc.
    apply in_map_iff in Hc as ([i w] & <- & _). now repeat split.
Qed.

Lemma hybrid_loop_types (cfg : Config) (repo : Repo)
      (items : list (nat * Chunk)) :
  Forall (fun e => belongs_to repo (snd e)
                   /\ chunk_type (snd e) = readme_section) items ->
  forall final has final' has',
    Forall (fun c => belongs_to repo c
                     /\ allowed_type "hybrid" (chunk_type c) = true) final ->
    hybrid_loop cfg repo items final has = Some (final', has') ->
    Forall (fun c => belongs_to repo c
                     /\ allowed_type "hybrid" (chunk_type c) = true) final'.
Proof.
  induction 1 as [|[i c] items [Hb Ht] _ IH]; intros final has final' has' Hf;
    cbn [hybrid_loop].
  - now intros [= <- _].
  - cbn [snd] in *. destruct (max_chunk_size cfg <? _).
    + destruct (windows cfg _) as [ws|]; [|discriminate].
      apply IH. apply Forall_app. split; trivial.
      apply Forall_forall. intros x Hx.
      apply in_map_iff in Hx as ([j w] & <- & _). now repeat split.
    + apply IH. apply Forall_app. split; trivial.
      constructor; [|constructor]. split; trivial. now rewrite Ht.
Qed.

Lemma Forall_enumerate' {A} (P : A -> Prop) (l : list A) :
  Forall P l -> Forall (fun e => P (snd e)) (enumerate l).
Proof.
  intro H. apply Forall_forall. intros [i x] Hx. cbn [snd].
  unfold enumerate in Hx. apply in_combine_r in Hx.
  rewrite Forall_forall in H. auto.
Qed.

Lemma hybrid_types (cfg : Config) (text : string) (repo : Repo)
      (chunks : list Chunk) :
  _hybrid_chunking cfg text repo = Some chunks ->
  Forall (fun c => belongs_to repo c
                   /\ allowed_type "hybrid" (chunk_type c) = true) chunks.
Proof.
  unfold _hybrid_chunking.
  destruct (_semantic_chunking cfg text repo) as [sem|] eqn:Es; [|discriminate].
  apply semantic_cases in Es.
  destruct (first_is_window sem) eqn:Ef.
  - intros [= <-]. apply Forall_forall. intros c Hc.
    apply in_map_iff in Hc as (c0 & <- & Hc0).
    assert (belongs_to repo c0) as Hb.
    { destruct Es as [Es|Es]; rewrite Forall_forall in Es;
        now destruct (Es c0 Hc0). }
    split; trivial.
  - assert (Hsec : Forall (fun c => belongs_to repo c
                                    /\ chunk_type c = readme_section) sem).
    { destruct Es as [Es|Es]; trivial.
      destruct sem as [|c sem]; [constructor|].
      inversion Es as [|? ? [_ Hc] _]; subst.
      cbn [first_is_window] in Ef. now rewrite Hc in Ef. }
    destruct (hybrid_loop cfg repo (enumerate sem) [] false)
      as [[final has]|] eqn:El; [|discriminate].
    apply hybrid_loop_types in El;
      [| now apply (Forall_enumerate'
                      (fun c => belongs_to repo c
                                /\ chunk_type c = readme_section))
       | constructor].
    destruct sem as [|c sem]; [now intros [= <-]|].
    destruct (_ && _); intros [= <-]; trivial.
    apply Forall_app. split; trivial. constructor; [|constructor].
    now repeat split.
Qed.

End TypeFacts.

Module TypeProps.
Import PyStr Re ContentProcessor ChunkFixtures TypeFacts.
Local Open Scope nat_scope.

(** X10: Every chunk [process_readme] returns carries the id and the name of
    the repository, and its type is one the strategy can give: windows for
    ["sliding"], sections or windows for ["semantic"], sections or hybrid
    chunks, never a window, for the hybrid strategy. *)
Theorem process_readme_chunk_types (render : string -> string)
        (cfg : Config) (text : string) (repo : Repo) (chunks : list Chunk) :
  process_readme render cfg text repo = Some chunks ->
  Forall (fun c => belongs_to repo c
                   /\ allowed_type (chunk_strategy cfg) (chunk_type c) = true)
         chunks.
Proof.
  unfold process_readme, allowed_type.
  destruct (String.eqb (chunk_strategy cfg) "semantic").
  - intro H. apply semantic_cases in H as [H|H];
      (eapply Forall_impl; [|exact H]); intros c [Hb ->]; now split.
  - destruct (String.eqb (chunk_strategy cfg) "sliding").
    + intro H. apply sliding_windows_only in H.
      eapply Forall_impl; [|exact H]. intros c [Hb ->]. now split.
    + apply hybrid_types.
Qed.

Lemma process_readme_chunk_types_witness :
  Forall (fun c => belongs_to plain_repo c
                   /\ allowed_type "hybrid" (chunk_type c) = true)
         [notes_section].
Proof.
  apply (process_readme_chunk_types (fun s => s) hundred_cfg install_usage
                                    plain_repo).
  vm_compute. reflexivity.
Defined.

End TypeProps.

Module SplitFacts.
Import PyStr ContentProcessor StrFacts WordFacts.
Local Open Scope nat_scope.

Lemma push_word_empty_l (ws : list string) : push_word EmptyString ws = ws.
Proof. reflexivity. Qed.

Lemma is_empty_true (s : string) : is_empty s = true -> s = EmptyString.
Proof. now destruct s. Qed.

Lemma is_empty_append (a b : string) :
  is_empty b = false -> is_empty (a ++ b) = false.
Proof. now destruct a. Qed.

Lemma rstrip_append (a b : string) :
  rstrip (a ++ b) = if is_empty (rstrip b) then rstrip a else a ++ rstrip b.
Proof.
  induction a as [|c a IH]; cbn [append rstrip].
  - destruct (is_empty (rstrip b)) eqn:E; trivial. now apply is_empty_true.
  - rewrite IH. destruct (is_empty (rstrip b)) eqn:E; trivial.
    now rewrite (is_empty_append a _ E).
Qed.

Lemma rstrip_no_space (w : string) : no_space w = true -> rstrip w = w.
Proof.
  induction w as [|c w IH]; trivial. simpl. intro H.
  apply andb_true_iff in H as [Hc Hw]. apply negb_true_iff in Hc.
  now rewrite (IH Hw), Hc, andb_false_r.
Qed.

Lemma join_cons2 (w w' : string) (ws : list string) :
  join " " (w :: w' :: ws) = w ++ String " "%char (join " " (w' :: ws)).
Proof. reflexivity. Qed.

Lemma join_nonempty (w : string) (ws : list string) :
  is_empty w = false -> is_empty (join " " (w :: ws)) = false.
Proof.
  intro H. destruct ws as [|w' ws]; [exact H|].
  rewrite join_cons2. now destruct w.
Qed.

Lemma word_parts (w : string) :
  is_word w = true -> is_empty w = false /\ no_space w = true.
Proof.
  unfold is_word. intro H. apply andb_true_iff in H as [He Hw].
  now apply negb_true_iff in He.
Qed.

Lemma rstrip_join (ws : list string) :
  Forall (fun w => is_word w = true) ws ->
  rstrip (join " " ws) = join " " ws.
Proof.
  induction 1 as [|w ws Hw Hws IH]; trivial.
  apply word_parts in Hw as [He Hn].
  destruct ws as [|w' ws]; [now apply rstrip_no_space|].
  rewrite join_cons2, rstrip_append. cbn [rstrip]. rewrite IH.
  inversion Hws as [|? ? Hw' _]; subst. apply word_parts in Hw' as [He' _].
  now rewrite (join_nonempty w' ws He').
Qed.

Lemma lstrip_join (ws : list string) :
  Forall (fun w => is_word w = true) ws ->
  lstrip (join " " ws) = join " " ws.
Proof.
  intro H. destruct H as [|w rest Hw _]; trivial.
  apply word_parts in Hw as [He Hn].
  destruct w as [|c w]; [discriminate|].
  simpl in Hn. apply andb_true_iff in Hn as [Hc _]. apply negb_true_iff in Hc.
  destruct rest as [|w' rest]; [|rewrite join_cons2]; simpl; now rewrite Hc.
Qed.

(** The shape of a whitespace-normalised text: the words with single
    spaces between them, one space in front when the text began with
    whitespace and one behind when it ended with whitespace. *)
Lemma collapse_ws_form (s : string) :
  exists post,
    (post = EmptyString \/ post = " ")
    /\ (split_ws s = [] -> post = EmptyString)
    /\ collapse_ws s
       = match s with
         | String c _ => if is_space c then " " else EmptyString
         | EmptyString => EmptyString
         end ++ join " " (split_ws s) ++ post.
Proof.
  induction s as [|c s (post & Hpost & Hnil & IH)].
  - exists EmptyString. auto.
  - unfold split_ws in *. cbn [collapse_ws words_from].
    destruct (is_space c) eqn:Hc.
    + (* one more whitespace character in front *)
      exists post. destruct (words_from s) as [w ws] eqn:Ew.
      rewrite push_word_empty_l. split; [trivial|]. split; [trivial|].
      destruct s as [|d s'].
      { injection Ew as <- <-. now rewrite (Hnil eq_refl). }
      destruct (is_space d) eqn:Hd.
      * rewrite IH. reflexivity.
      * assert (starts_with_space (collapse_ws (String d s')) = false) as ->.
        { cbn [collapse_ws]. rewrite Hd. simpl.
          destruct (Ascii.eqb_spec d " "%char); trivial. subst. discriminate. }
        rewrite IH. reflexivity.
    + (* one more character of the first word *)
      destruct (words_from s) as [w ws] eqn:Ew. unfold push_word at 1.
      cbn [is_empty]. rewrite IH.
      destruct s as [|d s'].
      * injection Ew as <- <-. rewrite (Hnil eq_refl). exists EmptyString.
        split; [auto|]. split; [discriminate | reflexivity].
      * destruct (is_space d) eqn:Hd.
        -- (* the word ends here *)
           assert (w = EmptyString) as ->.
           { cbn [words_from] in Ew. rewrite Hd in Ew.
             destruct (words_from s'). now injection Ew as <- _. }
           rewrite push_word_empty_l in *.
           destruct ws as [|w' ws].
           ++ rewrite (Hnil eq_refl). exists " ". split; [auto|].
              split; [discriminate | reflexivity].
           ++ exists post. split; [trivial|]. split; [discriminate|].
              unfold push_word. cbn [is_empty]. rewrite join_cons2.
              reflexivity.
        -- (* the word goes on *)
           assert (is_empty w = false) as He.
           { cbn [words_from] in Ew. rewrite Hd in Ew.
             destruct (words_from s'). now injection Ew as <- _. }
           unfold push_word. rewrite He.
           exists post. split; [trivial|]. split; [discriminate|].
           destruct ws as [|w' ws]; [reflexivity|].
           rewrite !join_cons2. reflexivity.
Qed.

End SplitFacts.

Module PreprocessFacts.
Import PyStr ContentProcessor SearchPipeline StrFacts WordFacts SplitFacts.
Local Open Scope nat_scope.

Lemma lstrip_start (a b : string) :
  match a with
  | String c _ => is_space c = false
  | EmptyString => False
  end ->
  lstrip (a ++ b) = a ++ b.
Proof. destruct a as [|c a]; [contradiction|]. simpl. now intros ->. Qed.

(** Collapsing whitespace and stripping is splitting into words and
    joining them with single spaces. *)
Lemma strip_collapse_ws (s : string) :
  strip (ContentProcessor.collapse_ws s) = join " " (split_ws s).
Proof.
  destruct (collapse_ws_form s) as (post & Hpost & Hnil & ->).
  pose proof (split_ws_words s) as Hw.
  set (lead := match s with
               | String c _ => if is_space c then " " else EmptyString
               | EmptyString => EmptyString
               end).
  assert (Hlead : lstrip (lead ++ join " " (split_ws s) ++ post)
                  = lstrip (join " " (split_ws s) ++ post)).
  { unfold lead. destruct s as [|c s']; trivial. now destruct (is_space c). }
  unfold strip. rewrite Hlead.
  destruct (split_ws s) as [|w ws] eqn:E.
  - now rewrite (Hnil eq_refl).
  - assert (lstrip (join " " (w :: ws) ++ post) = join " " (w :: ws) ++ post)
      as ->.
    { apply lstrip_start.
      inversion Hw as [|? ? Hw1 _]; subst. apply word_parts in Hw1 as [He Hn].
      destruct w as [|c w]; [discriminate|].
      simpl in Hn. apply andb_true_iff in Hn as [Hc _].
      apply negb_true_iff in Hc.
      destruct ws; [|rewrite join_cons2]; exact Hc. }
    rewrite rstrip_append.
    assert (is_empty (rstrip post) = true) as ->
      by (destruct Hpost as [-> | ->]; reflexivity).
    now apply rstrip_join.
Qed.

Lemma map_chars_compose (f g : ascii -> ascii) (s : string) :
  map_chars f (map_chars g s) = map_chars (fun c => f (g c)) s.
Proof. induction s; simpl; congruence. Qed.

(** [_preprocess_text] in one line: normalise each character, split into
    words and join them with single spaces. *)
Lemma preprocess_as_join (text : string) :
  _preprocess_text text
  = join " " (split_ws (map_chars normalise_char text)).
Proof.
  unfold _preprocess_text, lower. rewrite map_chars_compose.
  apply strip_collapse_ws.
Qed.

Ltac by_cases c := destruct c as [[] [] [] [] [] [] [] []]; reflexivity.

Lemma normalise_char_kind (c : ascii) :
  token_char (normalise_char c) || is_space (normalise_char c) = true.
Proof. by_cases c. Qed.

Lemma token_char_fixed (c : ascii) :
  token_char c = true -> normalise_char c = c.
Proof. destruct c as [[] [] [] [] [] [] [] []]; intro H; (reflexivity || discriminate H). Qed.

Lemma all_chars_map (p : ascii -> bool) (f : ascii -> ascii) (s : string) :
  (forall c, p (f c) = true) -> all_chars p (map_chars f s) = true.
Proof. intro H. induction s; simpl; [trivial | now rewrite H]. Qed.

Lemma all_chars_append (p : ascii -> bool) (a b : string) :
  all_chars p (a ++ b) = all_chars p a && all_chars p b.
Proof. induction a; simpl; [trivial | now rewrite IHa, andb_assoc]. Qed.

Lemma words_from_all (p : ascii -> bool) (s : string) :
  all_chars p s = true ->
  all_chars p (fst (words_from s)) = true
  /\ Forall (fun w => all_chars p w = true) (snd (words_from s)).
Proof.
  induction s as [|c s IH]; simpl; [auto|]. intro H.
  apply andb_true_iff in H as [Hc Hs]. destruct (IH Hs) as [H1 H2].
  destruct (words_from s) as [w ws]. cbn [fst snd] in *.
  destruct (is_space c); cbn [fst snd].
  - split; trivial. unfold push_word. destruct (is_empty w); auto.
  - split; trivial. simpl. now rewrite Hc.
Qed.

Lemma split_ws_all (p : ascii -> bool) (s : string) :
  all_chars p s = true -> Forall (fun w => all_chars p w = true) (split_ws s).
Proof.
  intro H. apply words_from_all in H as [H1 H2]. unfold split_ws.
  destruct (words_from s) as [w ws]. cbn [fst snd] in *.
  unfold push_word. destruct (is_empty w); auto.
Qed.

Lemma word_token (w : string) :
  is_word w = true ->
  all_chars (fun c => token_char c || is_space c) w = true ->
  is_token w = true.
Proof.
  intros Hw Hall. apply word_parts in Hw as [He Hn]. unfold is_token.
  rewrite He. cbn [negb andb]. clear He.
  induction w as [|c w IH]; trivial. simpl in *.
  apply andb_true_iff in Hn as [Hc Hn]. apply andb_true_iff in Hall as [Hk Hall].
  apply negb_true_iff in Hc. rewrite Hc, orb_false_r in Hk.
  now rewrite Hk, IH.
Qed.

(** The words of the normalised text are tokens. *)
Lemma normalised_tokens (text : string) :
  Forall (fun w => is_token w = true)
         (split_ws (map_chars normalise_char text)).
Proof.
  pose proof (split_ws_words (map_chars normalise_char text)) as Hw.
  pose proof (split_ws_all (fun c => token_char c || is_space c)
                (map_chars normalise_char text)
                (all_chars_map _ _ _ normalise_char_kind)) as Ha.
  revert Hw Ha. generalize (split_ws (map_chars normalise_char text)).
  induction l as [|w l IH]; intros Hw Ha; constructor.
  - inversion Hw; inversion Ha; subst. now apply word_token.
  - inversion Hw; inversion Ha; subst. now apply IH.
Qed.

Lemma token_word (w : string) : is_token w = true -> is_word w = true.
Proof.
  unfold is_token, is_word. intro H. apply andb_true_iff in H as [He Ha].
  rewrite He. cbn [andb]. clear He.
  induction w as [|c w IH]; trivial. simpl in *.
  apply andb_true_iff in Ha as [Hc Ha]. rewrite (IH Ha), andb_true_r.
  apply negb_true_iff.
  destruct c as [[] [] [] [] [] [] [] []]; (reflexivity || discriminate Hc).
Qed.

Lemma tokens_words (ws : list string) :
  Forall (fun w => is_token w = true) ws ->
  Forall (fun w => is_word w = true) ws.
Proof. intro H. eapply Forall_impl; [|exact H]. apply token_word. Qed.

Lemma token_fixed (w : string) :
  all_chars token_char w = true -> map_chars normalise_char w = w.
Proof.
  induction w as [|c w IH]; trivial. simpl. intro H.
  apply andb_true_iff in H as [Hc Hw].
  now rewrite (token_char_fixed c Hc), (IH Hw).
Qed.

Lemma map_chars_append (f : ascii -> ascii) (a b : string) :
  map_chars f (a ++ b) = map_chars f a ++ map_chars f b.
Proof. induction a; simpl; congruence. Qed.

Lemma join_tokens_fixed (ws : list string) :
  Forall (fun w => is_token w = true) ws ->
  map_chars normalise_char (join " " ws) = join " " ws.
Proof.
  induction 1 as [|w ws Hw Hws IH]; trivial.
  unfold is_token in Hw. apply andb_true_iff in Hw as [_ Hw].
  destruct ws as [|w' ws]; [now apply token_fixed|].
  rewrite join_cons2, map_chars_append. cbn [map_chars].
  now rewrite (token_fixed w Hw), IH.
Qed.

Lemma preprocess_split_tokens (text : string) :
  Forall (fun w => is_token w = true) (split_ws (_preprocess_text text)).
Proof.
  rewrite preprocess_as_join.
  pose proof (normalised_tokens text) as Ht.
  now rewrite (split_ws_join _ (tokens_words _ Ht)).
Qed.

End PreprocessFacts.

Module PreprocessProps.
Import PyStr ContentProcessor SearchPipeline StrFacts WordFacts SplitFacts
       PreprocessFacts.
Local Open Scope nat_scope.

(** X11: The preprocessed text is its own tokens joined by single spaces, and
    every token is a non-empty run of lower-case word characters. *)
Theorem preprocess_tokens (text : string) :
  join " " (split_ws (_preprocess_text text)) = _preprocess_text text
  /\ Forall (fun w => is_token w = true) (split_ws (_preprocess_text text)).
Proof.
  rewrite preprocess_as_join.
  pose proof (normalised_tokens text) as Ht.
  rewrite (split_ws_join _ (tokens_words _ Ht)). auto.
Qed.

(** X12: Preprocessing a preprocessed text changes nothing. *)
Theorem preprocess_idempotent (text : string) :
  _preprocess_text (_preprocess_text text) = _preprocess_text text.
Proof.
  rewrite (preprocess_as_join (_preprocess_text text)).
  rewrite (preprocess_as_join text).
  pose proof (normalised_tokens text) as Ht.
  rewrite (join_tokens_fixed _ Ht).
  now rewrite (split_ws_join _ (tokens_words _ Ht)).
Qed.

End PreprocessProps.

Module RankFacts.
Import PyStr SearchEngine SearchPipeline MergeFacts MergeProps.
Local Open Scope Q_scope.

Lemma insert_desc_sorted (x : SearchResult) (l : list SearchResult) :
  descending l -> descending (insert_desc x l).
Proof.
  unfold descending. induction 1 as [|y l Hl IH Hy]; simpl.
  - repeat constructor.
  - destruct (Qltb (score x) (score y)) eqn:E.
    + constructor; trivial. apply Forall_forall. intros z Hz.
      apply insert_desc_In in Hz as [->|Hz].
      * apply Qltb_lt in E. now apply Qlt_le_weak.
      * rewrite Forall_forall in Hy. auto.
    + apply Qltb_ge in E. constructor; [now constructor|].
      constructor; trivial.
      eapply Forall_impl; [|exact Hy]. intros z Hz. cbv beta in *.
      eapply Qle_trans; eauto.
Qed.

Lemma sort_desc_sorted (l : list SearchResult) : descending (sort_desc l).
Proof.
  induction l as [|x l IH]; simpl; [constructor|].
  now apply insert_desc_sorted.
Qed.

Lemma insert_desc_perm (x : SearchResult) (l : list SearchResult) :
  Permutation (insert_desc x l) (x :: l).
Proof.
  induction l as [|y l IH]; simpl; [reflexivity|].
  destruct (Qltb _ _); [|reflexivity].
  rewrite IH. apply perm_swap.
Qed.

Lemma sort_desc_perm (l : list SearchResult) : Permutation (sort_desc l) l.
Proof.
  induction l as [|x l IH]; simpl; [constructor|].
  now rewrite insert_desc_perm, IH.
Qed.

(** The repositories of the merged results before sorting: those keys of
    the grouping whose entry reaches [min_score], in the dict's order. *)
Lemma merged_ids (eng : Engine) (d : Dict) :
  (forall k e, In (k, e) d -> repository_id (e_repository e) = k) ->
  exists keep : Z * Entry -> bool,
    result_repo_ids (flat_map (merged_of eng) d) = map fst (filter keep d).
Proof.
  intro Hk.
  exists (fun kv => negb (Qltb (combined_score eng (snd kv)) (min_score eng))).
  induction d as [|[k e] d IH]; trivial.
  cbn [flat_map filter snd]. unfold result_repo_ids in *.
  rewrite map_app, IH by (intros; apply Hk; now right).
  unfold merged_of. destruct (Qltb _ _); trivial.
  cbn. f_equal. apply Hk. now left.
Qed.

Lemma NoDup_filter_keys {A B} (keep : A * B -> bool) (d : list (A * B)) :
  NoDup (map fst d) -> NoDup (map fst (filter keep d)).
Proof.
  induction d as [|kv d IH]; simpl; trivial.
  intro H. inversion H as [|? ? Hx Hd]; subst.
  destruct (keep kv); simpl; auto.
  constructor; auto. intro Hin. apply Hx.
  apply in_map_iff in Hin as (y & Hy & Hin). apply filter_In in Hin as [Hin _].
  apply in_map_iff. eauto.
Qed.

Lemma keyword_only_fold_spec (k : Z) (K : list SearchResult) :
  match fold_left (at_key keyword_entry k) K None with
  | None => forall x, In x K -> ~ of_repo k x
  | Some e =>
      exists hk, best_hit k K hk
                 /\ e_keyword_score e = score hk
                 /\ e_text e = text hk
                 /\ e_chunk_type e = chunk_type hk
                 /\ e_neural_score e = 0
  end.
Proof.
  induction K as [|h K IH] using rev_ind; [intros x []|].
  rewrite fold_snoc.
  destruct (at_key_cases keyword_entry k
              (fold_left (at_key keyword_entry k) K None) h)
    as [[Hk ->]|[Hk ->]].
  - destruct (fold_left (at_key keyword_entry k) K None) as [e|];
      cbn [keyword_entry].
    + destruct IH as (hk & Hb & Hs & Ht & Hc & Hn).
      destruct (Qltb (e_keyword_score e) (score h)) eqn:E.
      * apply Qltb_lt in E. rewrite Hs in E. rewrite Hn.
        change (Qltb 0 (1 # 2)) with true. cbv iota.
        exists h. cbn. repeat split; trivial.
        apply best_hit_snoc_new; trivial.
        now apply best_hit_below with (h := hk).
      * apply Qltb_ge in E. rewrite Hs in E.
        exists hk. repeat split; trivial. now apply best_hit_snoc_le.
    + exists h. cbn. repeat split; trivial.
      apply best_hit_snoc_new; trivial.
      intros y Hy Hky. now apply IH in Hy.
  - destruct (fold_left (at_key keyword_entry k) K None) as [e|].
    + destruct IH as (hk & Hb & Hrest). exists hk. split; trivial.
      now apply best_hit_snoc_other.
    + intros x Hx. apply in_app_or in Hx as [Hx|[<-|[]]]; auto.
Qed.

Lemma fold_no_hits (entry : option Entry -> SearchResult -> Entry) (k : Z)
      (hits : list SearchResult) (o : option Entry) :
  (forall x, In x hits -> ~ of_repo k x) ->
  fold_left (at_key entry k) hits o = o.
Proof.
  revert o. induction hits as [|h hits IH]; intros o H; simpl; trivial.
  destruct (at_key_cases entry k o h) as [[Hk _]|[_ ->]].
  - exfalso. apply (H h); [now left | trivial].
  - apply IH. intros x Hx. apply H. now right.
Qed.

Lemma merge_distinct (eng : Engine) (N K : list SearchResult) :
  NoDup (result_repo_ids (_merge_results eng N K)).
Proof.
  unfold _merge_results.
  apply (Permutation_NoDup
           (l := result_repo_ids
                   (flat_map (merged_of eng) (group_results N K)))).
  - unfold result_repo_ids. apply Permutation_map.
    symmetry. apply sort_desc_perm.
  - destruct (merged_ids eng (group_results N K) (group_keyed N K))
      as (keep & ->).
    apply NoDup_filter_keys, group_NoDup.
Qed.

Lemma merge_named_above (eng : Engine) (N K : list SearchResult)
      (r : SearchResult) :
  In r (_merge_results eng N K) ->
  id r = "merged-" ++ str_of_Z (repository_id (repository r))
  /\ min_score eng <= score r.
Proof.
  intro Hr. apply merge_In in Hr as (k & e & Hin & Hm).
  apply group_keyed in Hin. revert Hm. unfold merged_of.
  destruct (Qltb _ _) eqn:E; [discriminate|]. intros [= <-]. cbn.
  rewrite Hin. split; trivial. now apply Qltb_ge.
Qed.

End RankFacts.

Module RankProps.
Import PyStr SearchEngine SearchPipeline SearchFixtures PipelineFixtures
       MergeFacts MergeProps RankFacts.
Local Open Scope Q_scope.

(** X18: The merged results come in descending order of their combined score. *)
Theorem merge_sorted_descending (eng : Engine) (N K : list SearchResult) :
  descending (_merge_results eng N K).
Proof. apply sort_desc_sorted. Qed.

(** X19: One merged result per repository: no two merged results carry the same
    repository id, each is named after its repository, and none scores
    below [min_score]. *)
Theorem merge_one_result_per_repository (eng : Engine)
        (N K : list SearchResult) :
  NoDup (result_repo_ids (_merge_results eng N K))
  /\ Forall (fun r =>
               id r = "merged-" ++ str_of_Z (repository_id (repository r))
               /\ min_score eng <= score r)
            (_merge_results eng N K).
Proof.
  split; [apply merge_distinct|].
  apply Forall_forall. intros r Hr. now apply (merge_named_above eng N K).
Qed.

(** X20: A repository that only one of the two searches found.  Found by the
    neural search only, its merged result carries the best neural hit's
    snippet and [neural_weight] times its score; found by the keyword
    search only, the best keyword hit's snippet and [keyword_weight]
    times its score capped at 10 and divided by 10. *)
Theorem merge_single_source (eng : Engine) (N K : list SearchResult)
        (r : SearchResult) :
  In r (_merge_results eng N K) ->
  ((forall x, In x K -> ~ of_repo (repository_id (repository r)) x) ->
   exists hn,
     best_hit (repository_id (repository r)) N hn
     /\ same_snippet r hn
     /\ neural_score r = Some (score hn)
     /\ score r == neural_weight eng * score hn)
  /\ ((forall x, In x N -> ~ of_repo (repository_id (repository r)) x) ->
      exists hk,
        best_hit (repository_id (repository r)) K hk
        /\ same_snippet r hk
        /\ neural_score r = Some 0
        /\ score r == keyword_weight eng * (py_min (score hk) 10 / 10)).
Proof.
  intro Hr. apply merge_In in Hr as (k & e & Hin & Hm).
  pose proof (group_keyed N K k e Hin) as Hkey.
  apply In_dict_get in Hin; [|apply group_NoDup]. rewrite group_get in Hin.
  apply merged_of_fields in Hm as (Ht & Hc & Hrepo & Hns & Hs & _).
  rewrite Hrepo, Hkey. unfold same_snippet. rewrite Ht, Hc, Hns, Hs.
  unfold combined_score, normalized_keyword. split; intro Hnone.
  - rewrite (fold_no_hits keyword_entry k K _ Hnone) in Hin.
    pose proof (neural_fold_spec k N) as HN. rewrite Hin in HN.
    destruct HN as (hn & Hb & Hsc & Htx & Hct & Hkw).
    exists hn. rewrite Hsc, Htx, Hct, Hkw. repeat split; trivial.
    change (py_min 0 10 / 10) with (0 / 10). field.
  - rewrite (fold_no_hits neural_entry k N _ Hnone) in Hin.
    pose proof (keyword_only_fold_spec k K) as HK. rewrite Hin in HK.
    destruct HK as (hk & Hb & Hsc & Htx & Hct & Hn).
    exists hk. rewrite Hsc, Htx, Hct, Hn. repeat split; trivial.
    field.
Qed.

Lemma merge_single_source_witness :
  exists hk,
    best_hit 1 [hit cat 8 "k"] hk
    /\ same_snippet cat_keyword_only hk
    /\ neural_score cat_keyword_only = Some 0
    /\ score cat_keyword_only
       == keyword_weight default_engine * (py_min (score hk) 10 / 10).
Proof.
  destruct (merge_single_source default_engine [] [hit cat 8 "k"]
                                cat_keyword_only) as [_ H].
  - vm_compute. left. reflexivity.
  - apply H. intros x [].
Defined.

End RankProps.

Module FilterFacts.
Import PyStr SearchEngine SearchPipeline.

(** The loop of [_apply_filters] is a filter, unless a comparison raises. *)
Lemma apply_filters_spec (rs : list SearchResult)
      (fs : list (string * FilterValue)) :
  _apply_filters rs fs
  = if forallb (comparable fs) rs then Some (filter (passes fs) rs) else None.
Proof.
  induction rs as [|r rs IH]; trivial.
  cbn [_apply_filters forallb filter]. unfold comparable at 1, passes at 1.
  destruct (include_result (repository r) fs) as [[|]|]; cbn [andb]; trivial;
    rewrite IH; now destruct (forallb _ rs).
Qed.

Lemma include_result_app (repo : Repository)
      (f1 f2 : list (string * FilterValue)) :
  include_result repo (f1 ++ f2)
  = match include_result repo f1 with
    | Some true => include_result repo f2
    | o => o
    end.
Proof.
  induction f1 as [|[field fv] f1 IH]; trivial.
  cbn [app include_result].
  destruct (repo_get field repo) as [v|]; trivial.
  now destruct (check_field v fv) as [[|]|].
Qed.

Lemma passes_comparable (fs : list (string * FilterValue)) (r : SearchResult) :
  passes fs r = true -> comparable fs r = true.
Proof.
  unfold passes, comparable.
  now destruct (include_result (repository r) fs) as [[|]|].
Qed.

Lemma filter_filter {A} (p : A -> bool) (l : list A) :
  filter p (filter p l) = filter p l.
Proof.
  induction l as [|x l IH]; trivial. simpl.
  destruct (p x) eqn:E; trivial. simpl. now rewrite E, IH.
Qed.

Lemma apply_no_filters (rs : list SearchResult) : _apply_filters rs [] = Some rs.
Proof. induction rs as [|r rs IH]; trivial. simpl. now rewrite IH. Qed.

(** What the filters of the command line make of one repository. *)
Lemma include_cli (min_stars : option Z) (language : option string)
      (repo : Repository) :
  include_result repo (search_command_filters min_stars language)
  = if match min_stars with
       | Some _ => numeric "stargazers_count" repo
       | None => true
       end
    then Some (cli_keeps min_stars language repo)
    else None.
Proof.
  assert (Hlang : forall l,
             include_result repo [("language", FLit (VStr l))]
             = Some (in_language l repo)).
  { intro l. unfold in_language. cbn [include_result].
    destruct (repo_get "language" repo) as [v|]; trivial.
    cbn [check_field]. destruct v as [|b|z|s]; cbn; trivial.
    rewrite negb_involutive. now destruct (String.eqb s l). }
  unfold search_command_filters, cli_keeps.
  rewrite include_result_app.
  destruct min_stars as [m|].
  - unfold numeric, enough_stars. cbn [include_result].
    destruct (repo_get "stargazers_count" repo) as [v|].
    + cbn [check_field assoc String.eqb Ascii.eqb Bool.eqb].
      unfold py_lt, check_max. cbn [assoc String.eqb Ascii.eqb Bool.eqb as_number].
      destruct (as_number v) as [n|] eqn:En.
      * rewrite Z.leb_antisym.
        destruct (Z.ltb n m); cbn [negb andb]; trivial.
        destruct language as [l|]; [apply Hlang | reflexivity].
      * now destruct v.
    + cbn [andb]. destruct language as [l|]; [apply Hlang | reflexivity].
  - cbn [include_result andb].
    destruct language as [l|]; [apply Hlang | reflexivity].
Qed.

Lemma filter_ext_in' {A} (p q : A -> bool) (l : list A) :
  (forall x, In x l -> p x = q x) -> filter p l = filter q l.
Proof.
  induction l as [|x l IH]; trivial. intro H. simpl.
  rewrite (H x (or_introl eq_refl)), IH; trivial.
  intros y Hy. apply H. now right.
Qed.

Lemma forallb_ext' {A} (p q : A -> bool) (l : list A) :
  (forall x, p x = q x) -> forallb p l = forallb q l.
Proof. intro H. induction l as [|x l IH]; simpl; congruence. Qed.

End FilterFacts.

Module FilterExtras.
Import PyStr SearchEngine SearchPipeline SearchFixtures PipelineFixtures
       FilterFacts.

(** X21: Filters applied together are filters applied one after the other, an
    exception of either stage included. *)
Theorem filters_compose (rs : list SearchResult)
        (f1 f2 : list (string * FilterValue)) :
  _apply_filters rs (f1 ++ f2)
  = match _apply_filters rs f1 with
    | Some kept => _apply_filters kept f2
    | None => None
    end.
Proof.
  induction rs as [|r rs IH]; trivial.
  cbn [_apply_filters]. rewrite include_result_app, IH.
  destruct (include_result (repository r) f1) as [[|]|]; trivial.
  - destruct (_apply_filters rs f1) as [kept|]; cbn [_apply_filters].
    + reflexivity.
    + now destruct (include_result (repository r) f2).
  - destruct (_apply_filters rs f1) as [kept|]; trivial.
    now destruct (_apply_filters kept f2).
Qed.

(** X22: Filtering again with the same filters changes nothing. *)
Theorem filters_idempotent (rs kept : list SearchResult)
        (fs : list (string * FilterValue)) :
  _apply_filters rs fs = Some kept -> _apply_filters kept fs = Some kept.
Proof.
  rewrite !apply_filters_spec.
  destruct (forallb (comparable fs) rs); [|discriminate]. intros [= <-].
  rewrite filter_filter.
  assert (forallb (comparable fs) (filter (passes fs) rs) = true) as ->; trivial.
  apply forallb_forall. intros r Hr. apply filter_In in Hr as [_ Hr].
  now apply passes_comparable.
Qed.

Lemma filters_idempotent_witness :
  _apply_filters [only_stars] [("stargazers_count", FDict [("min", VInt 10)])]
  = Some [only_stars].
Proof.
  apply (filters_idempotent [only_stars; few_stars]).
  reflexivity.
Defined.

(** X23: The filters of the command line: unless a star count that is no number
    meets [--min-stars] (a [TypeError]), the results kept are exactly those
    with at least [min_stars] stars, or no star count, and with the
    language asked for, or no language field. *)
Theorem cli_filters_select (min_stars : option Z) (language : option string)
        (rs : list SearchResult) :
  _apply_filters rs (search_command_filters min_stars language)
  = if forallb (fun r => match min_stars with
                         | Some _ => numeric "stargazers_count" (repository r)
                         | None => true
                         end) rs
    then Some (filter (fun r => cli_keeps min_stars language (repository r)) rs)
    else None.
Proof.
  rewrite apply_filters_spec.
  assert (Hc : forall r,
             comparable (search_command_filters min_stars language) r
             = match min_stars with
               | Some _ => numeric "stargazers_count" (repository r)
               | None => true
               end).
  { intro r. unfold comparable. rewrite include_cli.
    now destruct (match min_stars with Some _ => _ | None => _ end). }
  rewrite (forallb_ext' _ _ rs Hc).
  destruct (forallb _ rs) eqn:E; trivial. f_equal.
  apply filter_ext_in'. intros r Hr. unfold passes. rewrite include_cli.
  rewrite forallb_forall in E. rewrite (E r Hr).
  now destruct (cli_keeps _ _ _).
Qed.

End FilterExtras.

Module SliceFacts.
Import PyStr SearchEngine SearchPipeline.
Local Open Scope nat_scope.

(** A slice [xs[:limit]] is a prefix, whatever the sign of [limit]. *)
Lemma py_take_prefix {A} (limit : Z) (xs : list A) :
  exists n, py_take limit xs = firstn n xs.
Proof. unfold py_take. destruct (limit <? 0)%Z; eauto. Qed.

Lemma py_take_length {A} (limit : Z) (xs : list A) :
  (0 <= limit)%Z -> List.length (py_take limit xs) <= Z.to_nat limit.
Proof.
  intro H. unfold py_take. apply Z.ltb_ge in H. rewrite H.
  apply firstn_le_length.
Qed.

End SliceFacts.

Module IndexFacts.
Import PyStr SearchEngine SearchPipeline PreprocessFacts.
Local Open Scope nat_scope.

Lemma corpus_ok_le (ids : list Z) (m m' : nat) (c : Corpus) :
  corpus_ok ids m c -> m <= m' -> corpus_ok ids m' c.
Proof. unfold corpus_ok. intuition lia. Qed.

Lemma add_document_ok (ids : list Z) (m : nat) (tokens : list string)
      (repo_id : Z) (c : Corpus) :
  corpus_ok ids m c ->
  Forall (fun w => is_token w = true) tokens ->
  In repo_id ids ->
  corpus_ok ids (S m) (add_document tokens repo_id c).
Proof.
  destruct c as [documents repo_map]. unfold corpus_ok, add_document.
  cbn [fst snd]. intros (Hk & Ht & Hi & Hl) Htok Hin.
  rewrite map_app, Hk, length_app, Nat.add_1_r, seq_S. cbn [map fst List.length].
  repeat split; trivial.
  - apply Forall_app. auto.
  - apply Forall_app. split; trivial. now constructor.
  - lia.
Qed.

Section Build.

Variable get_repository : Z -> option Repository.
Variable get_repository_readme : Z -> option string.

Lemma add_readme_ok (ids : list Z) (m : nat) (repo_id : Z) (c : Corpus) :
  corpus_ok ids m c -> In repo_id ids ->
  corpus_ok ids (S m) (add_readme get_repository_readme repo_id c).
Proof.
  intros Hc Hin. unfold add_readme.
  destruct (get_repository_readme repo_id) as [readme|];
    [|apply (corpus_ok_le ids m); auto].
  destruct (is_empty readme); [apply (corpus_ok_le ids m); auto|].
  apply add_document_ok; trivial. apply preprocess_split_tokens.
Qed.

Lemma add_description_ok (ids : list Z) (m : nat) (repo_id : Z)
      (repo_data : Repository) (c c' : Corpus) :
  corpus_ok ids m c -> In repo_id ids ->
  add_description repo_id repo_data c = Some c' ->
  corpus_ok ids (S m) c'.
Proof.
  intros Hc Hin. unfold add_description.
  destruct (assoc "description" (attrs repo_data)) as [d|].
  - destruct (truthy d).
    + destruct d as [| | |d]; try discriminate. intros [= <-].
      apply add_document_ok; trivial. apply preprocess_split_tokens.
    + intros [= <-]. apply (corpus_ok_le ids m); auto.
  - intros [= <-]. apply (corpus_ok_le ids m); auto.
Qed.

Lemma index_dict_ok (ids : list Z) (repositories : list (Z * Repository)) :
  forall (m : nat) (c c' : Corpus),
    incl (map fst repositories) ids ->
    corpus_ok ids m c ->
    index_dict get_repository_readme repositories c = Some c' ->
    corpus_ok ids (m + 2 * List.length repositories) c'.
Proof.
  induction repositories as [|[repo_id repo_data] rest IH]; intros m c c' Hin Hc.
  - intros [= <-]. apply (corpus_ok_le ids m); [trivial | lia].
  - cbn [index_dict].
    destruct (add_description repo_id repo_data _) as [c1|] eqn:E;
      [|discriminate].
    intro H. apply IH with (m := S (S m)) in H.
    + cbn [List.length]. eapply corpus_ok_le; [exact H | lia].
    + intros x Hx. apply Hin. now right.
    + assert (In repo_id ids) as Hid by (apply Hin; now left).
      eapply add_description_ok; [| exact Hid | exact E].
      now apply add_readme_ok.
Qed.

Lemma index_list_ok (ids : list Z) (repo_ids : list Z) :
  forall (m : nat) (c c' : Corpus),
    incl repo_ids ids ->
    corpus_ok ids m c ->
    index_list get_repository get_repository_readme repo_ids c = Some c' ->
    corpus_ok ids (m + 2 * List.length repo_ids) c'.
Proof.
  induction repo_ids as [|repo_id rest IH]; intros m c c' Hin Hc.
  - intros [= <-]. apply (corpus_ok_le ids m); [trivial | lia].
  - cbn [index_list].
    assert (incl rest ids) as Hrest by (intros x Hx; apply Hin; now right).
    destruct (get_repository repo_id) as [repo_data|].
    + destruct (add_description repo_id repo_data _) as [c1|] eqn:E;
        [|discriminate].
      intro H. apply IH with (m := S (S m)) in H; trivial.
      * cbn [List.length]. eapply corpus_ok_le; [exact H | lia].
      * assert (In repo_id ids) as Hid by (apply Hin; now left).
        eapply add_description_ok; [| exact Hid | exact E].
        now apply add_readme_ok.
    + intro H. apply IH with (m := m) in H; trivial.
      cbn [List.length]. eapply corpus_ok_le; [exact H | lia].
Qed.

Variable bm25_okapi : list (list string) -> bool.

(** The build leaves the engine as it was, or installs an index over a
    corpus that is in order. *)
Lemma initialize_cases (self : Bm25) (repo_ids : Stored) :
  _initialize_bm25_index get_repository get_repository_readme bm25_okapi
                         self repo_ids = self
  \/ exists documents repo_map,
      _initialize_bm25_index get_repository get_repository_readme bm25_okapi
                             self repo_ids
      = {| bm25_index := true; bm25_documents := documents;
           bm25_repo_map := repo_map |}
      /\ documents <> []
      /\ corpus_ok (stored_ids repo_ids)
                   (2 * List.length (stored_ids repo_ids))
                   (documents, repo_map).
Proof.
  unfold _initialize_bm25_index.
  destruct (stored_is_empty repo_ids); [now left|].
  assert (H0 : corpus_ok (stored_ids repo_ids) 0 ([], [])).
  { unfold corpus_ok. cbn. repeat split; auto. }
  destruct (match repo_ids with
            | StoredDict repositories => _
            | StoredList ids => _
            end) as [[documents repo_map]|] eqn:E; [|now left].
  destruct documents as [|t documents]; [now left|].
  destruct (bm25_okapi _); [|now left].
  right. exists (t :: documents), repo_map. repeat split; try discriminate;
    destruct repo_ids as [repositories | ids]; cbn [stored_ids] in *;
    (apply index_dict_ok with (ids := map fst repositories) (m := 0) in E
     || apply index_list_ok with (ids := ids) (m := 0) in E);
    trivial; try apply incl_refl;
    try (rewrite length_map); apply E.
Qed.

End Build.

Lemma lookup_doc_In (idx : nat) (m : list (nat * Z)) (v : Z) :
  lookup_doc idx m = Some v -> In idx (map fst m).
Proof.
  induction m as [|[k w] m IH]; simpl; [discriminate|].
  destruct (Nat.eqb_spec idx k); auto.
Qed.

End IndexFacts.

Module IndexProps.
Import PyStr SearchEngine SearchPipeline SearchFixtures PipelineFixtures
       PreprocessFacts IndexFacts MergeFacts.
Local Open Scope nat_scope.

(** X13: Whatever the store holds and whatever the libraries do, [__init__]
    leaves the engine with a consistent lexical index: document [i] is
    mapped under key [i], every token is a non-empty run of lower-case
    word characters, and the index object is there only with documents. *)
Theorem index_consistent (get_repository : Z -> option Repository)
        (get_repository_readme : Z -> option string)
        (bm25_okapi : list (list string) -> bool)
        (hybrid : bool) (repo_ids : Stored) :
  consistent (__init__ get_repository get_repository_readme bm25_okapi
                       hybrid repo_ids).
Proof.
  assert (H0 : consistent no_index).
  { unfold consistent. cbn. repeat split; auto. discriminate. }
  unfold __init__. destruct hybrid; trivial.
  destruct (initialize_cases get_repository get_repository_readme bm25_okapi
              no_index repo_ids)
    as [->|(documents & repo_map & -> & Hne & Hk & Ht & _)]; trivial.
  unfold consistent. cbn [bm25_index bm25_documents bm25_repo_map fst snd] in *.
  auto.
Qed.

(** X14: The index holds at most two documents for each repository of the
    store, the README and the description, and maps documents to ids of
    the store only. *)
Theorem index_from_store (get_repository : Z -> option Repository)
        (get_repository_readme : Z -> option string)
        (bm25_okapi : list (list string) -> bool)
        (hybrid : bool) (repo_ids : Stored) :
  List.length
    (bm25_documents (__init__ get_repository get_repository_readme
                              bm25_okapi hybrid repo_ids))
  <= 2 * List.length (stored_ids repo_ids)
  /\ Forall (fun kv => In (snd kv) (stored_ids repo_ids))
            (bm25_repo_map (__init__ get_repository get_repository_readme
                                     bm25_okapi hybrid repo_ids)).
Proof.
  unfold __init__. destruct hybrid; [|cbn; split; [lia | constructor]].
  destruct (initialize_cases get_repository get_repository_readme bm25_okapi
              no_index repo_ids)
    as [->|(documents & repo_map & -> & _ & _ & _ & Hi & Hl)].
  - cbn. split; [lia | constructor].
  - cbn [bm25_documents bm25_repo_map fst snd] in *. auto.
Qed.

(** X15: A description that is truthy but no string makes the whole build
    fail: the exception is caught and the engine keeps the fields it
    had. *)
Theorem index_build_all_or_nothing
        (get_repository : Z -> option Repository)
        (get_repository_readme : Z -> option string)
        (bm25_okapi : list (list string) -> bool)
        (self : Bm25) (before after : list (Z * Repository))
        (repo_id : Z) (repo_data : Repository) (z : Z) :
  assoc "description" (attrs repo_data) = Some (VInt z) ->
  z <> 0%Z ->
  _initialize_bm25_index get_repository get_repository_readme bm25_okapi self
    (StoredDict (before ++ (repo_id, repo_data) :: after))
  = self.
Proof.
  intros Hd Hz. unfold _initialize_bm25_index.
  destruct (stored_is_empty _); trivial.
  enough (forall c, index_dict get_repository_readme
                      (before ++ (repo_id, repo_data) :: after) c = None)
    as -> by reflexivity.
  induction before as [|[k r] before IH]; intro c; cbn [app index_dict].
  - unfold add_description. rewrite Hd. cbn [truthy].
    apply Z.eqb_neq in Hz. now rewrite Hz.
  - destruct (add_description k r _); trivial.
Qed.

Lemma index_build_all_or_nothing_witness :
  _initialize_bm25_index store_repository store_readme always_built
    store_index
    (StoredDict [(1%Z, cat);
                 (7%Z, {| repository_id := 7;
                          attrs := [("description", VInt 5)] |})])
  = store_index.
Proof.
  apply (index_build_all_or_nothing store_repository store_readme
           always_built store_index [(1%Z, cat)] [] 7%Z
           {| repository_id := 7; attrs := [("description", VInt 5)] |} 5%Z).
  - reflexivity.
  - discriminate.
Defined.

End IndexProps.

Module KeywordProps.
Import PyStr SearchEngine SearchPipeline SearchFixtures PipelineFixtures
       SliceFacts IndexFacts MergeFacts.
Local Open Scope nat_scope.

(** X16: Every result of the keyword search is built from a document of the
    index that scores at least [min_score] and is mapped to a repository of
    the store with a non-zero id: it is tagged ["bm25"], and its text is
    the first 50 tokens of the document.  For a [limit] that is not
    negative, at most [limit] results come back. *)
Theorem keyword_search_results (get_repository : Z -> option Repository)
        (get_scores : list (list string) -> list string -> list Q)
        (argsort : list Q -> list nat)
        (self : Bm25) (eng : Engine) (query : string) (limit : Z) :
  ((0 <= limit)%Z ->
   List.length (_keyword_search get_repository get_scores argsort self eng
                                query limit) <= Z.to_nat limit)
  /\ Forall (fun r =>
               chunk_type r = "bm25"
               /\ (min_score eng <= score r)%Q
               /\ exists idx repo_id tokens,
                   lookup_doc idx (bm25_repo_map self) = Some repo_id
                   /\ repo_id <> 0%Z
                   /\ get_repository repo_id = Some (repository r)
                   /\ nth_error (bm25_documents self) idx = Some tokens
                   /\ id r = "bm25-" ++ str_of_Z repo_id ++ "-"
                             ++ str_of_nat idx
                   /\ text r = join " " (firstn 50 tokens) ++ "...")
            (_keyword_search get_repository get_scores argsort self eng
                             query limit).
Proof.
  unfold _keyword_search.
  destruct (bm25_index self); [|cbn; split; [lia|constructor]].
  set (scores := get_scores _ _).
  assert (Hlen : (0 <= limit)%Z ->
                 List.length (py_take limit (rev (argsort scores)))
                 <= Z.to_nat limit)
    by apply py_take_length.
  revert Hlen. generalize (py_take limit (rev (argsort scores))).
  intros tops Hlen.
  enough (forall results,
             keyword_loop get_repository self (min_score eng) scores tops
             = Some results ->
             List.length results <= List.length tops
             /\ Forall (fun r =>
               chunk_type r = "bm25"
               /\ (min_score eng <= score r)%Q
               /\ exists idx repo_id tokens,
                   lookup_doc idx (bm25_repo_map self) = Some repo_id
                   /\ repo_id <> 0%Z
                   /\ get_repository repo_id = Some (repository r)
                   /\ nth_error (bm25_documents self) idx = Some tokens
                   /\ id r = "bm25-" ++ str_of_Z repo_id ++ "-"
                             ++ str_of_nat idx
                   /\ text r = join " " (firstn 50 tokens) ++ "...") results)
    as H.
  { destruct (keyword_loop _ _ _ _ _) as [results|];
      [|cbn; split; [lia|constructor]].
    destruct (H results eq_refl). split; trivial.
    intro Hl. specialize (Hlen Hl). lia. }
  clear Hlen. induction tops as [|idx rest IH]; intros results.
  - intros [= <-]. split; [cbn; lia | constructor].
  - cbn [keyword_loop List.length].
    assert (Hskip : keyword_loop get_repository self (min_score eng) scores rest
                    = Some results ->
                    List.length results <= S (List.length rest) /\ Forall _ results)
      by (intro H; destruct (IH _ H); split; [lia | eassumption]).
    destruct (nth_error scores idx) as [s|]; [|discriminate].
    destruct (Qltb s (min_score eng)) eqn:Es; [exact Hskip|].
    destruct (lookup_doc idx _) as [repo_id|] eqn:El; [|exact Hskip].
    destruct (Z.eqb_spec repo_id 0); [exact Hskip|].
    destruct (get_repository repo_id) as [repo_data|] eqn:Eg; [|exact Hskip].
    destruct (nth_error (bm25_documents self) idx) as [tokens|] eqn:Et;
      [|discriminate].
    destruct (keyword_loop _ _ _ _ rest) as [rs|]; [|discriminate].
    intros [= <-]. destruct (IH rs eq_refl) as [Hl Hf].
    split; [cbn; lia|]. constructor; trivial.
    cbn [keyword_result chunk_type score repository id text].
    split; trivial. split; [now apply Qltb_ge|].
    exists idx, repo_id, tokens. auto 10.
Qed.

Lemma keyword_search_results_witness :
  List.length (_keyword_search store_repository count_scores argsort_asc
                               store_index default_engine "cats dog" 1)
  <= Z.to_nat 1.
Proof.
  apply (keyword_search_results store_repository count_scores argsort_asc
           store_index default_engine "cats dog" 1).
  discriminate.
Defined.

(** X17: With a consistent index, [bm25_documents[idx]] never raises: when the
    indices are positions of the score array, the loop over them runs to
    its end. *)
Theorem keyword_loop_in_range (get_repository : Z -> option Repository)
        (self : Bm25) (min_score : Q) (scores : list Q)
        (top_indices : list nat) :
  consistent self ->
  Forall (fun idx => idx < List.length scores) top_indices ->
  exists results,
    keyword_loop get_repository self min_score scores top_indices
    = Some results.
Proof.
  intros (Hk & _ & _) Hin.
  induction Hin as [|idx rest Hidx _ [rs IH]]; [now exists []|].
  cbn [keyword_loop]. rewrite IH.
  destruct (nth_error scores idx) as [s|] eqn:Es.
  2:{ apply nth_error_None in Es. lia. }
  destruct (Qltb s min_score); [eauto|].
  destruct (lookup_doc idx _) as [repo_id|] eqn:El; [|eauto].
  destruct (Z.eqb repo_id 0); [eauto|].
  destruct (get_repository repo_id); [|eauto].
  apply lookup_doc_In in El. rewrite Hk in El. apply in_seq in El.
  destruct (nth_error (bm25_documents self) idx) eqn:Et; [eauto|].
  apply nth_error_None in Et. lia.
Qed.

Lemma keyword_loop_in_range_witness :
  exists results,
    keyword_loop store_repository store_index (2 # 10) [2%Q; 0%Q] [0; 1]
    = Some results.
Proof.
  apply (keyword_loop_in_range store_repository store_index (2 # 10)
                               [2%Q; 0%Q] [0; 1]).
  - split; [reflexivity|]. split; [|discriminate]. repeat constructor.
  - repeat constructor.
Defined.

End KeywordProps.

Module SearchFacts.
Import PyStr SearchEngine SearchPipeline SliceFacts FilterFacts RankFacts.
Local Open Scope nat_scope.

Lemma In_firstn {A} (n : nat) (l : list A) (x : A) :
  In x (firstn n l) -> In x l.
Proof.
  revert n. induction l as [|y l IH]; intros [|n]; simpl; try tauto.
  intros [->|H]; eauto.
Qed.

Lemma descending_filter (p : SearchResult -> bool) (l : list SearchResult) :
  descending l -> descending (filter p l).
Proof.
  unfold descending. induction 1 as [|x l Hl IH Hx]; simpl; [constructor|].
  destruct (p x); trivial. constructor; trivial.
  apply Forall_forall. intros y Hy. apply filter_In in Hy as [Hy _].
  rewrite Forall_forall in Hx. auto.
Qed.

Lemma descending_firstn (n : nat) (l : list SearchResult) :
  descending l -> descending (firstn n l).
Proof.
  unfold descending. intro H. revert n.
  induction H as [|x l Hl IH Hx]; intros [|n]; simpl; try constructor; auto.
  apply Forall_forall. intros y Hy. apply In_firstn in Hy.
  rewrite Forall_forall in Hx. auto.
Qed.

Lemma NoDup_map_filter {A B} (key : A -> B) (keep : A -> bool)
      (rs : list A) :
  NoDup (map key rs) -> NoDup (map key (filter keep rs)).
Proof.
  intro Hnd. induction rs as [|r rs IH]; simpl; trivial.
  inversion Hnd as [|? ? Hr Hrs]; subst. destruct (keep r); simpl; auto.
  constructor; auto. intro Hin. apply Hr.
  apply in_map_iff in Hin as (y & Hy & Hin). apply filter_In in Hin as [Hin _].
  apply in_map_iff. eauto.
Qed.

Lemma NoDup_map_firstn {A B} (f : A -> B) (n : nat) (l : list A) :
  NoDup (map f l) -> NoDup (map f (firstn n l)).
Proof.
  revert n. induction l as [|x l IH]; intros [|n]; simpl; trivial;
    [intros _; constructor|].
  intro H. inversion H as [|? ? Hx Hl]; subst. constructor; auto.
  intro Hin. apply Hx.
  apply in_map_iff in Hin as (y & Hy & Hin). apply In_firstn in Hin.
  apply in_map_iff. eauto.
Qed.

Lemma Forall_firstn' {A} (P : A -> Prop) (n : nat) (l : list A) :
  Forall P l -> Forall P (firstn n l).
Proof.
  intro H. apply Forall_forall. intros x Hx. apply In_firstn in Hx.
  rewrite Forall_forall in H. auto.
Qed.

Lemma Forall_filter' {A} (P : A -> Prop) (p : A -> bool) (l : list A) :
  Forall P l -> Forall P (filter p l).
Proof.
  intro H. apply Forall_forall. intros x Hx. apply filter_In in Hx as [Hx _].
  rewrite Forall_forall in H. auto.
Qed.

Lemma filter_no_filters (rs : list SearchResult) : filter (passes []) rs = rs.
Proof. induction rs as [|r rs IH]; trivial. simpl. now rewrite IH. Qed.

(** What [_apply_filters] under the guard [if filters:] comes to. *)
Lemma guarded_filters (rs : list SearchResult)
      (fs : list (string * FilterValue)) (lim : Z) :
  match fs with
  | [] => Some (py_take lim rs)
  | _ :: _ =>
      match _apply_filters rs fs with
      | None => None
      | Some filtered => Some (py_take lim filtered)
      end
  end
  = match _apply_filters rs fs with
    | None => None
    | Some filtered => Some (py_take lim filtered)
    end.
Proof. destruct fs; trivial. now rewrite apply_no_filters. Qed.

Lemma descending_slice (lim : Z) (l : list SearchResult) :
  descending l -> descending (py_take lim l).
Proof.
  destruct (py_take_prefix lim l) as [n ->]. apply descending_firstn.
Qed.

Lemma NoDup_map_slice {A B} (f : A -> B) (lim : Z) (l : list A) :
  NoDup (map f l) -> NoDup (map f (py_take lim l)).
Proof.
  destruct (py_take_prefix lim l) as [n ->]. apply NoDup_map_firstn.
Qed.

Lemma Forall_slice {A} (P : A -> Prop) (lim : Z) (l : list A) :
  Forall P l -> Forall P (py_take lim l).
Proof.
  destruct (py_take_prefix lim l) as [n ->]. apply Forall_firstn'.
Qed.

End SearchFacts.

Module SearchProps.
Import PyStr SearchEngine SearchPipeline SearchFixtures PipelineFixtures
       SliceFacts MergeFacts FilterFacts RankFacts SearchFacts.
Local Open Scope nat_scope.

(** X24: Every result that [search] returns passed every filter, whatever the
    limit; for a limit that is not negative ([max_results] without a
    limit) at most that many results come back. *)
Theorem search_results_pass_filters
        (get_repository : Z -> option Repository)
        (get_scores : list (list string) -> list string -> list Q)
        (argsort : list Q -> list nat)
        (embedding_search : string -> Z -> list SearchResult)
        (cfg : SearchConfig) (self : Bm25) (query : string)
        (filters : list (string * FilterValue)) (limit : option Z)
        (out : list SearchResult) :
  search get_repository get_scores argsort embedding_search cfg self query
         filters limit = Some out ->
  Forall (fun r => passes filters r = true) out
  /\ ((0 <= limit_of cfg limit)%Z ->
      List.length out <= Z.to_nat (limit_of cfg limit)).
Proof.
  unfold search. fold (limit_of cfg limit).
  rewrite guarded_filters, apply_filters_spec.
  destruct (forallb _ _); [|discriminate]. intros [= <-]. split.
  - apply Forall_slice, Forall_forall. intros r Hr.
    now apply filter_In in Hr.
  - apply py_take_length.
Qed.

Lemma search_results_pass_filters_witness :
  Forall (fun r => passes at_least_ten_stars r = true) [cat_hybrid]
  /\ List.length [cat_hybrid] <= Z.to_nat (limit_of hybrid_config None).
Proof.
  destruct (search_results_pass_filters store_repository count_scores
              argsort_asc one_neural_hit hybrid_config store_index "cats"
              at_least_ten_stars None [cat_hybrid]) as [Hp Hl].
  - vm_compute. reflexivity.
  - split; [exact Hp | apply Hl; discriminate].
Defined.

(** X25: When hybrid search is on and the keyword search finds something, the
    results of [search] are ranked: in descending order of score, one per
    repository, and none below [min_score], whatever the filters. *)
Theorem search_hybrid_ranked
        (get_repository : Z -> option Repository)
        (get_scores : list (list string) -> list string -> list Q)
        (argsort : list Q -> list nat)
        (embedding_search : string -> Z -> list SearchResult)
        (cfg : SearchConfig) (self : Bm25) (query : string)
        (filters : list (string * FilterValue)) (limit : option Z)
        (out : list SearchResult) :
  hybrid_enabled cfg = true ->
  _keyword_search get_repository get_scores argsort self (engine cfg) query
                  (limit_of cfg limit * 2) <> [] ->
  search get_repository get_scores argsort embedding_search cfg self query
         filters limit = Some out ->
  descending out
  /\ NoDup (result_repo_ids out)
  /\ Forall (fun r => (min_score (engine cfg) <= score r)%Q) out.
Proof.
  intros Hh Hk. unfold search. fold (limit_of cfg limit).
  rewrite guarded_filters, apply_filters_spec, Hh. cbn [andb].
  destruct (bm25_index self) eqn:Ei.
  2:{ exfalso. apply Hk. unfold _keyword_search. now rewrite Ei. }
  destruct (_keyword_search _ _ _ _ _ _ _) as [|k K] eqn:EK; [contradiction|].
  cbn [nonempty].
  destruct (forallb _ _); [|discriminate]. intros [= <-].
  repeat split.
  - apply descending_slice, descending_filter, sort_desc_sorted.
  - apply NoDup_map_slice, NoDup_map_filter, merge_distinct.
  - apply Forall_slice, Forall_filter', Forall_forall. intros r Hr.
    now apply merge_named_above in Hr.
Qed.

Lemma search_hybrid_ranked_witness :
  descending [cat_hybrid]
  /\ NoDup (result_repo_ids [cat_hybrid])
  /\ Forall (fun r => (min_score default_engine <= score r)%Q) [cat_hybrid].
Proof.
  apply (search_hybrid_ranked store_repository count_scores argsort_asc
           one_neural_hit hybrid_config store_index "cats"
           at_least_ten_stars None).
  - reflexivity.
  - vm_compute. discriminate.
  - vm_compute. reflexivity.
Defined.

(** X27: What [search_command] displays meets the command line: every result
    has at least [--min-stars] stars, or no star count, and the language
    asked for, or no language field; for a [--limit] that is not negative
    ([max_results] without one) at most that many results are shown. *)
Theorem search_command_selects
        (get_repository : Z -> option Repository)
        (get_scores : list (list string) -> list string -> list Q)
        (argsort : list Q -> list nat)
        (embedding_search : string -> Z -> list SearchResult)
        (cfg : SearchConfig) (self : Bm25) (query : string)
        (neural keyword : option Q) (min_stars : option Z)
        (language : option string) (limit : option Z)
        (out : list SearchResult) :
  search_command get_repository get_scores argsort embedding_search cfg self
                 query neural keyword min_stars language limit = Some out ->
  Forall (fun r => cli_keeps min_stars language (repository r) = true) out
  /\ ((0 <= limit_of cfg limit)%Z ->
      List.length out <= Z.to_nat (limit_of cfg limit)).
Proof.
  unfold search_command, search. cbn [max_results hybrid_enabled engine].
  fold (limit_of cfg limit).
  rewrite guarded_filters, apply_filters_spec.
  destruct (forallb _ _); [|discriminate]. intros [= <-]. split.
  - apply Forall_slice, Forall_forall. intros r Hr.
    apply filter_In in Hr as [_ Hr]. unfold passes in Hr.
    rewrite include_cli in Hr.
    destruct (match min_stars with Some _ => _ | None => _ end);
      [|discriminate].
    now destruct (cli_keeps _ _ _).
  - apply py_take_length.
Qed.

Lemma search_command_selects_witness :
  Forall (fun r => cli_keeps (Some 10%Z) None (repository r) = true)
         [cat_hybrid]
  /\ List.length [cat_hybrid] <= Z.to_nat (limit_of hybrid_config (Some 5%Z)).
Proof.
  destruct (search_command_selects store_repository count_scores argsort_asc
              one_neural_hit hybrid_config store_index "cats" None None
              (Some 10%Z) None (Some 5%Z) [cat_hybrid]) as [Hp Hl].
  - vm_compute. reflexivity.
  - split; [exact Hp | apply Hl; discriminate].
Defined.

End SearchProps.

(* ------------------------------------------------------------------ *)
(** ** The repository's unit tests, run on the embedding *)

Module ChunkerTests.
Import PyStr Re ContentProcessor ChunkFixtures.
Local Open Scope nat_scope.

(** [test_semantic_chunking_no_headers] *)
Example test_semantic_chunking_no_headers :
  option_map (map chunk_type)
    (_semantic_chunking test_cfg SAMPLE_README_NO_HEADERS SAMPLE_REPO)
  = Some [readme_window].
Proof. vm_compute. reflexivity. Qed.

(** [test_sliding_window_chunking_overlap]: the first five words of the
    second chunk are the last five of the first. *)
Example test_sliding_window_chunking_overlap :
  match _sliding_window_chunking overlap_cfg fifteen_words SAMPLE_REPO with
  | Some (first :: second :: _) =>
      firstn 5 (chunk_words second) = last_n 5 (chunk_words first)
  | _ => False
  end.
Proof. vm_compute. reflexivity. Qed.

(** [test_hybrid_chunking_large_section]: more chunks than sections and a
    hybrid chunk with both indices, which here is the forced one. *)
Example test_hybrid_chunking_large_section :
  option_map (map (fun c => (chunk_type c, section_index c, window_index c)))
    (_hybrid_chunking test_cfg SAMPLE_README_LARGE SAMPLE_REPO)
  = Some [(readme_section, Some 0, None);
          (readme_section, Some 1, None);
          (readme_section, Some 2, None);
          (readme_hybrid, Some 0, Some 0)].
Proof. vm_compute. reflexivity. Qed.

(** [test_process_description] *)
Example test_process_description :
  process_description SAMPLE_REPO
  = Some {| id := "12345-description"; repo_id := 12345;
            repo_name := "test-user/test-repo";
            content := "Repository: test-user/test-repo" ++ NL
                       ++ "Description: A test repository";
            chunk_type := description;
            section_index := None; window_index := None |}.
Proof. reflexivity. Qed.

End ChunkerTests.

Module EngineTests.
Import PyStr SearchEngine SearchFixtures.
Local Open Scope Q_scope.

(** [test_merge_results]: one result, with the scores the test expects. *)
Example test_merge_results :
  exists r,
    _merge_results default_engine SAMPLE_NEURAL_RESULTS SAMPLE_KEYWORD_RESULTS
    = [r]
    /\ id r = "merged-12345"
    /\ repository r = SAMPLE_REPO
    /\ score r == (7 # 10) * (9 # 10) + (3 # 10) * (5 / 10)
    /\ neural_score r = Some (9 # 10)
    /\ (exists k, keyword_score r = Some k /\ k == 1 # 2).
Proof.
  eexists. split; [vm_compute; reflexivity|]. cbn.
  repeat split; try reflexivity.
  eexists. split; reflexivity.
Qed.

(** [test_apply_filters_exact_match] and [test_apply_filters_no_match] *)
Example test_apply_filters_exact_match :
  _apply_filters SAMPLE_NEURAL_RESULTS [("language", FLit (VStr "Python"))]
  = Some SAMPLE_NEURAL_RESULTS
  /\ _apply_filters SAMPLE_NEURAL_RESULTS
       [("language", FLit (VStr "JavaScript"))]
     = Some [].
Proof. split; reflexivity. Qed.

(** [test_apply_filters_range] *)
Example test_apply_filters_range :
  _apply_filters SAMPLE_NEURAL_RESULTS
    [("stargazers_count", FDict [("min", VInt 50)])]
  = Some SAMPLE_NEURAL_RESULTS
  /\ _apply_filters SAMPLE_NEURAL_RESULTS
       [("stargazers_count", FDict [("min", VInt 200)])]
     = Some []
  /\ _apply_filters SAMPLE_NEURAL_RESULTS
       [("stargazers_count", FDict [("min", VInt 50); ("max", VInt 200)])]
     = Some SAMPLE_NEURAL_RESULTS.
Proof. repeat split; reflexivity. Qed.

(** [test_apply_filters_multiple] *)
Example test_apply_filters_multiple :
  _apply_filters SAMPLE_NEURAL_RESULTS
    [("language", FLit (VStr "Python"));
     ("stargazers_count", FDict [("min", VInt 50)]);
     ("forks_count", FDict [("min", VInt 10)])]
  = Some SAMPLE_NEURAL_RESULTS
  /\ _apply_filters SAMPLE_NEURAL_RESULTS
       [("language", FLit (VStr "Python"));
        ("stargazers_count", FDict [("min", VInt 50)]);
        ("forks_count", FDict [("min", VInt 50)])]
     = Some [].
Proof. split; reflexivity. Qed.

End EngineTests.
